(** * GA-Archivos: renaming rules, visible set, pasted names and batch copy

    A shallow embedding of the renaming engine of the GA-Archivos
    application (TypeScript / React):

    - [fileUtils.ts]: [getExtension], [getBaseName];
    - [types.ts]: [FileItem], [GlobalConfig], [FilterState], [SortType];
    - the [App] component, which exists in three revisions.  Module [App]
      embeds the revision with find/replace and the row limit, module
      [AppCollision] the revision with the size filter and the collision
      check before writing, module [AppPlain] the third revision, which
      has the executor of [AppCollision] and no sorting.

    JavaScript strings are embedded as [string] (sequences of 8-bit
    characters standing for code units), numbers that hold integers as
    [Z] or [N], optional fields as [option]. *)

From Stdlib Require Import ZArith Lia String Ascii List Bool.
From stdpp Require Import base tactics option list gmap strings.

Local Open Scope string_scope.
Local Open Scope Z_scope.
Local Open Scope list_scope.

(** ** JavaScript string primitives used by the source *)

Module JS.

(** [a || b] on strings: the empty string is falsy. *)
Definition or (a b : string) : string :=
  match a with
  | EmptyString => b
  | String _ _ => a
  end.

(** Truthiness of a string value. *)
Definition truthy (a : string) : bool :=
  match a with
  | EmptyString => false
  | String _ _ => true
  end.

(** [s.startsWith(p)]. *)
Definition startsWith (s p : string) : bool := String.prefix p s.

(** [s.includes(t)]: [t] occurs in [s] at some position. *)
Fixpoint includes (s t : string) : bool :=
  String.prefix t s ||
  match s with
  | EmptyString => false
  | String _ s' => includes s' t
  end.

(** Removes the first [n] code units. *)
Fixpoint drop (n : nat) (s : string) : string :=
  match n, s with
  | O, _ => s
  | S _, EmptyString => EmptyString
  | S n', String _ s' => drop n' s'
  end.

(** [s.lastIndexOf(pat)], counted from position [i] of the whole
    string; [-1] when there is no occurrence. *)
Fixpoint lastIndexOf_from (s pat : string) (i : Z) : Z :=
  match s with
  | EmptyString => if String.prefix pat EmptyString then i else -1
  | String _ s' =>
      let r := lastIndexOf_from s' pat (i + 1) in
      if 0 <=? r then r
      else if String.prefix pat s then i else -1
  end.

Definition lastIndexOf (s pat : string) : Z := lastIndexOf_from s pat 0.

(** [x >>> 0]: conversion to an unsigned 32-bit integer. *)
Definition toUint32 (x : Z) : Z := x mod 2 ^ 32.

(** [s.slice(start)] with one argument. *)
Definition slice (s : string) (start : Z) : string :=
  let len := Z.of_nat (String.length s) in
  let from := if start <? 0 then Z.max (len + start) 0 else Z.min start len in
  drop (Z.to_nat from) s.

(** [s.substring(a, b)]: both ends clamped to the string, swapped when
    out of order. *)
Definition substring (s : string) (a b : Z) : string :=
  let len := Z.of_nat (String.length s) in
  let a' := Z.min (Z.max a 0) len in
  let b' := Z.min (Z.max b 0) len in
  let from := Z.min a' b' in
  let to := Z.max a' b' in
  String.substring (Z.to_nat from) (Z.to_nat (to - from)) s.

(** Pieces of [s] between occurrences of a non-empty separator; [skip]
    counts the code units of a separator that was just matched and is
    still to be passed over. *)
Fixpoint split_aux (sep s : string) (skip : nat) : list string :=
  match s with
  | EmptyString => [EmptyString]
  | String c s' =>
      match skip with
      | S k => split_aux sep s' k
      | O =>
          if String.prefix sep s
          then EmptyString :: split_aux sep s' (String.length sep - 1)
          else match split_aux sep s' 0 with
               | h :: t => String c h :: t
               | [] => [String c EmptyString]
               end
      end
  end.

(** [s.split(sep)]; an empty separator splits into code units. *)
Definition split (s sep : string) : list string :=
  match sep with
  | EmptyString => (fun c => String c EmptyString) <$> list_ascii_of_string s
  | String _ _ => split_aux sep s 0
  end.

(** [l.join(sep)]. *)
Definition join (l : list string) (sep : string) : string :=
  String.concat sep l.

(** White space and line terminators stripped by [trim], among the code
    units a [string] can hold: TAB, LF, VT, FF, CR, SP and NBSP. *)
Definition isWhiteSpace (c : ascii) : bool :=
  let n := nat_of_ascii c in
  ((9 <=? n)%nat && (n <=? 13)%nat) || (n =? 32)%nat || (n =? 160)%nat.

Fixpoint trimStart (s : string) : string :=
  match s with
  | EmptyString => EmptyString
  | String c s' => if isWhiteSpace c then trimStart s' else s
  end.

Fixpoint trimEnd (s : string) : string :=
  match s with
  | EmptyString => EmptyString
  | String c s' =>
      match trimEnd s' with
      | EmptyString => if isWhiteSpace c then EmptyString else String c EmptyString
      | String _ _ as t => String c t
      end
  end.

(** [s.trim()]. *)
Definition trim (s : string) : string := trimEnd (trimStart s).

(** [new Date(t)] for a time stamp [t]: the time value of the date,
    [None] when the date is invalid, which it is for a time stamp of
    more than 8.64e15 milliseconds on either side of the epoch. *)
Definition newDate (t : Z) : option Z :=
  if Z.abs t <=? 8640000000000000 then Some t else None.

(** [fileDate >= bound] and [fileDate <= bound] on two dates, [None]
    when invalid: a comparison with an invalid date is false. *)
Definition date_ge (fileDate bound : option Z) : bool :=
  match fileDate, bound with
  | Some x, Some y => y <=? x
  | _, _ => false
  end.

Definition date_le (fileDate bound : option Z) : bool :=
  match fileDate, bound with
  | Some x, Some y => x <=? y
  | _, _ => false
  end.

(** [l.findIndex(p)]; [None] stands for [-1]. *)
Fixpoint findIndex {A} (p : A -> bool) (l : list A) : option nat :=
  match l with
  | [] => None
  | x :: l' => if p x then Some O else S <$> findIndex p l'
  end.

(** Insertion of [x] in front of the first element that does not sort
    strictly before it. *)
Fixpoint insert_sorted {A} (cmp : A -> A -> Z) (x : A) (l : list A) : list A :=
  match l with
  | [] => [x]
  | y :: l' => if 0 <? cmp x y then y :: insert_sorted cmp x l' else x :: l
  end.

(** [l.sort(cmp)].  The language requires the sort to be stable; for a
    consistent comparator the stable sorted arrangement is unique, and
    it is the one computed here. *)
Fixpoint sort {A} (cmp : A -> A -> Z) (l : list A) : list A :=
  match l with
  | [] => []
  | x :: l' => insert_sorted cmp x (sort cmp l')
  end.

(** The services of the host that depend on Unicode tables, on the
    locale or on the time zone. *)
Class Runtime := {
  (** [s.toLowerCase()] *)
  toLowerCase : string -> string;
  toLowerCase_empty : toLowerCase EmptyString = EmptyString;
  (** [a.localeCompare(b)] *)
  localeCompare : string -> string -> Z;
  localeCompare_tie_sym : forall a b, localeCompare a b = 0 -> localeCompare b a = 0;
  (** [new Date(text)] for a local date and time; [None] is the invalid date. *)
  parseDate : string -> option Z
}.

End JS.

(** ** Data model ([types.ts]) *)

(** An opaque reference to a file of the source directory. *)
Inductive FileSystemFileHandle := FileHandle (token : nat).

(** An opaque reference to a directory. *)
Inductive FileSystemDirectoryHandle := DirectoryHandle (token : nat).

#[global] Instance FileSystemFileHandle_eq_dec : EqDecision FileSystemFileHandle.
Proof. solve_decision. Defined.

(** The content of a file. *)
Abbreviation Blob := (list Byte.byte).

Inductive Status := pending | processing | success | error | skipped.

#[global] Instance Status_eq_dec : EqDecision Status.
Proof. solve_decision. Defined.

(** The terminal states of the life cycle of an item. *)
Definition terminal (s : Status) : bool :=
  match s with
  | success | error | skipped => true
  | pending | processing => false
  end.

Inductive SortType :=
  name_asc | name_desc | date_asc | date_desc | size_asc | size_desc.

Module FileItem.
Record t := mk {
  id : string;
  handle : FileSystemFileHandle;
  originalName : string;
  size : N;
  lastModified : Z;
  type : string;
  customBaseName : string;
  prefix : string;
  suffix : string;
  extension : string;
  status : Status;
  errorMessage : option string
}.

#[global] Instance eq_dec : EqDecision t.
Proof. solve_decision. Defined.

(** [{ ...f, customBaseName: v }] *)
Definition with_customBaseName (v : string) (f : t) : t :=
  mk (id f) (handle f) (originalName f) (size f) (lastModified f) (type f)
     v (prefix f) (suffix f) (extension f) (status f) (errorMessage f).

(** [{ ...f, status: s }] *)
Definition with_status (s : Status) (f : t) : t :=
  mk (id f) (handle f) (originalName f) (size f) (lastModified f) (type f)
     (customBaseName f) (prefix f) (suffix f) (extension f) s (errorMessage f).

(** [{ ...f, status: s, errorMessage: m }] *)
Definition with_status_message (s : Status) (m : string) (f : t) : t :=
  mk (id f) (handle f) (originalName f) (size f) (lastModified f) (type f)
     (customBaseName f) (prefix f) (suffix f) (extension f) s (Some m).
End FileItem.

Module GlobalConfig.
Record t := mk {
  prefix : string;
  suffix : string;
  extension : string;
  overwrite : bool;
  find : string;
  replace : string
}.

Definition with_extension (e : string) (c : t) : t :=
  mk (prefix c) (suffix c) e (overwrite c) (find c) (replace c).
End GlobalConfig.

Module FilterState.
Record t := mk {
  search : string;
  dateStart : string;
  dateEnd : string;
  (** in KB *)
  minSize : Z;
  sort : SortType;
  (** [None] is the empty field ['']; the [NaN] that [parseInt] may
      yield is a number that is not [> 0] and acts like it *)
  limit : option Z
}.

Definition with_limit (l : option Z) (s : t) : t :=
  mk (search s) (dateStart s) (dateEnd s) (minSize s) (sort s) l.
End FilterState.

(** ** [fileUtils.ts] *)

(** [filename.slice((filename.lastIndexOf(".") - 1 >>> 0) + 2)] *)
Definition getExtension (filename : string) : string :=
  JS.slice filename (JS.toUint32 (JS.lastIndexOf filename "." - 1) + 2).

Definition getBaseName (filename : string) : string :=
  let lastDot := JS.lastIndexOf filename "." in
  if lastDot =? -1 then filename else JS.substring filename 0 lastDot.

(** ** The directory scan, common to the revisions of [App] *)

(** What [getFile()] reports about an entry at scan time. *)
Record File := {
  file_name : string;
  file_size : N;
  file_lastModified : Z;
  file_type : string
}.

(** An entry met while enumerating the source directory; [uuid] is the
    value [crypto.randomUUID()] returns for it. *)
Inductive Entry :=
  | EntryFile (h : FileSystemFileHandle) (file : File) (uuid : string)
  | EntryDirectory.

(** The loop of [scanFiles]: one pending item per entry of kind ['file']. *)
Fixpoint scanEntries (entries : list Entry) : list FileItem.t :=
  match entries with
  | [] => []
  | EntryFile h file uuid :: rest =>
      FileItem.mk uuid h (file_name file) (file_size file)
        (file_lastModified file) (file_type file)
        (getBaseName (file_name file))
        EmptyString EmptyString (getExtension (file_name file))
        pending None
      :: scanEntries rest
  | EntryDirectory :: rest => scanEntries rest
  end.

(** [scanFiles]: [entries] is what the enumeration yields, [None] when it
    throws; then the catch leaves the collection as it was. *)
Definition scanFiles (files : list FileItem.t) (entries : option (list Entry))
  : list FileItem.t :=
  match entries with
  | Some es => scanEntries es
  | None => files
  end.

(** Inline edits of the table: [prev.map(i => i.id === f.id ? {...i, field: v} : i)]. *)
Inductive Field := FPrefix | FCustomBaseName | FSuffix | FExtension.

Definition setField (fld : Field) (v : string) (i : FileItem.t) : FileItem.t :=
  let 'FileItem.mk a b c d e g cbn p s x st m := i in
  match fld with
  | FPrefix => FileItem.mk a b c d e g cbn v s x st m
  | FCustomBaseName => FileItem.mk a b c d e g v p s x st m
  | FSuffix => FileItem.mk a b c d e g cbn p v x st m
  | FExtension => FileItem.mk a b c d e g cbn p s v st m
  end.

Definition editField (fld : Field) (target : string) (v : string)
  (prev : list FileItem.t) : list FileItem.t :=
  (fun i => if String.eqb (FileItem.id i) target then setField fld v i else i) <$> prev.

(** [l.findIndex(x => x.id === id)] *)
Definition indexById (id : string) (l : list FileItem.t) : option nat :=
  JS.findIndex (fun x => String.eqb (FileItem.id x) id) l.

(** [applyPastedNames], the same in every revision: [filteredFiles] is the
    visible set of the render in which the button was pressed. *)
Definition pastedLines (pastedNames : string) : list string :=
  filter (fun n => JS.trim n <> EmptyString) (JS.split pastedNames (String "010"%char EmptyString)).

Definition applyPastedNames (pastedNames : string)
  (filteredFiles prev : list FileItem.t) : list FileItem.t :=
  let names := pastedLines pastedNames in
  (fun f =>
     match indexById (FileItem.id f) filteredFiles with
     | Some idxInView =>
         match names !! idxInView with
         | Some n => if JS.truthy n then FileItem.with_customBaseName (JS.trim n) f else f
         | None => f
         end
     | None => f
     end) <$> prev.

(** ** Filtering and ordering, shared by the revisions of [App] *)

Section Clauses.
Context `{JS.Runtime}.

(** [f.originalName.toLowerCase().includes(filters.search.toLowerCase())] *)
Definition matchesSearch (filters : FilterState.t) (f : FileItem.t) : bool :=
  JS.includes (JS.toLowerCase (FileItem.originalName f))
              (JS.toLowerCase (FilterState.search filters)).

(** [f.size >= filters.minSize * 1024] *)
Definition matchesSize (filters : FilterState.t) (f : FileItem.t) : bool :=
  FilterState.minSize filters * 1024 <=? Z.of_N (FileItem.size f).

(** [filters.dateStart ? new Date(filters.dateStart + 'T00:00:00') : null];
    the outer [None] is [null]. *)
Definition startDate (filters : FilterState.t) : option (option Z) :=
  if JS.truthy (FilterState.dateStart filters)
  then Some (JS.parseDate (FilterState.dateStart filters +:+ "T00:00:00"))
  else None.

Definition endDate (filters : FilterState.t) : option (option Z) :=
  if JS.truthy (FilterState.dateEnd filters)
  then Some (JS.parseDate (FilterState.dateEnd filters +:+ "T23:59:59"))
  else None.

(** [(!start || fileDate >= start) && (!end || fileDate <= end)], with
    [fileDate = new Date(f.lastModified)]. *)
Definition matchesDate (filters : FilterState.t) (f : FileItem.t) : bool :=
  let fileDate := JS.newDate (FileItem.lastModified f) in
  match startDate filters with
  | None => true
  | Some start => JS.date_ge fileDate start
  end
  &&
  match endDate filters with
  | None => true
  | Some end_ => JS.date_le fileDate end_
  end.

(** The comparator handed to [result.sort]. *)
Definition compareBy (sort : SortType) (a b : FileItem.t) : Z :=
  match sort with
  | name_asc => JS.localeCompare (FileItem.originalName a) (FileItem.originalName b)
  | name_desc => JS.localeCompare (FileItem.originalName b) (FileItem.originalName a)
  | date_asc => FileItem.lastModified a - FileItem.lastModified b
  | date_desc => FileItem.lastModified b - FileItem.lastModified a
  | size_asc => Z.of_N (FileItem.size a) - Z.of_N (FileItem.size b)
  | size_desc => Z.of_N (FileItem.size b) - Z.of_N (FileItem.size a)
  end.
End Clauses.

(** ** The batch copy: capabilities, machine state and its monad *)

(** What the executor does to the outside, in order. *)
Inductive Event :=
  | SetFiles (files : list FileItem.t)
  | SetIsProcessing (b : bool)
  | SetShowConfirm (b : bool)
  | GetFile (h : FileSystemFileHandle)
  | GetFileHandle (name : string) (create : bool)
  | WriteClose (name : string) (data : Blob).

(** How the capabilities answer during one run: [getFile_result] is what
    reading a source file yields ([inl] the message of the rejection),
    [create_fault] the rejection of [getFileHandle(name, {create: true})],
    [write_fault] the rejection of [createWritable], [write] or [close]. *)
Record Capabilities := {
  getFile_result : FileSystemFileHandle -> string + Blob;
  create_fault : string -> option string;
  write_fault : string -> option string
}.

(** The local array [updatedFiles], the destination directory and the
    journal of events. *)
Record Machine := {
  updatedFiles : list FileItem.t;
  directory : gmap string Blob;
  journal : list Event
}.

Inductive Exception := Err (message : string).

Definition message_of (e : Exception) : string := let 'Err m := e in m.

Definition M (A : Type) : Type := Machine -> (Exception + A) * Machine.

#[global] Instance M_ret : MRet M := fun A (a : A) m => (inr a, m).

#[global] Instance M_bind : MBind M := fun A B (k : A -> M B) (c : M A) m =>
  match c m with
  | (inl e, m') => (inl e, m')
  | (inr a, m') => k a m'
  end.

(** [try { body } catch (err) { handler }] *)
Definition try_catch {A} (body : M A) (handler : Exception -> M A) : M A :=
  fun m =>
    match body m with
    | (inl e, m') => handler e m'
    | (inr a, m') => (inr a, m')
    end.

Definition emit (ev : Event) : M unit :=
  fun m => (inr tt, Build_Machine (updatedFiles m) (directory m) (journal m ++ [ev])).

(** [const updatedFiles = [...files]] *)
Definition declare_updatedFiles (files : list FileItem.t) : M unit :=
  fun m => (inr tt, Build_Machine files (directory m) (journal m)).

(** [updatedFiles.findIndex(uf => uf.id === id)] *)
Definition findIndexById (id : string) : M (option nat) :=
  fun m => (inr (indexById id (updatedFiles m)), m).

(** [updatedFiles[idx] = { ...updatedFiles[idx], ... }].  For [idx = -1]
    the assignment creates a property that is no element of the array,
    and the elements stay as they are. *)
Definition assignAt (idx : option nat) (change : FileItem.t -> FileItem.t)
  (l : list FileItem.t) : list FileItem.t :=
  match idx with
  | Some i => alter change i l
  | None => l
  end.

Definition assign (idx : option nat) (change : FileItem.t -> FileItem.t) : M unit :=
  fun m =>
    (inr tt, Build_Machine (assignAt idx change (updatedFiles m)) (directory m) (journal m)).

(** [setFiles([...updatedFiles])] *)
Definition publish : M unit :=
  fun m => emit (SetFiles (updatedFiles m)) m.

(** [await f.handle.getFile()] *)
Definition getFile (caps : Capabilities) (h : FileSystemFileHandle) : M Blob :=
  fun m =>
    let m' := Build_Machine (updatedFiles m) (directory m) (journal m ++ [GetFile h]) in
    match getFile_result caps h with
    | inl msg => (inl (Err msg), m')
    | inr data => (inr data, m')
    end.

(** [await destHandle.getFileHandle(name, { create })].  Without
    [create] it resolves exactly when the entry exists; with [create] an
    absent entry is created empty. *)
Definition getFileHandle (caps : Capabilities) (name : string) (create : bool) : M unit :=
  fun m =>
    let j := journal m ++ [GetFileHandle name create] in
    if create then
      match create_fault caps name with
      | Some msg => (inl (Err msg), Build_Machine (updatedFiles m) (directory m) j)
      | None =>
          (inr tt,
           Build_Machine (updatedFiles m)
             match directory m !! name with
             | Some _ => directory m
             | None => <[name := []]> (directory m)
             end
             j)
      end
    else
      match directory m !! name with
      | Some _ => (inr tt, Build_Machine (updatedFiles m) (directory m) j)
      | None => (inl (Err "NotFoundError"), Build_Machine (updatedFiles m) (directory m) j)
      end.

(** [createWritable()], [write(sourceFile)] and [close()] on the handle
    of [name]: the data reach the entry when [close] resolves, and a
    rejection of any of the three leaves the entry as it was. *)
Definition writeClose (caps : Capabilities) (name : string) (data : Blob) : M unit :=
  fun m =>
    match write_fault caps name with
    | Some msg => (inl (Err msg), m)
    | None =>
        (inr tt,
         Build_Machine (updatedFiles m) (<[name := data]> (directory m))
           (journal m ++ [WriteClose name data]))
    end.

(** [for (const x of l) { body }] *)
Fixpoint forEach {A} (l : list A) (body : A -> M unit) : M unit :=
  match l with
  | [] => mret tt
  | x :: l' => body x ;; forEach l' body
  end.

(** ** [App], the revision with find/replace and the row limit *)

Module App.
Section WithRuntime.
Context `{JS.Runtime}.

Definition filteredFiles (files : list FileItem.t) (filters : FilterState.t)
  : list FileItem.t :=
  let result :=
    filter (fun f => matchesSearch filters f && matchesDate filters f) files in
  let result := JS.sort (compareBy (FilterState.sort filters)) result in
  match FilterState.limit filters with
  | Some n => if 0 <? n then take (Z.to_nat n) result else result
  | None => result
  end.
End WithRuntime.

Definition getFinalName (globalConfig : GlobalConfig.t) (f : FileItem.t) : string :=
  let prefix := JS.or (FileItem.prefix f) (GlobalConfig.prefix globalConfig) in
  let suffix := JS.or (FileItem.suffix f) (GlobalConfig.suffix globalConfig) in
  let ext := JS.or (JS.or (FileItem.extension f) (GlobalConfig.extension globalConfig))
                   (getExtension (FileItem.originalName f)) in
  let base := FileItem.customBaseName f in
  let base :=
    if negb (String.eqb (GlobalConfig.find globalConfig) EmptyString)
    then JS.join (JS.split base (GlobalConfig.find globalConfig))
                 (GlobalConfig.replace globalConfig)
    else base in
  let dot := if JS.truthy ext && negb (JS.startsWith ext ".") then "." else EmptyString in
  prefix +:+ base +:+ suffix +:+ dot +:+ ext.

(** The body of the loop of [executeBatch]. *)
Definition copyItem (caps : Capabilities) (globalConfig : GlobalConfig.t)
  (f : FileItem.t) : M unit :=
  idx ← findIndexById (FileItem.id f);
  assign idx (FileItem.with_status processing);;
  publish;;
  try_catch
    (let finalName := getFinalName globalConfig f in
     sourceFile ← getFile caps (FileItem.handle f);
     getFileHandle caps finalName true;;
     writeClose caps finalName sourceFile;;
     assign idx (FileItem.with_status success))
    (fun err =>
       assign idx (FileItem.with_status_message error (message_of err)));;
  publish.

Definition executeBatch (caps : Capabilities) (globalConfig : GlobalConfig.t)
  (destHandle : option FileSystemDirectoryHandle)
  (files filteredFiles : list FileItem.t) : M unit :=
  match destHandle with
  | None => mret tt
  | Some _ =>
      emit (SetIsProcessing true);;
      emit (SetShowConfirm false);;
      declare_updatedFiles files;;
      forEach filteredFiles (copyItem caps globalConfig);;
      emit (SetIsProcessing false)
  end.
End App.

(** ** [AppCollision], the revision with the size filter and the collision check *)

Module AppCollision.
Section WithRuntime.
Context `{JS.Runtime}.

Definition filteredFiles (files : list FileItem.t) (filters : FilterState.t)
  : list FileItem.t :=
  let result :=
    filter (fun f => matchesSearch filters f && matchesSize filters f
                     && matchesDate filters f) files in
  JS.sort (compareBy (FilterState.sort filters)) result.
End WithRuntime.

Definition getFinalName (globalConfig : GlobalConfig.t) (f : FileItem.t) : string :=
  let prefix := JS.or (FileItem.prefix f) (GlobalConfig.prefix globalConfig) in
  let suffix := JS.or (FileItem.suffix f) (GlobalConfig.suffix globalConfig) in
  let ext := JS.or (JS.or (FileItem.extension f) (GlobalConfig.extension globalConfig))
                   (getExtension (FileItem.originalName f)) in
  let dot := if JS.truthy ext && negb (JS.startsWith ext ".") then "." else EmptyString in
  prefix +:+ FileItem.customBaseName f +:+ suffix +:+ dot +:+ ext.

(** The inner [try] of the loop; its value is the variable [skip]. *)
Definition collisionCheck (caps : Capabilities) (globalConfig : GlobalConfig.t)
  (idx : option nat) (finalName : string) : M bool :=
  try_catch
    (getFileHandle caps finalName false;;
     if negb (GlobalConfig.overwrite globalConfig)
     then assign idx (FileItem.with_status_message skipped "Ya existe");; mret true
     else mret false)
    (fun _ => mret false).

Definition copyItem (caps : Capabilities) (globalConfig : GlobalConfig.t)
  (f : FileItem.t) : M unit :=
  idx ← findIndexById (FileItem.id f);
  assign idx (FileItem.with_status processing);;
  publish;;
  try_catch
    (let finalName := getFinalName globalConfig f in
     sourceFile ← getFile caps (FileItem.handle f);
     skip ← collisionCheck caps globalConfig idx finalName;
     if negb skip
     then
       getFileHandle caps finalName true;;
       writeClose caps finalName sourceFile;;
       assign idx (FileItem.with_status success)
     else mret tt)
    (fun err =>
       assign idx (FileItem.with_status_message error (message_of err)));;
  publish.

Definition executeBatch (caps : Capabilities) (globalConfig : GlobalConfig.t)
  (destHandle : option FileSystemDirectoryHandle)
  (files filteredFiles : list FileItem.t) : M unit :=
  match destHandle with
  | None => mret tt
  | Some _ =>
      emit (SetIsProcessing true);;
      emit (SetShowConfirm false);;
      declare_updatedFiles files;;
      forEach filteredFiles (copyItem caps globalConfig);;
      emit (SetIsProcessing false)
  end.
End AppCollision.

(** ** A host for running the definitions

    Lower case over the ASCII letters, comparison by code units and the
    time zone UTC. *)

Module Host.
Definition lowerChar (c : ascii) : ascii :=
  let n := nat_of_ascii c in
  if ((65 <=? n)%nat && (n <=? 90)%nat)%bool then ascii_of_nat (n + 32) else c.

Fixpoint toLowerCase (s : string) : string :=
  match s with
  | EmptyString => EmptyString
  | String c s' => String (lowerChar c) (toLowerCase s')
  end.

Definition localeCompare (a b : string) : Z :=
  match String.compare a b with
  | Eq => 0
  | Lt => -1
  | Gt => 1
  end.

Definition digit (c : ascii) : option Z :=
  let n := nat_of_ascii c in
  if ((48 <=? n)%nat && (n <=? 57)%nat)%bool then Some (Z.of_nat n - 48) else None.

(** The number written by a string of decimal digits. *)
Fixpoint number_from (acc : Z) (s : string) : option Z :=
  match s with
  | EmptyString => Some acc
  | String c s' => d ← digit c; number_from (acc * 10 + d) s'
  end.

Definition number (s : string) : option Z :=
  match s with
  | EmptyString => None
  | String _ _ => number_from 0 s
  end.

(** Days from 1970-01-01 to the given day of the proleptic Gregorian
    calendar. *)
Definition daysFromCivil (y m d : Z) : Z :=
  let y' := if m <=? 2 then y - 1 else y in
  let era := y' / 400 in
  let yoe := y' - era * 400 in
  let mp := (m + 9) mod 12 in
  let doy := (153 * mp + 2) / 5 + d - 1 in
  let doe := yoe * 365 + yoe / 4 - yoe / 100 + doy in
  era * 146097 + doe - 719468.

Definition isLeap (y : Z) : bool :=
  ((y mod 4 =? 0) && negb (y mod 100 =? 0)) || (y mod 400 =? 0).

Definition daysInMonth (y m : Z) : Z :=
  if m =? 2 then (if isLeap y then 29 else 28)
  else if (m =? 4) || (m =? 6) || (m =? 9) || (m =? 11) then 30 else 31.

(** [YYYY-MM-DDTHH:MM:SS] to milliseconds since the epoch. *)
Definition parseDate (text : string) : option Z :=
  if negb (Nat.eqb (String.length text) 19) then None
  else if negb (String.eqb (String.substring 4 1 text) "-"
                && String.eqb (String.substring 7 1 text) "-"
                && String.eqb (String.substring 10 1 text) "T"
                && String.eqb (String.substring 13 1 text) ":"
                && String.eqb (String.substring 16 1 text) ":") then None
  else
    y ← number (String.substring 0 4 text);
    mo ← number (String.substring 5 2 text);
    d ← number (String.substring 8 2 text);
    h ← number (String.substring 11 2 text);
    mi ← number (String.substring 14 2 text);
    s ← number (String.substring 17 2 text);
    if (1 <=? mo) && (mo <=? 12) && (1 <=? d) && (d <=? daysInMonth y mo)
       && (h <=? 23) && (mi <=? 59) && (s <=? 59)
    then Some ((((daysFromCivil y mo d * 24 + h) * 60 + mi) * 60 + s) * 1000)
    else None.
End Host.

#[global] Instance host : JS.Runtime.
Proof.
  refine {|
    JS.toLowerCase := Host.toLowerCase;
    JS.localeCompare := Host.localeCompare;
    JS.parseDate := Host.parseDate
  |}.
  - reflexivity.
  - intros a b. unfold Host.localeCompare.
    rewrite (String.compare_antisym b a).
    by destruct (String.compare a b).
Defined.

(** ** Reference notions used to state the properties *)

(** [ReplacedAll find rep s out]: [out] is [s] with every occurrence of
    [find], taken from the left and without overlap, replaced by [rep]. *)
Inductive ReplacedAll (find rep : string) : string -> string -> Prop :=
  | RA_end : ReplacedAll find rep EmptyString EmptyString
  | RA_hit rest out :
      find <> EmptyString ->
      ReplacedAll find rep rest out ->
      ReplacedAll find rep (find +:+ rest) (rep +:+ out)
  | RA_pass c s out :
      String.prefix find (String c s) = false ->
      ReplacedAll find rep s out ->
      ReplacedAll find rep (String c s) (String c out).

(** [a] stands somewhere before [b] in [l]. *)
Definition before {A} (a b : A) (l : list A) : Prop := [a; b] `sublist_of` l.

(** [p] is the position at which [findIndex] meets the identifier: the
    first position of [visible] that holds an item with it. *)
Definition positionOf (id : string) (visible : list FileItem.t) (p : nat) : Prop :=
  (exists v, visible !! p = Some v /\ FileItem.id v = id) /\
  forall q v, (q < p)%nat -> visible !! q = Some v -> FileItem.id v <> id.

(** An item without its status and message. *)
Definition core (f : FileItem.t) : FileItem.t :=
  FileItem.mk (FileItem.id f) (FileItem.handle f) (FileItem.originalName f)
    (FileItem.size f) (FileItem.lastModified f) (FileItem.type f)
    (FileItem.customBaseName f) (FileItem.prefix f) (FileItem.suffix f)
    (FileItem.extension f) pending None.

(** The item of a collection that carries an identifier. *)
Definition entry (id : string) (l : list FileItem.t) : option FileItem.t :=
  i ← indexById id l; l !! i.

(** The machine a computation leaves behind. *)
Definition after {A} (c : M A) (m : Machine) : Machine := (c m).2.

(** The source files read and the collections published, in order. *)
Definition reads (j : list Event) : list FileSystemFileHandle :=
  omap (fun ev => match ev with GetFile h => Some h | _ => None end) j.

Definition published (j : list Event) : list (list FileItem.t) :=
  omap (fun ev => match ev with SetFiles l => Some l | _ => None end) j.

(** How the copy of one item ends. *)
Inductive Verdict :=
  | Succeeded
  | Failed (msg : string)
  | Skipped (msg : string).

Definition settle (v : Verdict) : FileItem.t -> FileItem.t :=
  match v with
  | Succeeded => FileItem.with_status success
  | Failed msg => FileItem.with_status_message error msg
  | Skipped msg => FileItem.with_status_message skipped msg
  end.

(** The message of the first rejection among the reads and writes that
    copy [source] to [name], if any of them is rejected. *)
Definition failure (caps : Capabilities) (source : FileSystemFileHandle)
  (name : string) : option string :=
  match getFile_result caps source with
  | inl msg => Some msg
  | inr _ =>
      match create_fault caps name with
      | Some msg => Some msg
      | None => write_fault caps name
      end
  end.

Definition verdict_of_failure (o : option string) : Verdict :=
  match o with
  | Some msg => Failed msg
  | None => Succeeded
  end.

(** The verdict of the revision with the collision check, for an item
    met while the destination directory is [dir]. *)
Definition collisionVerdict (caps : Capabilities) (overwrite : bool)
  (dir : gmap string Blob) (source : FileSystemFileHandle) (name : string) : Verdict :=
  match getFile_result caps source with
  | inl msg => Failed msg
  | inr _ =>
      match dir !! name with
      | Some _ =>
          if overwrite then verdict_of_failure (failure caps source name)
          else Skipped "Ya existe"
      | None => verdict_of_failure (failure caps source name)
      end
  end.

(** ** Sample data *)

Module Sample.
Definition a : FileItem.t :=
  FileItem.mk "id-a" (FileHandle 1) "a.txt" 10 1000 "text/plain"
    "a" EmptyString EmptyString "txt" pending None.
Definition b : FileItem.t :=
  FileItem.mk "id-b" (FileHandle 2) "b.txt" 20 1000 "text/plain"
    "b" EmptyString EmptyString "txt" pending None.
Definition c : FileItem.t :=
  FileItem.mk "id-c" (FileHandle 3) "c.png" 30 3000 "image/png"
    "c" EmptyString EmptyString "png" pending None.

Definition files : list FileItem.t := [a; b; c].

Definition entries : list Entry :=
  [ EntryFile (FileHandle 1) (Build_File "a.txt" 10 1000 "text/plain") "id-a";
    EntryDirectory;
    EntryFile (FileHandle 2) (Build_File "b.txt" 20 1000 "text/plain") "id-b";
    EntryFile (FileHandle 3) (Build_File "c.png" 30 3000 "image/png") "id-c" ].

Definition globalConfig : GlobalConfig.t := GlobalConfig.mk EmptyString EmptyString EmptyString false EmptyString EmptyString.

Definition filters : FilterState.t := FilterState.mk EmptyString EmptyString EmptyString 0 date_asc None.

Definition destination : FileSystemDirectoryHandle := DirectoryHandle 0.

Definition content (h : FileSystemFileHandle) : Blob :=
  let 'FileHandle n := h in [Byte.x2a; default Byte.x00 (Byte.of_nat n)].

(** Every read and every write goes through. *)
Definition sound : Capabilities :=
  Build_Capabilities (fun h => inr (content h)) (fun _ => None) (fun _ => None).

(** The source of [b] cannot be read. *)
Definition unreadable_b : Capabilities :=
  Build_Capabilities
    (fun h => if decide (h = FileHandle 2) then inl "NotReadableError" else inr (content h))
    (fun _ => None) (fun _ => None).

(** An empty destination, and one that already holds [a.txt] and [b.txt]. *)
Definition fresh : Machine := Build_Machine [] ∅ [].
Definition taken : Machine :=
  Build_Machine [] {[ "a.txt" := [Byte.x00]; "b.txt" := [Byte.x00] ]} [].

(** A run of [App] in which [b] cannot be read, and a second run, over
    the visible set of the collection it left, in which all goes well. *)
Definition first_run : Machine :=
  after (App.executeBatch unreadable_b globalConfig (Some destination) files
           (App.filteredFiles files filters)) fresh.

Definition second_run : Machine :=
  after (App.executeBatch sound globalConfig (Some destination)
           (updatedFiles first_run)
           (App.filteredFiles (updatedFiles first_run) filters)) first_run.

(** Runs against the destination that holds [a.txt] and [b.txt]: with
    the collision check, and without. *)
Definition checked_run : Machine :=
  after (AppCollision.executeBatch unreadable_b globalConfig (Some destination)
           files [a; b]) taken.

Definition unchecked_run : Machine :=
  after (App.executeBatch sound globalConfig (Some destination) files [a]) taken.

(** Two runs of [AppCollision] over the visible set, the second over
    the visible set of the collection the first one left. *)
Definition visible : list FileItem.t := AppCollision.filteredFiles files filters.

Definition collision_first : Machine :=
  after (AppCollision.executeBatch sound globalConfig (Some destination)
           files visible) taken.

Definition visible_again : list FileItem.t :=
  AppCollision.filteredFiles (updatedFiles collision_first) filters.

Definition collision_second : Machine :=
  after (AppCollision.executeBatch sound globalConfig (Some destination)
           (updatedFiles collision_first) visible_again) collision_first.

(** Five files of which three match the search text, shown two at a time. *)
Definition five : list FileItem.t :=
  [ FileItem.mk "1" (FileHandle 1) "holiday-3.jpg" 300 30 "image/jpeg"
      "holiday-3" EmptyString EmptyString "jpg" pending None;
    FileItem.mk "2" (FileHandle 2) "notes.txt" 5 20 "text/plain"
      "notes" EmptyString EmptyString "txt" pending None;
    FileItem.mk "3" (FileHandle 3) "Holiday-1.jpg" 100 10 "image/jpeg"
      "Holiday-1" EmptyString EmptyString "jpg" pending None;
    FileItem.mk "4" (FileHandle 4) "todo.md" 7 40 "text/markdown"
      "todo" EmptyString EmptyString "md" pending None;
    FileItem.mk "5" (FileHandle 5) "holiday-2.jpg" 200 50 "image/jpeg"
      "holiday-2" EmptyString EmptyString "jpg" pending None ].

Definition two_holidays : FilterState.t :=
  FilterState.mk "HOLIDAY" EmptyString EmptyString 0 size_asc (Some 2).

Definition five_run : Machine :=
  after (App.executeBatch sound globalConfig (Some destination) five
           (App.filteredFiles five two_holidays)) fresh.
End Sample.

(** ** [App], the revision without sorting *)

Module AppPlain.
Section WithRuntime.
Context `{JS.Runtime}.

Definition filteredFiles (files : list FileItem.t) (filters : FilterState.t)
  : list FileItem.t :=
  filter (fun f => matchesSearch filters f && matchesSize filters f
                   && matchesDate filters f) files.
End WithRuntime.

(** [`${prefix}${f.customBaseName}${suffix}${ext ? '.' + ext : ''}`] *)
Definition getFinalName (globalConfig : GlobalConfig.t) (f : FileItem.t) : string :=
  let prefix := JS.or (FileItem.prefix f) (GlobalConfig.prefix globalConfig) in
  let suffix := JS.or (FileItem.suffix f) (GlobalConfig.suffix globalConfig) in
  let ext := JS.or (JS.or (FileItem.extension f) (GlobalConfig.extension globalConfig))
                   (getExtension (FileItem.originalName f)) in
  prefix +:+ FileItem.customBaseName f +:+ suffix
  +:+ (if JS.truthy ext then "." +:+ ext else EmptyString).

(** The inner [try] of the loop; its value is the variable [skip]. *)
Definition collisionCheck (caps : Capabilities) (globalConfig : GlobalConfig.t)
  (idx : option nat) (finalName : string) : M bool :=
  try_catch
    (getFileHandle caps finalName false;;
     if negb (GlobalConfig.overwrite globalConfig)
     then assign idx (FileItem.with_status_message skipped "Ya existe");; mret true
     else mret false)
    (fun _ => mret false).

Definition copyItem (caps : Capabilities) (globalConfig : GlobalConfig.t)
  (f : FileItem.t) : M unit :=
  idx ← findIndexById (FileItem.id f);
  assign idx (FileItem.with_status processing);;
  publish;;
  try_catch
    (let finalName := getFinalName globalConfig f in
     sourceFile ← getFile caps (FileItem.handle f);
     skip ← collisionCheck caps globalConfig idx finalName;
     if negb skip
     then
       getFileHandle caps finalName true;;
       writeClose caps finalName sourceFile;;
       assign idx (FileItem.with_status success)
     else mret tt)
    (fun err =>
       assign idx (FileItem.with_status_message error (message_of err)));;
  publish.

Definition executeBatch (caps : Capabilities) (globalConfig : GlobalConfig.t)
  (destHandle : option FileSystemDirectoryHandle)
  (files filteredFiles : list FileItem.t) : M unit :=
  match destHandle with
  | None => mret tt
  | Some _ =>
      emit (SetIsProcessing true);;
      emit (SetShowConfirm false);;
      declare_updatedFiles files;;
      forEach filteredFiles (copyItem caps globalConfig);;
      emit (SetIsProcessing false)
  end.
End AppPlain.

(** ** Handlers and counters of the page *)

(** [s.replace(pat, rep)] with a text as pattern and a replacement that
    holds no [$]: the first occurrence is replaced. *)
Fixpoint replaceFirst (s pat rep : string) : string :=
  if String.prefix pat s then rep +:+ JS.drop (String.length pat) s
  else match s with
       | EmptyString => EmptyString
       | String c s' => String c (replaceFirst s' pat rep)
       end.

(** The field of the global extension, in [AppCollision] and [AppPlain]:
    [({...prev, extension: e.target.value.replace('.', '')})]. *)
Definition setGlobalExtension (value : string) (prev : GlobalConfig.t) : GlobalConfig.t :=
  GlobalConfig.with_extension (replaceFirst value "." EmptyString) prev.

(** [files.filter(f => f.status === s).length]: the counters OK and ERR. *)
Definition countStatus (s : Status) (files : list FileItem.t) : nat :=
  length (filter (fun f => FileItem.status f = s) files).

(** [files.filter(f => f.status === 'success' || f.status === 'error').length]:
    the numerator of the progress of [App]. *)
Definition progressDone (files : list FileItem.t) : nat :=
  length (filter (fun f => FileItem.status f = success \/ FileItem.status f = error) files).

(** [files.filter(f => f.status !== 'pending' && f.status !== 'processing').length]:
    the numerator of the progress of [AppCollision]. *)
Definition progressSettled (files : list FileItem.t) : nat :=
  length (filter (fun f => FileItem.status f <> pending /\ FileItem.status f <> processing)
            files).

(** ** Further reference notions *)

(** The text holds no dot. *)
Definition dotless (s : string) : Prop := JS.includes s "." = false.

(** The destination after [getFileHandle(name, {create: true})] and the
    write of [data], under the faults of the capabilities. *)
Definition written (caps : Capabilities) (name : string) (data : Blob)
  (dir : gmap string Blob) : gmap string Blob :=
  match create_fault caps name with
  | Some _ => dir
  | None =>
      let created :=
        match dir !! name with
        | Some _ => dir
        | None => <[name := []]> dir
        end in
      match write_fault caps name with
      | Some _ => created
      | None => <[name := data]> created
      end
  end.

(** Every item of the list stands in [R] to every later one. *)
Definition ordered {A} (R : A -> A -> Prop) (l : list A) : Prop :=
  forall i j x y, (i < j)%nat -> l !! i = Some x -> l !! j = Some y -> R x y.

(** The comparator arranges the items of [l] consistently: of two items
    one sorts before the other, and sorting before is transitive. *)
Definition consistent {A} (cmp : A -> A -> Z) (l : list A) : Prop :=
  Forall (fun a =>
    Forall (fun b =>
      (0 < cmp a b -> cmp b a <= 0) /\
      Forall (fun c => cmp a b <= 0 -> cmp b c <= 0 -> cmp a c <= 0) l) l) l.

(** The visible set, as each revision computes it. *)
Definition views `{JS.Runtime}
  : list (list FileItem.t -> FilterState.t -> list FileItem.t) :=
  [App.filteredFiles; AppCollision.filteredFiles; AppPlain.filteredFiles].

(** What neither the page nor a batch ever changes in an item. *)
Definition stamp (f : FileItem.t)
  : string * FileSystemFileHandle * string * N * Z * string :=
  (FileItem.id f, FileItem.handle f, FileItem.originalName f,
   FileItem.size f, FileItem.lastModified f, FileItem.type f).

(** A configuration that adds nothing to a name. *)
Definition neutral (globalConfig : GlobalConfig.t) : Prop :=
  GlobalConfig.prefix globalConfig = EmptyString /\ GlobalConfig.suffix globalConfig = EmptyString /\
  GlobalConfig.extension globalConfig = EmptyString.

(** ** Further sample data *)

Module Cases.
(** A directory with a hidden file, a name without a dot, one with two
    dots and one that ends in a dot. *)
Definition entries : list Entry :=
  [ EntryFile (FileHandle 1) (Build_File ".gitignore" 12 1000 EmptyString) "id-1";
    EntryFile (FileHandle 2) (Build_File "Makefile" 340 2000 EmptyString) "id-2";
    EntryFile (FileHandle 3) (Build_File "archive.tar.gz" 5000 3000 "application/gzip") "id-3";
    EntryFile (FileHandle 4) (Build_File "notes." 7 4000 EmptyString) "id-4" ].

Definition files : list FileItem.t := scanEntries entries.

Definition hidden : FileItem.t :=
  FileItem.mk "id-1" (FileHandle 1) ".gitignore" 12 1000 EmptyString
    EmptyString EmptyString EmptyString EmptyString pending None.
Definition plain : FileItem.t :=
  FileItem.mk "id-2" (FileHandle 2) "Makefile" 340 2000 EmptyString
    "Makefile" EmptyString EmptyString EmptyString pending None.
Definition archive : FileItem.t :=
  FileItem.mk "id-3" (FileHandle 3) "archive.tar.gz" 5000 3000 "application/gzip"
    "archive.tar" EmptyString EmptyString "gz" pending None.
Definition dotted : FileItem.t :=
  FileItem.mk "id-4" (FileHandle 4) "notes." 7 4000 EmptyString
    "notes" EmptyString EmptyString EmptyString pending None.

(** The largest of the holidays of [Sample.five], a filter that asks
    for a kilobyte at least, and a file dated past the last date there
    is, with a filter from the second day of 1970 on. *)
Definition holiday3 : FileItem.t :=
  FileItem.mk "1" (FileHandle 1) "holiday-3.jpg" 300 30 "image/jpeg"
    "holiday-3" EmptyString EmptyString "jpg" pending None.

Definition large_holidays : FilterState.t :=
  FilterState.mk "HOLIDAY" EmptyString EmptyString 1 size_asc None.

Definition far_future : FileItem.t :=
  FileItem.mk "9" (FileHandle 9) "late.txt" 1 8640000000000001 "text/plain"
    "late" EmptyString EmptyString "txt" pending None.

Definition from_day_two : FilterState.t :=
  FilterState.mk EmptyString "1970-01-02" EmptyString 0 name_asc None.

(** The configuration of the samples, with overwriting switched on. *)
Definition overwriting : GlobalConfig.t := GlobalConfig.mk EmptyString EmptyString EmptyString true EmptyString EmptyString.

(** A find text that the base names of the samples do not hold. *)
Definition finding : GlobalConfig.t := GlobalConfig.mk EmptyString EmptyString EmptyString false "zz" "y".

Definition by_name : FilterState.t := FilterState.mk EmptyString EmptyString EmptyString 0 name_asc None.
Definition by_size : FilterState.t := FilterState.mk EmptyString EmptyString EmptyString 0 size_desc None.

(** Three lines, of which the second is blank. *)
Definition pasted : string :=
  String " " (String "x" (String " " (String "010" (String " " (String "010" "y"))))).

(** A name that does and one that does not end in a dot, which leave
    the same final name. *)
Definition first_twin : FileItem.t :=
  FileItem.mk "t1" (FileHandle 1) "a" 1 1 EmptyString "a" EmptyString EmptyString EmptyString pending None.
Definition second_twin : FileItem.t :=
  FileItem.mk "t2" (FileHandle 2) "a." 2 2 EmptyString "a" EmptyString EmptyString EmptyString pending None.
Definition twins : list FileItem.t := [first_twin; second_twin].

(** A destination that already holds an entry under the name [a]. *)
Definition occupied : Machine := Build_Machine [] {[ "a" := [Byte.x00] ]} [].
End Cases.

(** * Properties *)

(** ** Strings *)

Section StringFacts.
Implicit Types s t p : string.

Lemma append_cons c s t : String c s +:+ t = String c (s +:+ t).
Proof. reflexivity. Qed.

Lemma append_nil_l s : EmptyString +:+ s = s.
Proof. reflexivity. Qed.

Lemma append_nil_r s : s +:+ EmptyString = s.
Proof. induction s as [|c s IH]; [done | by rewrite append_cons, IH]. Qed.

Lemma append_assoc s t u : (s +:+ t) +:+ u = s +:+ t +:+ u.
Proof. induction s as [|c s IH]; [done | by rewrite !append_cons, IH]. Qed.

Lemma prefix_drop p s :
  String.prefix p s = true -> s = p +:+ JS.drop (String.length p) s.
Proof.
  revert s; induction p as [|c p IH]; intros [|d s]; simpl; try done.
  destruct (ascii_dec c d) as [->|]; [|done].
  intros Hp. by rewrite append_cons, <- (IH s Hp).
Qed.

Lemma prefix_append p s : String.prefix p (p +:+ s) = true.
Proof.
  induction p as [|c p IH]; [by destruct s|].
  rewrite append_cons; simpl. destruct (ascii_dec c c); [done | congruence].
Qed.

Lemma drop_append p s : JS.drop (String.length p) (p +:+ s) = s.
Proof. induction p as [|c p IH]; [by destruct s | by rewrite append_cons]. Qed.

Lemma drop_length_le n s : (String.length (JS.drop n s) <= String.length s)%nat.
Proof.
  revert s; induction n as [|n IH]; intros [|c s]; simpl; try lia.
  specialize (IH s). lia.
Qed.

Lemma split_aux_skip sep s k :
  JS.split_aux sep s k = JS.split_aux sep (JS.drop k s) 0 \/
  (String.length s < k)%nat.
Proof.
  revert k; induction s as [|c s IH]; intros [|k]; simpl; auto; try (right; lia).
  destruct (IH k) as [->|]; [by left | right; lia].
Qed.

Lemma split_aux_nonempty sep s k : JS.split_aux sep s k <> [].
Proof.
  revert k; induction s as [|c s IH]; intros k; cbn [JS.split_aux]; [done|].
  destruct k; [|apply IH].
  destruct (String.prefix sep (String c s)); [done|].
  by destruct (JS.split_aux sep s 0).
Qed.

Lemma join_cons_nonempty x l sep :
  l <> [] -> JS.join (x :: l) sep = x +:+ sep +:+ JS.join l sep.
Proof. destruct l; [done | reflexivity]. Qed.

Lemma join_cons_head c h (l : list string) sep :
  JS.join (String c h :: l) sep = String c (JS.join (h :: l) sep).
Proof. destruct l; reflexivity. Qed.

Lemma split_join_replaced find rep s :
  find <> EmptyString ->
  ReplacedAll find rep s (JS.join (JS.split_aux find s 0) rep).
Proof.
  intros Hne.
  remember (String.length s) as n eqn:Hn.
  revert s Hn. induction (lt_wf n) as [n _ IH]. intros s ->.
  destruct s as [|c s]; [constructor|].
  cbn [JS.split_aux].
  destruct (String.prefix find (String c s)) eqn:Hp.
  - pose proof (prefix_drop _ _ Hp) as Hs.
    destruct find as [|d find']; [done|].
    assert (c = d) as ->.
    { simpl in Hp. by destruct (ascii_dec d c). }
    cbn [String.length Nat.sub]. rewrite Nat.sub_0_r.
    rewrite append_cons in Hs; simpl in Hs. injection Hs as Hs.
    destruct (split_aux_skip (String d find') s (String.length find')) as [->|Hlt].
    2:{ apply (f_equal String.length) in Hs.
        rewrite Hs in Hlt. exfalso. revert Hlt. clear.
        generalize (JS.drop (String.length find') s) as r.
        induction find' as [|e f IH]; simpl; intros r; [lia|].
        intros H. apply (IH r). lia. }
    rewrite (join_cons_nonempty _ _ _ (split_aux_nonempty _ _ _)).
    rewrite append_nil_l. rewrite Hs at 1. rewrite <- append_cons.
    constructor; [done|].
    eapply IH; [|done].
    pose proof (drop_length_le (String.length find') s). simpl. lia.
  - pose proof (split_aux_nonempty find s 0) as Hnil.
    destruct (JS.split_aux find s 0) as [|h t] eqn:Hsp; [done|].
    rewrite join_cons_head. constructor; [done|].
    rewrite <- Hsp. eapply IH; [|done]. simpl; lia.
Qed.

Lemma ReplacedAll_functional find rep s o1 o2 :
  find <> EmptyString ->
  ReplacedAll find rep s o1 -> ReplacedAll find rep s o2 -> o1 = o2.
Proof.
  intros Hne H1. revert o2.
  induction H1 as [|rest out _ H1 IH|c s out Hp H1 IH]; intros o2 H2.
  - inversion H2 as [|rest' out' _ H' Heq|]; subst; [done|].
    destruct find; [done | discriminate].
  - inversion H2 as [Heq|rest' out' _ H' Heq|c s out' Hp H' Heq]; subst.
    + destruct find; [done | discriminate].
    + assert (rest' = rest) as ->.
      { apply (f_equal (JS.drop (String.length find))) in Heq.
        by rewrite !drop_append in Heq. }
      f_equal. by apply IH.
    + by rewrite Heq, prefix_append in Hp.
  - inversion H2 as [|rest' out' _ H' Heq|c' s' out' Hp' H' Heq]; subst.
    + by rewrite <- Heq, prefix_append in Hp.
    + f_equal. by apply IH.
Qed.
End StringFacts.

Section NameDerivation.
Lemma or_spec a b : JS.or a b = if decide (a = EmptyString) then b else a.
Proof. by destruct a. Qed.

Lemma startsWith_dot c e :
  JS.startsWith (String c e) "." = if decide (c = "."%char) then true else false.
Proof.
  unfold JS.startsWith.
  change (String.prefix "." (String c e))
    with (if ascii_dec "." c then String.prefix EmptyString e else false).
  destruct (ascii_dec "." c) as [<-|Hc]; case_decide; try congruence.
  all: by destruct e.
Qed.

(** C1. The final name of an item is its effective prefix, its base, its
  effective suffix, a dot and its effective extension, in this order.
  The effective prefix is the prefix of the item when that is not empty
  and the global prefix otherwise, and likewise for the suffix; the
  effective extension is the extension of the item when not empty,
  else the global extension when not empty, else the extension of the
  original name.  The base is the custom base name, in which, when the
  find text is not empty, every occurrence of it (taken from the left,
  without overlap, as a literal text) is replaced by the replacement.
  The dot is there exactly when the effective extension is not empty
  and does not start with a dot. *)
Theorem getFinalName_layers (f : FileItem.t) (globalConfig : GlobalConfig.t) :
  let effectivePrefix :=
    if decide (FileItem.prefix f = EmptyString)
    then GlobalConfig.prefix globalConfig else FileItem.prefix f in
  let effectiveSuffix :=
    if decide (FileItem.suffix f = EmptyString)
    then GlobalConfig.suffix globalConfig else FileItem.suffix f in
  let effectiveExtension :=
    if decide (FileItem.extension f = EmptyString)
    then if decide (GlobalConfig.extension globalConfig = EmptyString)
         then getExtension (FileItem.originalName f)
         else GlobalConfig.extension globalConfig
    else FileItem.extension f in
  let dot :=
    match effectiveExtension with
    | EmptyString => EmptyString
    | String c _ => if decide (c = "."%char) then EmptyString else "."
    end in
  exists base,
    (GlobalConfig.find globalConfig = EmptyString -> base = FileItem.customBaseName f) /\
    (GlobalConfig.find globalConfig <> EmptyString ->
     ReplacedAll (GlobalConfig.find globalConfig) (GlobalConfig.replace globalConfig)
       (FileItem.customBaseName f) base) /\
    App.getFinalName globalConfig f
    = effectivePrefix +:+ base +:+ effectiveSuffix +:+ dot +:+ effectiveExtension.
Proof.
  intros. unfold App.getFinalName.
  set (base := if negb _ then _ else _).
  exists base. split_and!.
  - intros Hf. subst base. by rewrite Hf.
  - intros Hf. subst base.
    destruct (GlobalConfig.find globalConfig) as [|c find'] eqn:E; [done|].
    cbn [String.eqb negb JS.split]. by apply split_join_replaced.
  - rewrite !or_spec. fold effectivePrefix effectiveSuffix.
    replace (if decide (_ = EmptyString) then getExtension _ else _) with effectiveExtension.
    2:{ subst effectiveExtension. repeat case_decide; congruence. }
    do 3 f_equal.
    destruct effectiveExtension as [|c e]; [done|].
    subst dot. rewrite startsWith_dot. cbn [JS.truthy andb].
    by repeat case_decide.
Qed.
End NameDerivation.

Example getFinalName_global_defaults :
  App.getFinalName (GlobalConfig.mk "IMG_" "_v1" "png" false EmptyString EmptyString)
    (FileItem.mk "1" (FileHandle 0) "report" 0 0 EmptyString "report" EmptyString EmptyString EmptyString pending None)
  = "IMG_report_v1.png".
Proof. reflexivity. Qed.

Example getFinalName_replaces_every_occurrence :
  App.getFinalName (GlobalConfig.mk EmptyString EmptyString EmptyString false "draft" "final")
    (FileItem.mk "1" (FileHandle 0) "draft_report_draft.txt" 0 0 EmptyString "draft_report_draft" EmptyString EmptyString "txt" pending None)
  = "final_report_final.txt".
Proof. reflexivity. Qed.

(** ** Sorting *)

Section SortFacts.
Context {A : Type} (cmp : A -> A -> Z).
Implicit Types l : list A.

Lemma insert_sorted_split x l :
  exists l1 l2,
    l = l1 ++ l2 /\ JS.insert_sorted cmp x l = l1 ++ x :: l2 /\
    Forall (fun y => 0 < cmp x y) l1.
Proof.
  induction l as [|y l IH]; simpl.
  - by exists [], [].
  - destruct (0 <? cmp x y) eqn:E.
    + destruct IH as (l1 & l2 & -> & -> & HF).
      exists (y :: l1), l2. split_and!; [done..|].
      constructor; [lia | done].
    + by exists [], (y :: l).
Qed.

Lemma insert_sorted_perm x l : JS.insert_sorted cmp x l ≡ₚ x :: l.
Proof.
  destruct (insert_sorted_split x l) as (l1 & l2 & -> & -> & _).
  by rewrite Permutation_middle.
Qed.

Lemma sort_perm l : JS.sort cmp l ≡ₚ l.
Proof.
  induction l as [|x l IH]; simpl; [done|].
  by rewrite insert_sorted_perm, IH.
Qed.

Lemma elem_of_sort x l : x ∈ JS.sort cmp l <-> x ∈ l.
Proof. by rewrite sort_perm. Qed.

Lemma sort_NoDup l : NoDup l -> NoDup (JS.sort cmp l).
Proof. by rewrite sort_perm. Qed.

(** Insertion keeps the order of the elements already there. *)
Lemma insert_sorted_sublist x l : l `sublist_of` JS.insert_sorted cmp x l.
Proof.
  destruct (insert_sorted_split x l) as (l1 & l2 & -> & -> & _).
  apply sublist_app; [done|]. by apply sublist_cons.
Qed.

(** The inserted element lands before every element it ties with. *)
Lemma insert_sorted_before_tie x b l :
  b ∈ l -> cmp x b = 0 -> before x b (JS.insert_sorted cmp x l).
Proof.
  intros Hb Htie.
  destruct (insert_sorted_split x l) as (l1 & l2 & -> & -> & HF).
  apply elem_of_app in Hb as [Hb|Hb].
  - rewrite Forall_forall in HF. specialize (HF _ Hb). lia.
  - unfold before. apply sublist_inserts_l. apply sublist_skip.
    by apply singleton_sublist_l.
Qed.

Lemma before_cons_inv a b x l :
  before a b (x :: l) -> (a = x /\ b ∈ l) \/ before a b l.
Proof.
  unfold before. intros H.
  apply sublist_cons_r in H as [H|(l' & Heq & H)]; [by right|].
  simplify_eq. left. split; [done|]. by apply singleton_sublist_l.
Qed.

(** Stability: two elements that tie keep their order. *)
Lemma sort_keeps_ties a b l :
  cmp a b = 0 -> before a b l -> before a b (JS.sort cmp l).
Proof.
  intros Htie. induction l as [|x l IH]; intros H; simpl.
  - unfold before in H. by apply sublist_nil_r in H.
  - apply before_cons_inv in H as [[-> Hb]|H].
    + apply insert_sorted_before_tie; [|done]. by apply elem_of_sort.
    + unfold before. etrans; [apply IH, H|]. apply insert_sorted_sublist.
Qed.
End SortFacts.

Section OrderFacts.
Context {A : Type}.
Implicit Types l : list A.

Lemma before_elem_of a b l : before a b l -> a ∈ l /\ b ∈ l.
Proof.
  intros H. split; eapply elem_of_sublist; [| apply H | | apply H]; set_solver.
Qed.

Lemma before_NoDup_ne a b l : NoDup l -> before a b l -> a <> b.
Proof.
  intros Hnd H. eapply sublist_NoDup in Hnd; [|apply H].
  apply NoDup_cons in Hnd as [Hnd _]. set_solver.
Qed.

(** In a list without repetition two distinct members stand in one order. *)
Lemma before_total a b l :
  a ∈ l -> b ∈ l -> a <> b -> before a b l \/ before b a l.
Proof.
  intros Ha Hb Hne. induction l as [|x l IH]; [by apply elem_of_nil in Ha|].
  apply elem_of_cons in Ha as [->|Ha]; apply elem_of_cons in Hb as [->|Hb].
  - done.
  - left. apply sublist_skip. by apply singleton_sublist_l.
  - right. apply sublist_skip. by apply singleton_sublist_l.
  - destruct (IH Ha Hb); [left | right]; by apply sublist_cons.
Qed.

Lemma before_asym a b l : NoDup l -> before a b l -> before b a l -> False.
Proof.
  intros Hnd. induction Hnd as [|x l Hx Hnd IH]; intros H1 H2.
  - unfold before in H1. by apply sublist_nil_r in H1.
  - apply before_cons_inv in H1 as [[-> Hb]|H1];
      apply before_cons_inv in H2 as [[-> Ha]|H2]; try done.
    + apply before_elem_of in H2 as [_ ?]. done.
    + apply before_elem_of in H1 as [_ ?]. done.
    + by apply IH.
Qed.

Lemma sublist_filter_mono (P : A -> Prop) `{!forall x, Decision (P x)} l1 l2 :
  l1 `sublist_of` l2 -> filter P l1 `sublist_of` filter P l2.
Proof.
  induction 1 as [|x l1 l2 Hs IH|x l1 l2 Hs IH].
  - done.
  - rewrite !filter_cons. case_decide; [by apply sublist_skip | done].
  - rewrite filter_cons. case_decide; [by apply sublist_cons | done].
Qed.

Lemma before_filter (P : A -> Prop) `{!forall x, Decision (P x)} a b l :
  P a -> P b -> before a b l -> before a b (filter P l).
Proof.
  intros Ha Hb Hs. apply (sublist_filter_mono P) in Hs.
  rewrite !filter_cons, filter_nil in Hs. by rewrite !decide_True in Hs.
Qed.

Lemma before_take n a b l :
  NoDup l -> a ∈ take n l -> b ∈ take n l -> before a b l -> before a b (take n l).
Proof.
  intros Hnd Ha Hb Hs. rewrite <- (take_drop n l) in Hs, Hnd.
  unfold before in *.
  apply sublist_app_r in Hs as (k1 & k2 & Hk & H1 & H2).
  destruct k2 as [|y k2].
  - rewrite app_nil_r in Hk. by subst.
  - assert (b ∈ drop n l) as Hb'.
    { eapply elem_of_sublist; [|apply H2].
      destruct k1 as [|? [|? [|]]]; simplify_eq/=; set_solver. }
    apply NoDup_app in Hnd as (_ & Hdisj & _). by destruct (Hdisj b).
Qed.
End OrderFacts.

(** ** The visible set *)

(** The clauses of the filter, as they read on the page. *)
Local Abbreviation searchClause filters f :=
  (FilterState.search filters = EmptyString \/
   exists pre post,
     JS.toLowerCase (FileItem.originalName f)
     = pre +:+ JS.toLowerCase (FilterState.search filters) +:+ post).

Local Abbreviation sizeClause filters f :=
  (FilterState.minSize filters = 0 \/
   FilterState.minSize filters * 1024 <= Z.of_N (FileItem.size f)).

Local Abbreviation dateClause filters f :=
  ((FilterState.dateStart filters = EmptyString \/
    exists start,
      JS.parseDate (FilterState.dateStart filters +:+ "T00:00:00") = Some start /\
      Z.abs (FileItem.lastModified f) <= 8640000000000000 /\
      start <= FileItem.lastModified f) /\
   (FilterState.dateEnd filters = EmptyString \/
    exists end_,
      JS.parseDate (FilterState.dateEnd filters +:+ "T23:59:59") = Some end_ /\
      Z.abs (FileItem.lastModified f) <= 8640000000000000 /\
      FileItem.lastModified f <= end_)).

Section VisibleSet.
Context `{JS.Runtime}.
Implicit Types (files : list FileItem.t) (filters : FilterState.t) (f a b : FileItem.t).

Lemma includes_spec s t :
  JS.includes s t = true <-> exists pre post, s = pre +:+ t +:+ post.
Proof.
  induction s as [|c s IH].
  - simpl. rewrite orb_false_r. split.
    + intros Hp. exists EmptyString, EmptyString. destruct t; [done | discriminate].
    + intros (pre & post & Heq). destruct pre; [|discriminate].
      rewrite append_nil_l in Heq. by destruct t.
  - cbn [JS.includes]. rewrite orb_true_iff, IH. split.
    + intros [Hp|(pre & post & ->)].
      * exists EmptyString, (JS.drop (String.length t) (String c s)).
        rewrite append_nil_l. by apply prefix_drop.
      * by exists (String c pre), post.
    + intros (pre & post & Heq). destruct pre as [|d pre].
      * left. rewrite append_nil_l in Heq. rewrite Heq. apply prefix_append.
      * right. rewrite append_cons in Heq. injection Heq as -> ->. eauto.
Qed.

Lemma truthy_spec s : JS.truthy s = false <-> s = EmptyString.
Proof. by destruct s. Qed.

Lemma matchesSearch_spec filters f :
  matchesSearch filters f <->
  FilterState.search filters = EmptyString \/
  exists pre post,
    JS.toLowerCase (FileItem.originalName f)
    = pre +:+ JS.toLowerCase (FilterState.search filters) +:+ post.
Proof.
  unfold matchesSearch. rewrite Is_true_true, includes_spec. split; [by right|].
  intros [Hs|?]; [|done].
  rewrite Hs, JS.toLowerCase_empty. by exists EmptyString, (JS.toLowerCase (FileItem.originalName f)).
Qed.

Lemma matchesSize_spec filters f :
  matchesSize filters f <->
  FilterState.minSize filters = 0 \/
  FilterState.minSize filters * 1024 <= Z.of_N (FileItem.size f).
Proof. unfold matchesSize. rewrite Is_true_true, Z.leb_le. lia. Qed.

Lemma matchesDate_spec filters f : matchesDate filters f <-> dateClause filters f.
Proof.
  unfold matchesDate, startDate, endDate, JS.newDate. rewrite andb_True.
  f_equiv.
  - destruct (FilterState.dateStart filters) as [|c s]; cbn [JS.truthy].
    { split; [by left | done]. }
    destruct (Z.abs _ <=? _) eqn:Hr;
      [apply Z.leb_le in Hr | apply Z.leb_gt in Hr];
      destruct (JS.parseDate _) as [start|]; cbn [JS.date_ge].
    + rewrite Is_true_true, Z.leb_le. split; [eauto|].
      by intros [|(? & [= <-] & _ & ?)].
    + split; [done|]. by intros [|(? & ? & ?)].
    + split; [done|]. intros [|(? & _ & ? & _)]; [done|lia].
    + split; [done|]. by intros [|(? & ? & ?)].
  - destruct (FilterState.dateEnd filters) as [|c s]; cbn [JS.truthy].
    { split; [by left | done]. }
    destruct (Z.abs _ <=? _) eqn:Hr;
      [apply Z.leb_le in Hr | apply Z.leb_gt in Hr];
      destruct (JS.parseDate _) as [end_|]; cbn [JS.date_le].
    + rewrite Is_true_true, Z.leb_le. split; [eauto|].
      by intros [|(? & [= <-] & _ & ?)].
    + split; [done|]. by intros [|(? & ? & ?)].
    + split; [done|]. intros [|(? & _ & ? & _)]; [done|lia].
    + split; [done|]. by intros [|(? & ? & ?)].
Qed.

Lemma App_unbounded files filters :
  FilterState.limit filters = None \/
  (exists n, FilterState.limit filters = Some n /\ n <= 0) ->
  App.filteredFiles files filters
  = JS.sort (compareBy (FilterState.sort filters))
      (filter (fun f => matchesSearch filters f && matchesDate filters f) files).
Proof.
  unfold App.filteredFiles. intros [->|(n & -> & Hn)]; [done|].
  by rewrite (proj2 (Z.ltb_ge 0 n) Hn).
Qed.

Lemma App_bounded files filters n :
  FilterState.limit filters = Some n -> 0 < n ->
  App.filteredFiles files filters
  = take (Z.to_nat n)
      (JS.sort (compareBy (FilterState.sort filters))
         (filter (fun f => matchesSearch filters f && matchesDate filters f) files)).
Proof.
  unfold App.filteredFiles. intros -> Hn. by rewrite (proj2 (Z.ltb_lt 0 n) Hn).
Qed.

Lemma App_passing files filters f :
  f ∈ JS.sort (compareBy (FilterState.sort filters))
        (filter (fun f => matchesSearch filters f && matchesDate filters f) files)
  <-> f ∈ files /\ searchClause filters f /\ dateClause filters f.
Proof.
  rewrite elem_of_sort, list_elem_of_filter, andb_True.
  rewrite matchesSearch_spec, matchesDate_spec. tauto.
Qed.

(** C4, amended.  In the revision with the three clauses, an item is in
  the visible set if and only if it is in the collection and passes
  every clause: the lower-cased search text occurs in its lower-cased
  original name; its size in bytes is at least [minSize] times 1024;
  its time stamp is not before [dateStart] at 00:00:00 and not after
  [dateEnd] at 23:59:59, where a bound that is set admits only the time
  stamps within the range of dates (8.64e15 milliseconds on either side
  of the epoch) and a bound that does not parse admits none.  A clause
  whose input is empty (the search text, a date) or zero (the size)
  holds for every item.  The revision with the limit has no size
  clause: without a limit, or with one that is zero or negative, an
  item is in its visible set if and only if it is in the collection and
  passes the search and the date clause; with a limit [n > 0] the
  visible set holds the first [n] items of the visible set without
  limit, and every item of it passes those two clauses. *)
Theorem filteredFiles_membership files filters f :
  (f ∈ AppCollision.filteredFiles files filters <->
   f ∈ files /\ searchClause filters f /\ sizeClause filters f /\ dateClause filters f) /\
  (FilterState.limit filters = None \/
   (exists n, FilterState.limit filters = Some n /\ n <= 0) ->
   f ∈ App.filteredFiles files filters <->
   f ∈ files /\ searchClause filters f /\ dateClause filters f) /\
  (forall n, FilterState.limit filters = Some n -> 0 < n ->
     (f ∈ App.filteredFiles files filters <->
      f ∈ take (Z.to_nat n)
            (App.filteredFiles files (FilterState.with_limit None filters))) /\
     (f ∈ App.filteredFiles files filters ->
      f ∈ files /\ searchClause filters f /\ dateClause filters f)).
Proof.
  split_and!.
  - unfold AppCollision.filteredFiles.
    rewrite elem_of_sort, list_elem_of_filter, !andb_True.
    rewrite matchesSearch_spec, matchesSize_spec, matchesDate_spec. tauto.
  - intros Hl. rewrite (App_unbounded files filters Hl). apply App_passing.
  - intros n Hl Hn. rewrite (App_bounded files filters n Hl Hn).
    rewrite (App_unbounded files (FilterState.with_limit None filters)) by (by left).
    split; [done|]. intros Hf%subseteq_take. by apply App_passing.
Qed.

Lemma compareBy_tie_sym sort a b : compareBy sort a b = 0 -> compareBy sort b a = 0.
Proof. destruct sort; simpl; try lia; apply JS.localeCompare_tie_sym. Qed.

Lemma App_filteredFiles_take files filters :
  exists n,
    App.filteredFiles files filters
    = take n (App.filteredFiles files (FilterState.with_limit None filters)).
Proof.
  unfold App.filteredFiles. cbn.
  destruct (FilterState.limit filters) as [n|].
  - destruct (0 <? n); [by eexists|]. eexists. by rewrite firstn_all.
  - eexists. by rewrite firstn_all.
Qed.

Lemma App_filteredFiles_NoDup files filters :
  NoDup files -> NoDup (App.filteredFiles files filters).
Proof.
  intros Hnd. destruct (App_filteredFiles_take files filters) as [n ->].
  eapply sublist_NoDup; [|apply sublist_take].
  unfold App.filteredFiles. cbn. by apply sort_NoDup, NoDup_filter.
Qed.

Lemma App_filteredFiles_before files filters a b :
  NoDup files ->
  a ∈ App.filteredFiles files filters -> b ∈ App.filteredFiles files filters ->
  compareBy (FilterState.sort filters) a b = 0 ->
  before a b files -> before a b (App.filteredFiles files filters).
Proof.
  intros Hnd. destruct (App_filteredFiles_take files filters) as [n ->].
  unfold App.filteredFiles. cbn. intros Ha Hb Htie Hbefore.
  pose proof (subseteq_take n _ _ Ha) as Ha'.
  pose proof (subseteq_take n _ _ Hb) as Hb'.
  rewrite elem_of_sort, list_elem_of_filter in Ha', Hb'.
  apply before_take; [by apply sort_NoDup, NoDup_filter | done..|].
  apply sort_keeps_ties; [done|].
  apply before_filter; [apply Ha' | apply Hb' | done].
Qed.

(** C8. The sort of the visible set is stable: of two items of the
  visible set that the comparator of the chosen sort key ties, one
  stands before the other in the visible set if and only if it does in
  the collection (whose identifiers are distinct). *)
Theorem filteredFiles_sort_stable files filters a b :
  NoDup (FileItem.id <$> files) ->
  a ∈ App.filteredFiles files filters ->
  b ∈ App.filteredFiles files filters ->
  compareBy (FilterState.sort filters) a b = 0 ->
  before a b (App.filteredFiles files filters) <-> before a b files.
Proof.
  intros Hids Ha Hb Htie. apply NoDup_fmap_1 in Hids as Hnd.
  split; [|by apply App_filteredFiles_before].
  intros Hvis.
  pose proof (App_filteredFiles_NoDup files filters Hnd) as Hndv.
  pose proof (before_NoDup_ne _ _ _ Hndv Hvis) as Hne.
  assert (forall x, x ∈ App.filteredFiles files filters -> x ∈ files) as Hin.
  { intros x. destruct (App_filteredFiles_take files filters) as [n ->].
    intros Hx%subseteq_take. unfold App.filteredFiles in Hx. cbn in Hx.
    rewrite elem_of_sort, list_elem_of_filter in Hx. apply Hx. }
  destruct (before_total a b files) as [|Hrev]; [by apply Hin..|done|done|].
  exfalso. apply (before_asym a b _ Hndv Hvis).
  apply App_filteredFiles_before; [done..| |done].
  by apply compareBy_tie_sym.
Qed.

End VisibleSet.

(** The claim as it stands fails where the code has a limit, where it
    has no size clause, and for a time stamp out of the range of dates. *)
Lemma membership_fails_by_limit_size_and_range :
  (Cases.holiday3 ∈ Sample.five /\
   searchClause Sample.two_holidays Cases.holiday3 /\
   sizeClause Sample.two_holidays Cases.holiday3 /\
   (FilterState.dateStart Sample.two_holidays = EmptyString /\
    FilterState.dateEnd Sample.two_holidays = EmptyString) /\
   Cases.holiday3 ∉ App.filteredFiles Sample.five Sample.two_holidays) /\
  (Cases.holiday3 ∈ App.filteredFiles Sample.five Cases.large_holidays /\
   ~ sizeClause Cases.large_holidays Cases.holiday3) /\
  (Cases.far_future ∈ [Cases.far_future] /\
   searchClause Cases.from_day_two Cases.far_future /\
   sizeClause Cases.from_day_two Cases.far_future /\
   (exists start,
      JS.parseDate (FilterState.dateStart Cases.from_day_two +:+ "T00:00:00")
      = Some start /\
      start <= FileItem.lastModified Cases.far_future) /\
   FilterState.dateEnd Cases.from_day_two = EmptyString /\
   Cases.far_future ∉ AppCollision.filteredFiles [Cases.far_future] Cases.from_day_two).
Proof.
  split_and!.
  - compute_done.
  - right. by exists EmptyString, "-3.jpg".
  - by left.
  - done.
  - done.
  - compute_done.
  - compute_done.
  - intros [Hz|Hle]; [done|]. revert Hle. compute_done.
  - compute_done.
  - by left.
  - by left.
  - exists 86400000. split; compute_done.
  - done.
  - compute_done.
Qed.


(** ** Positions by identifier and assignments *)

Section FindIndex.
Context {A : Type} (p : A -> bool).

Lemma findIndex_Some (l : list A) i :
  JS.findIndex p l = Some i <->
  (exists x, l !! i = Some x /\ p x = true) /\
  forall j y, (j < i)%nat -> l !! j = Some y -> p y = false.
Proof.
  revert i. induction l as [|x l IH]; intros i; simpl.
  - split; [done|]. by intros [(? & ? & _) _].
  - destruct (p x) eqn:E.
    + split.
      * intros [= <-]. split; [by exists x|]. intros; lia.
      * intros [_ Hmin]. destruct i as [|i]; [done|].
        specialize (Hmin O x ltac:(lia) eq_refl). congruence.
    + destruct i as [|i].
      * split; [by destruct (JS.findIndex p l)|].
        intros [(y & [= <-] & Hp) _]. congruence.
      * split.
        -- destruct (JS.findIndex p l) as [j|] eqn:Ej; [|done].
           intros [= ->]. destruct (proj1 (IH i) eq_refl) as [Hx Hmin].
           split; [done|].
           intros [|j] y Hj; simpl; [by intros [= <-] | apply Hmin; lia].
        -- intros [Hx Hmin].
           rewrite (proj2 (IH i)); [done|]. split; [done|].
           intros j y Hj. apply (Hmin (S j)). lia.
Qed.

Lemma findIndex_None (l : list A) :
  JS.findIndex p l = None <-> forall x, x ∈ l -> p x = false.
Proof.
  induction l as [|x l IH]; simpl.
  - split; [|done]. intros _ x Hx. by apply elem_of_nil in Hx.
  - destruct (p x) eqn:E.
    + split; [done|]. intros Hall.
      specialize (Hall x ltac:(left)). congruence.
    + destruct (JS.findIndex p l); simpl.
      * split; [done|]. intros Hall.
        assert (@None nat = Some n) as Hn; [|done].
        symmetry. apply IH. intros y Hy. apply Hall. by right.
      * split; [|done]. intros _ y [->|Hy]%elem_of_cons; [done|].
        by apply IH.
Qed.
End FindIndex.

Section Indexing.
Implicit Types (l : list FileItem.t) (x f : FileItem.t) (k : string).

Lemma indexById_positionOf k l i : indexById k l = Some i <-> positionOf k l i.
Proof.
  unfold indexById, positionOf. rewrite findIndex_Some.
  f_equiv.
  - f_equiv. intros x. by rewrite String.eqb_eq.
  - do 4 (apply forall_proper; intros). by rewrite String.eqb_neq.
Qed.

Lemma indexById_None k l : indexById k l = None <-> k ∉ FileItem.id <$> l.
Proof.
  unfold indexById. rewrite findIndex_None, list_elem_of_fmap. split.
  - intros Hall (x & -> & Hx). specialize (Hall x Hx).
    by rewrite String.eqb_refl in Hall.
  - intros Hno x Hx. apply String.eqb_neq. intros <-. apply Hno. eauto.
Qed.

(** The position depends on the identifiers alone. *)
Lemma indexById_ids k l l' :
  FileItem.id <$> l = FileItem.id <$> l' -> indexById k l = indexById k l'.
Proof.
  revert l'. induction l as [|x l IH]; intros [|x' l'] [=]; [done|].
  unfold indexById in *. simpl. rewrite H0.
  destruct (String.eqb _ _); [done|]. f_equal. by apply IH.
Qed.

Lemma indexById_lookup k l i :
  indexById k l = Some i -> exists x, l !! i = Some x /\ FileItem.id x = k.
Proof. intros H. by apply indexById_positionOf in H as [? _]. Qed.

Lemma indexById_elem_of f l : f ∈ l -> is_Some (indexById (FileItem.id f) l).
Proof.
  intros Hf. destruct (indexById (FileItem.id f) l) eqn:E; [done|].
  apply indexById_None in E. destruct E. by apply list_elem_of_fmap_2.
Qed.

Lemma assignAt_fmap {B} (key : FileItem.t -> B) idx change l :
  (forall x, key (change x) = key x) ->
  key <$> assignAt idx change l = key <$> l.
Proof.
  intros Hk. destruct idx as [i|]; [|done]. simpl.
  apply list_eq. intros j. rewrite !list_lookup_fmap.
  destruct (decide (i = j)) as [->|Hne].
  - rewrite list_lookup_alter_eq. destruct (l !! j); simpl; [|done]. by rewrite Hk.
  - by rewrite list_lookup_alter_ne.
Qed.

Lemma assignAt_lookup_ne idx change l i :
  idx <> Some i -> assignAt idx change l !! i = l !! i.
Proof.
  intros Hne. destruct idx as [j|]; [|done]. simpl.
  apply list_lookup_alter_ne. congruence.
Qed.

Lemma assignAt_lookup_eq change l i :
  assignAt (Some i) change l !! i = change <$> l !! i.
Proof. apply list_lookup_alter_eq. Qed.

Lemma assignAt_assignAt idx g1 g2 l :
  assignAt idx g2 (assignAt idx g1 l) = assignAt idx (g2 ∘ g1) l.
Proof. destruct idx; [|done]. simpl. by rewrite list_alter_alter_eq. Qed.

Lemma assignAt_ext idx g1 g2 l :
  (forall x, g1 x = g2 x) -> assignAt idx g1 l = assignAt idx g2 l.
Proof. intros Hg. destruct idx; [|done]. simpl. by apply list_alter_ext. Qed.

Lemma settle_processing v x : settle v (FileItem.with_status processing x) = settle v x.
Proof. by destruct v. Qed.

Lemma settle_id v x : FileItem.id (settle v x) = FileItem.id x.
Proof. by destruct v. Qed.

Lemma settle_core v x : core (settle v x) = core x.
Proof. by destruct v. Qed.

Lemma settle_terminal v x : terminal (FileItem.status (settle v x)) = true.
Proof. by destruct v. Qed.
End Indexing.

(** ** The loop of the executor

    What follows holds for every body of the loop that marks the item as
    processing, reads its source once and settles it with a verdict; both
    revisions of [copyItem] are of this shape. *)

Section Loop.
Variable step : FileItem.t -> M unit.
Variable verdict : FileItem.t -> Machine -> Verdict.
Implicit Types (l : list FileItem.t) (x f : FileItem.t) (m : Machine).

Hypothesis step_shape : forall f m,
  exists dir' evs,
    step f m =
      (inr tt,
       Build_Machine
         (assignAt (indexById (FileItem.id f) (updatedFiles m))
            (settle (verdict f m)) (updatedFiles m))
         dir' (journal m ++ evs)) /\
    reads evs = [FileItem.handle f] /\
    published evs =
      [assignAt (indexById (FileItem.id f) (updatedFiles m))
         (FileItem.with_status processing) (updatedFiles m);
       assignAt (indexById (FileItem.id f) (updatedFiles m))
         (settle (verdict f m)) (updatedFiles m)].

Lemma step_ok f m : step f m = (inr tt, after (step f) m).
Proof. unfold after. by destruct (step_shape f m) as (? & ? & -> & _). Qed.

Lemma step_updated f m :
  updatedFiles (after (step f) m)
  = assignAt (indexById (FileItem.id f) (updatedFiles m))
      (settle (verdict f m)) (updatedFiles m).
Proof. unfold after. by destruct (step_shape f m) as (? & ? & -> & _). Qed.

Lemma step_journal f m :
  exists evs,
    journal (after (step f) m) = journal m ++ evs /\
    reads evs = [FileItem.handle f] /\
    published evs =
      [assignAt (indexById (FileItem.id f) (updatedFiles m))
         (FileItem.with_status processing) (updatedFiles m);
       assignAt (indexById (FileItem.id f) (updatedFiles m))
         (settle (verdict f m)) (updatedFiles m)].
Proof.
  unfold after. destruct (step_shape f m) as (? & evs & -> & ? & ?).
  by exists evs.
Qed.

Lemma step_key {B} (key : FileItem.t -> B) f m :
  (forall v x, key (settle v x) = key x) ->
  key <$> updatedFiles (after (step f) m) = key <$> updatedFiles m.
Proof. intros Hkey. rewrite step_updated. apply assignAt_fmap, Hkey. Qed.

Lemma step_ids f m :
  FileItem.id <$> updatedFiles (after (step f) m) = FileItem.id <$> updatedFiles m.
Proof. apply step_key, settle_id. Qed.

Lemma index_of_other f x l i :
  l !! i = Some x -> FileItem.id x <> FileItem.id f ->
  indexById (FileItem.id f) l <> Some i.
Proof.
  intros Hx Hne Hi. apply indexById_lookup in Hi as (y & Hy & Hid). congruence.
Qed.

Lemma step_frame f m i x :
  updatedFiles m !! i = Some x -> FileItem.id x <> FileItem.id f ->
  updatedFiles (after (step f) m) !! i = Some x.
Proof.
  intros Hx Hne. rewrite step_updated, assignAt_lookup_ne; [done|].
  by eapply index_of_other.
Qed.

Lemma forEach_cons f l m :
  forEach (f :: l) step m = forEach l step (after (step f) m).
Proof. simpl. unfold mbind, M_bind. by rewrite step_ok. Qed.

Lemma forEach_ok l m : forEach l step m = (inr tt, after (forEach l step) m).
Proof.
  revert m. induction l as [|f l IH]; intros m; [reflexivity|].
  unfold after. rewrite forEach_cons. apply IH.
Qed.

Lemma after_forEach_cons f l m :
  after (forEach (f :: l) step) m = after (forEach l step) (after (step f) m).
Proof. unfold after at 1. by rewrite forEach_cons. Qed.

Lemma after_forEach_app l1 l2 m :
  after (forEach (l1 ++ l2) step) m
  = after (forEach l2 step) (after (forEach l1 step) m).
Proof.
  revert m. induction l1 as [|f l1 IH]; intros m; [reflexivity|].
  by rewrite <- app_comm_cons, !after_forEach_cons, IH.
Qed.

(** A property of the machine that every turn keeps holds at the end. *)
Lemma forEach_invariant (Inv : Machine -> Prop) l m :
  (forall f m', f ∈ l -> Inv m' -> Inv (after (step f) m')) ->
  Inv m -> Inv (after (forEach l step) m).
Proof.
  revert m. induction l as [|f l IH]; intros m Hstep Hm; [done|].
  rewrite after_forEach_cons. apply IH.
  - intros g m' Hg. apply Hstep. by right.
  - apply Hstep; [by left | done].
Qed.

(** The loop changes nothing but status and message. *)
Lemma loop_key {B} (key : FileItem.t -> B) l m :
  (forall v x, key (settle v x) = key x) ->
  key <$> updatedFiles (after (forEach l step) m) = key <$> updatedFiles m.
Proof.
  intros Hkey.
  apply (forEach_invariant
           (fun m' => key <$> updatedFiles m' = key <$> updatedFiles m));
    [|done].
  intros f m' _ <-. by apply step_key.
Qed.

Lemma loop_ids l m :
  FileItem.id <$> updatedFiles (after (forEach l step) m)
  = FileItem.id <$> updatedFiles m.
Proof. apply loop_key, settle_id. Qed.

(** The loop never touches an item whose identifier is not iterated. *)
Lemma loop_frame l m i x :
  updatedFiles m !! i = Some x ->
  FileItem.id x ∉ FileItem.id <$> l ->
  updatedFiles (after (forEach l step) m) !! i = Some x.
Proof.
  intros Hx Hout.
  apply (forEach_invariant (fun m' => updatedFiles m' !! i = Some x)); [|done].
  intros f m' Hf Hx'. apply step_frame; [done|].
  intros Heq. apply Hout. rewrite Heq. by apply list_elem_of_fmap_2.
Qed.


(** The turn of an item: the machine [after (forEach l1 step) m] in
    which it is met decides its verdict, and nothing later changes it. *)
Lemma loop_turn l m f i x :
  NoDup (FileItem.id <$> l) -> f ∈ l ->
  indexById (FileItem.id f) (updatedFiles m) = Some i ->
  updatedFiles m !! i = Some x ->
  exists l1 l2,
    l = l1 ++ f :: l2 /\
    updatedFiles (after (forEach l step) m) !! i
    = Some (settle (verdict f (after (forEach l1 step) m)) x).
Proof.
  revert m. induction l as [|g l IH]; intros m Hnd Hf Hi Hx.
  - by apply elem_of_nil in Hf.
  - rewrite fmap_cons in Hnd. apply NoDup_cons in Hnd as [Hg Hnd].
    rewrite after_forEach_cons.
    destruct (decide (f = g)) as [<-|Hfg].
    + exists [], l. split; [done|].
      change (after (forEach [] step) m) with m.
      apply loop_frame.
      * by rewrite step_updated, Hi, assignAt_lookup_eq, Hx.
      * rewrite settle_id.
        apply indexById_lookup in Hi as (y & Hy & Hid). congruence.
    + apply elem_of_cons in Hf as [?|Hf]; [done|].
      assert (FileItem.id f <> FileItem.id g) as Hne.
      { intros Heq. apply Hg. rewrite <- Heq. by apply list_elem_of_fmap_2. }
      destruct (IH (after (step g) m)) as (l1 & l2 & -> & Hres); [done..| | |].
      * by rewrite (indexById_ids _ _ _ (step_ids g m)).
      * apply step_frame; [done|].
        apply indexById_lookup in Hi as (y & Hy & Hid). congruence.
      * exists (g :: l1), l2. split; [done|].
        by rewrite after_forEach_cons.
Qed.
End Loop.

(** ** The two bodies of the loop *)

Section Bodies.
Variables (caps : Capabilities) (globalConfig : GlobalConfig.t).
Implicit Types (f : FileItem.t) (m : Machine).

Local Ltac run_body :=
  unfold mbind, M_bind, mret, M_ret, try_catch, findIndexById, assign, publish,
    emit, getFile, getFileHandle, writeClose, message_of, after;
  cbn [updatedFiles directory journal fst snd].

Lemma assignAt_settled idx v (l : list FileItem.t) :
  assignAt idx (settle v) (assignAt idx (FileItem.with_status processing) l)
  = assignAt idx (settle v) l.
Proof.
  rewrite assignAt_assignAt. apply assignAt_ext. intros x. apply settle_processing.
Qed.

Lemma assignAt_success idx (l : list FileItem.t) :
  assignAt idx (FileItem.with_status success)
    (assignAt idx (FileItem.with_status processing) l)
  = assignAt idx (settle Succeeded) l.
Proof. apply (assignAt_settled idx Succeeded). Qed.

Lemma assignAt_error idx msg (l : list FileItem.t) :
  assignAt idx (FileItem.with_status_message error msg)
    (assignAt idx (FileItem.with_status processing) l)
  = assignAt idx (settle (Failed msg)) l.
Proof. apply (assignAt_settled idx (Failed msg)). Qed.

Lemma assignAt_skipped idx msg (l : list FileItem.t) :
  assignAt idx (FileItem.with_status_message skipped msg)
    (assignAt idx (FileItem.with_status processing) l)
  = assignAt idx (settle (Skipped msg)) l.
Proof. apply (assignAt_settled idx (Skipped msg)). Qed.

Local Ltac close_shape :=
  rewrite ?assignAt_success, ?assignAt_error, ?assignAt_skipped;
  rewrite <- ?app_assoc;
  do 2 eexists; split_and!; reflexivity.

Lemma App_copyItem_shape f m :
  exists dir' evs,
    App.copyItem caps globalConfig f m =
      (inr tt,
       Build_Machine
         (assignAt (indexById (FileItem.id f) (updatedFiles m))
            (settle (verdict_of_failure
                       (failure caps (FileItem.handle f)
                          (App.getFinalName globalConfig f))))
            (updatedFiles m))
         dir' (journal m ++ evs)) /\
    reads evs = [FileItem.handle f] /\
    published evs =
      [assignAt (indexById (FileItem.id f) (updatedFiles m))
         (FileItem.with_status processing) (updatedFiles m);
       assignAt (indexById (FileItem.id f) (updatedFiles m))
         (settle (verdict_of_failure
                    (failure caps (FileItem.handle f)
                       (App.getFinalName globalConfig f))))
         (updatedFiles m)].
Proof.
  unfold App.copyItem, failure. run_body.
  destruct (getFile_result caps (FileItem.handle f)) as [msg|data];
    cbn [updatedFiles directory journal fst snd verdict_of_failure].
  { close_shape. }
  destruct (create_fault caps _) as [msg|];
    cbn [updatedFiles directory journal fst snd verdict_of_failure].
  { close_shape. }
  destruct (write_fault caps _) as [msg|];
    cbn [updatedFiles directory journal fst snd verdict_of_failure].
  { close_shape. }
  close_shape.
Qed.

Lemma AppCollision_copyItem_shape f m :
  let name := AppCollision.getFinalName globalConfig f in
  let v := collisionVerdict caps (GlobalConfig.overwrite globalConfig)
             (directory m) (FileItem.handle f) name in
  exists dir' evs,
    AppCollision.copyItem caps globalConfig f m =
      (inr tt,
       Build_Machine
         (assignAt (indexById (FileItem.id f) (updatedFiles m)) (settle v)
            (updatedFiles m))
         dir' (journal m ++ evs)) /\
    reads evs = [FileItem.handle f] /\
    published evs =
      [assignAt (indexById (FileItem.id f) (updatedFiles m))
         (FileItem.with_status processing) (updatedFiles m);
       assignAt (indexById (FileItem.id f) (updatedFiles m)) (settle v)
         (updatedFiles m)] /\
    (forall k, is_Some (directory m !! k) -> is_Some (dir' !! k)) /\
    (GlobalConfig.overwrite globalConfig = false -> directory m ⊆ dir') /\
    (v = Succeeded -> is_Some (dir' !! name)) /\
    (forall msg, v = Skipped msg -> dir' = directory m).
Proof.
  intros name v. subst v.
  unfold AppCollision.copyItem, AppCollision.collisionCheck, collisionVerdict, failure.
  fold name. run_body.
  destruct (getFile_result caps (FileItem.handle f)) as [msg|data];
    cbn [updatedFiles directory journal fst snd verdict_of_failure].
  { rewrite ?assignAt_error, <- ?app_assoc.
    do 2 eexists; split_and!; try reflexivity; done. }
  destruct (directory m !! name) as [old|] eqn:Hdir;
    cbn [updatedFiles directory journal fst snd verdict_of_failure negb];
    [destruct (GlobalConfig.overwrite globalConfig) eqn:Hov;
     cbn [updatedFiles directory journal fst snd verdict_of_failure negb]|].
  all: try rewrite Hdir.
  all: try (destruct (create_fault caps name) as [msg|];
    cbn [updatedFiles directory journal fst snd verdict_of_failure];
    [|destruct (write_fault caps name) as [msg|];
      cbn [updatedFiles directory journal fst snd verdict_of_failure]]).
  all: try rewrite Hdir.
  all: cbn [updatedFiles directory journal fst snd verdict_of_failure negb].
  all: rewrite ?assignAt_success, ?assignAt_error, ?assignAt_skipped, <- ?app_assoc.
  all: do 2 eexists; split_and!; try reflexivity; try done.
  all: try (intros k Hk; rewrite ?lookup_insert_is_Some'; by auto).
  all: try (intros _; rewrite ?lookup_insert_is_Some'; by auto).
  all: try (intros _; repeat (etrans; [|apply insert_subseteq; by rewrite ?lookup_insert_ne]); done).
  intros _. rewrite insert_insert_eq. by apply insert_subseteq.
Qed.

Lemma AppCollision_copyItem_loop_shape f m :
  exists dir' evs,
    AppCollision.copyItem caps globalConfig f m =
      (inr tt,
       Build_Machine
         (assignAt (indexById (FileItem.id f) (updatedFiles m))
            (settle (collisionVerdict caps (GlobalConfig.overwrite globalConfig)
                       (directory m) (FileItem.handle f)
                       (AppCollision.getFinalName globalConfig f)))
            (updatedFiles m))
         dir' (journal m ++ evs)) /\
    reads evs = [FileItem.handle f] /\
    published evs =
      [assignAt (indexById (FileItem.id f) (updatedFiles m))
         (FileItem.with_status processing) (updatedFiles m);
       assignAt (indexById (FileItem.id f) (updatedFiles m))
         (settle (collisionVerdict caps (GlobalConfig.overwrite globalConfig)
                    (directory m) (FileItem.handle f)
                    (AppCollision.getFinalName globalConfig f)))
         (updatedFiles m)].
Proof.
  destruct (AppCollision_copyItem_shape f m) as (dir' & evs & ? & ? & ? & _).
  by exists dir', evs.
Qed.

(** Entries of the destination never disappear. *)
Lemma AppCollision_copyItem_keeps_entries f m k :
  is_Some (directory m !! k) ->
  is_Some (directory (after (AppCollision.copyItem caps globalConfig f) m) !! k).
Proof.
  unfold after.
  destruct (AppCollision_copyItem_shape f m) as (? & ? & -> & _ & _ & Hk & _).
  apply Hk.
Qed.

(** Without overwriting, the entries of the destination keep their bytes. *)
Lemma AppCollision_copyItem_keeps_bytes f m :
  GlobalConfig.overwrite globalConfig = false ->
  directory m ⊆ directory (after (AppCollision.copyItem caps globalConfig f) m).
Proof.
  unfold after.
  destruct (AppCollision_copyItem_shape f m) as (? & ? & -> & _ & _ & _ & Hk & _).
  apply Hk.
Qed.

(** A successful copy leaves an entry under the final name. *)
Lemma AppCollision_copyItem_written f m :
  collisionVerdict caps (GlobalConfig.overwrite globalConfig) (directory m)
    (FileItem.handle f) (AppCollision.getFinalName globalConfig f) = Succeeded ->
  is_Some (directory (after (AppCollision.copyItem caps globalConfig f) m)
           !! AppCollision.getFinalName globalConfig f).
Proof.
  unfold after.
  destruct (AppCollision_copyItem_shape f m) as (? & ? & -> & _ & _ & _ & _ & Hk & _).
  apply Hk.
Qed.
End Bodies.

(** ** The batch of [App] *)

Section AppBatch.
Variables (caps : Capabilities) (globalConfig : GlobalConfig.t)
          (d : FileSystemDirectoryHandle).
Implicit Types (files visible : list FileItem.t) (f x y : FileItem.t) (m : Machine).

Local Abbreviation step := (App.copyItem caps globalConfig).
Local Abbreviation verdict :=
  (fun (f : FileItem.t) (_ : Machine) =>
     verdict_of_failure
       (failure caps (FileItem.handle f) (App.getFinalName globalConfig f))).
Local Abbreviation shape := (App_copyItem_shape caps globalConfig).

(** The machine in which the loop starts. *)
Lemma App_executeBatch_unfold files visible m :
  let m0 := Build_Machine files (directory m)
              ((journal m ++ [SetIsProcessing true]) ++ [SetShowConfirm false]) in
  let m1 := after (forEach visible step) m0 in
  App.executeBatch caps globalConfig (Some d) files visible m
  = (inr tt,
     Build_Machine (updatedFiles m1) (directory m1)
       (journal m1 ++ [SetIsProcessing false])).
Proof.
  intros m0 m1. unfold App.executeBatch, mbind, M_bind, emit, declare_updatedFiles.
  cbn [updatedFiles directory journal].
  fold m0. by rewrite (forEach_ok step verdict shape).
Qed.

Lemma entry_Some k (l : list FileItem.t) i x :
  indexById k l = Some i -> l !! i = Some x -> entry k l = Some x.
Proof. intros Hi Hx. unfold entry. by rewrite Hi. Qed.

Lemma entry_ids k (l l' : list FileItem.t) i :
  FileItem.id <$> l = FileItem.id <$> l' ->
  indexById k l = Some i -> entry k l' = l' !! i.
Proof.
  intros Hids Hi. unfold entry. by rewrite <- (indexById_ids k l l' Hids), Hi.
Qed.


(** Without a destination the executor returns at once. *)
Lemma App_executeBatch_no_destination files visible m :
  App.executeBatch caps globalConfig None files visible m = (inr tt, m).
Proof. reflexivity. Qed.

Lemma App_executeBatch_ok files visible m :
  App.executeBatch caps globalConfig (Some d) files visible m
  = (inr tt, after (App.executeBatch caps globalConfig (Some d) files visible) m).
Proof. unfold after. by rewrite App_executeBatch_unfold. Qed.

Lemma App_batch_frame files visible m i x :
  files !! i = Some x ->
  FileItem.id x ∉ FileItem.id <$> visible ->
  updatedFiles (after (App.executeBatch caps globalConfig (Some d) files visible) m) !! i
  = Some x.
Proof.
  intros Hx Hout. unfold after. rewrite App_executeBatch_unfold.
  cbn [snd updatedFiles]. by apply (loop_frame step verdict shape).
Qed.

Lemma entry_inv k (l : list FileItem.t) x :
  entry k l = Some x -> exists i, indexById k l = Some i /\ l !! i = Some x.
Proof.
  unfold entry. destruct (indexById k l) as [i|]; [|done]. intros Hx. by exists i.
Qed.

(** The item of the collection that a visible item designates ends with
    the verdict of its own reads and writes. *)
Lemma App_batch_entry files visible m f x :
  NoDup (FileItem.id <$> visible) -> f ∈ visible ->
  entry (FileItem.id f) files = Some x ->
  entry (FileItem.id f)
    (updatedFiles (after (App.executeBatch caps globalConfig (Some d) files visible) m))
  = Some (settle (verdict_of_failure
                    (failure caps (FileItem.handle f) (App.getFinalName globalConfig f)))
            x).
Proof.
  intros Hnd Hf (i & Hi & Hx)%entry_inv.
  unfold after. rewrite App_executeBatch_unfold. cbn [snd updatedFiles].
  set (m0 := Build_Machine files _ _).
  destruct (loop_turn step verdict shape visible m0 f i x) as (l1 & l2 & _ & Hres);
    [done..|].
  rewrite (entry_ids _ files _ i); [done| |done].
  symmetry. apply (loop_ids step verdict shape visible m0).
Qed.

Lemma entry_is_Some f files :
  FileItem.id f ∈ FileItem.id <$> files -> is_Some (entry (FileItem.id f) files).
Proof.
  intros Hin. unfold entry.
  destruct (indexById (FileItem.id f) files) as [i|] eqn:E.
  - destruct (indexById_lookup _ _ _ E) as (x & Hx & _). cbn. by rewrite Hx.
  - by apply indexById_None in E.
Qed.

(** C3. A batch run over a visible set of distinct identifiers, all of
  the collection, comes to its end, and every item of the set ends with
  the outcome of its own reads and writes: status [error] with the
  message of the rejection when one of them is rejected, status
  [success] otherwise, and nothing else of the item changed.  A failure
  of one item therefore decides the status of that item only. *)
Theorem executeBatch_failure_isolated files visible m :
  NoDup (FileItem.id <$> visible) ->
  FileItem.id <$> visible ⊆ FileItem.id <$> files ->
  exists m',
    App.executeBatch caps globalConfig (Some d) files visible m = (inr tt, m') /\
    forall f, f ∈ visible ->
      exists x y,
        entry (FileItem.id f) files = Some x /\
        entry (FileItem.id f) (updatedFiles m') = Some y /\
        core y = core x /\
        match failure caps (FileItem.handle f) (App.getFinalName globalConfig f) with
        | Some msg =>
            FileItem.status y = error /\ FileItem.errorMessage y = Some msg
        | None =>
            FileItem.status y = success /\
            FileItem.errorMessage y = FileItem.errorMessage x
        end.
Proof.
  intros Hnd Hsub. eexists. split; [apply App_executeBatch_ok|].
  intros f Hf.
  destruct (entry_is_Some f files) as [x Hx].
  { apply Hsub. by apply list_elem_of_fmap_2. }
  eexists x, _. split_and!; [done | by apply App_batch_entry | apply settle_core |].
  by destruct (failure caps _ _).
Qed.
End AppBatch.

(** ** The batch of [AppCollision] *)

Section AppCollisionBatch.
Variables (caps : Capabilities) (globalConfig : GlobalConfig.t)
          (d : FileSystemDirectoryHandle).
Implicit Types (files visible l : list FileItem.t) (f x y : FileItem.t) (m : Machine).

Local Abbreviation step := (AppCollision.copyItem caps globalConfig).
Local Abbreviation verdict :=
  (fun (f : FileItem.t) (m : Machine) =>
     collisionVerdict caps (GlobalConfig.overwrite globalConfig) (directory m)
       (FileItem.handle f) (AppCollision.getFinalName globalConfig f)).
Local Abbreviation shape := (AppCollision_copyItem_loop_shape caps globalConfig).

Lemma AppCollision_executeBatch_unfold files visible m :
  let m0 := Build_Machine files (directory m)
              ((journal m ++ [SetIsProcessing true]) ++ [SetShowConfirm false]) in
  let m1 := after (forEach visible step) m0 in
  AppCollision.executeBatch caps globalConfig (Some d) files visible m
  = (inr tt,
     Build_Machine (updatedFiles m1) (directory m1)
       (journal m1 ++ [SetIsProcessing false])).
Proof.
  intros m0 m1.
  unfold AppCollision.executeBatch, mbind, M_bind, emit, declare_updatedFiles.
  cbn [updatedFiles directory journal].
  fold m0. by rewrite (forEach_ok step verdict shape).
Qed.

Lemma AppCollision_loop_keeps_entries l m k :
  is_Some (directory m !! k) ->
  is_Some (directory (after (forEach l step) m) !! k).
Proof.
  apply (forEach_invariant step verdict shape (fun m' => is_Some (directory m' !! k))).
  intros f m' _. apply AppCollision_copyItem_keeps_entries.
Qed.

Lemma AppCollision_loop_keeps_bytes l m :
  GlobalConfig.overwrite globalConfig = false ->
  directory m ⊆ directory (after (forEach l step) m).
Proof.
  intros Hov.
  apply (forEach_invariant step verdict shape (fun m' => directory m ⊆ directory m'));
    [|done].
  intros f m' _ Hsub. etrans; [apply Hsub|].
  by apply AppCollision_copyItem_keeps_bytes.
Qed.

(** An item that is read while its final name is taken is skipped. *)
Lemma AppCollision_loop_skips l m f i x data :
  GlobalConfig.overwrite globalConfig = false ->
  NoDup (FileItem.id <$> l) -> f ∈ l ->
  indexById (FileItem.id f) (updatedFiles m) = Some i ->
  updatedFiles m !! i = Some x ->
  getFile_result caps (FileItem.handle f) = inr data ->
  is_Some (directory m !! AppCollision.getFinalName globalConfig f) ->
  updatedFiles (after (forEach l step) m) !! i
  = Some (settle (Skipped "Ya existe") x).
Proof.
  intros Hov Hnd Hf Hi Hx Hread Hname.
  destruct (loop_turn step verdict shape l m f i x) as (l1 & l2 & _ & Hres); [done..|].
  rewrite Hres. do 2 f_equal. cbv beta. unfold collisionVerdict. rewrite Hread, Hov.
  destruct (AppCollision_loop_keeps_entries l1 m _ Hname) as [old Hold].
  by rewrite Hold.
Qed.

(** An item that ends as a success has an entry under its final name. *)
Lemma AppCollision_loop_success_written l m f i x y :
  NoDup (FileItem.id <$> l) -> f ∈ l ->
  indexById (FileItem.id f) (updatedFiles m) = Some i ->
  updatedFiles m !! i = Some x ->
  updatedFiles (after (forEach l step) m) !! i = Some y ->
  FileItem.status y = success ->
  is_Some (directory (after (forEach l step) m)
           !! AppCollision.getFinalName globalConfig f).
Proof.
  intros Hnd Hf Hi Hx Hy Hs.
  destruct (loop_turn step verdict shape l m f i x) as (l1 & l2 & -> & Hres); [done..|].
  rewrite Hres in Hy. injection Hy as <-.
  rewrite (after_forEach_app step verdict shape),
          (after_forEach_cons step verdict shape).
  apply AppCollision_loop_keeps_entries, AppCollision_copyItem_written.
  cbv beta in Hs. by destruct (collisionVerdict _ _ _ _ _).
Qed.

(** Every item of the visible set ends with the verdict of its own turn;
    in particular a rejected read ends as an error with its message,
    whatever happens to the other items. *)
Lemma AppCollision_batch_entry files visible m f x :
  NoDup (FileItem.id <$> visible) -> f ∈ visible ->
  entry (FileItem.id f) files = Some x ->
  exists dir,
    entry (FileItem.id f)
      (updatedFiles
         (after (AppCollision.executeBatch caps globalConfig (Some d) files visible) m))
    = Some (settle (collisionVerdict caps (GlobalConfig.overwrite globalConfig) dir
                      (FileItem.handle f) (AppCollision.getFinalName globalConfig f))
              x).
Proof.
  intros Hnd Hf (i & Hi & Hx)%entry_inv.
  unfold after. rewrite AppCollision_executeBatch_unfold. cbn [snd updatedFiles].
  set (m0 := Build_Machine files _ _).
  destruct (loop_turn step verdict shape visible m0 f i x) as (l1 & l2 & _ & Hres);
    [done..|].
  exists (directory (after (forEach l1 step) m0)).
  rewrite (entry_ids _ files _ i); [done| |done].
  symmetry. apply (loop_ids step verdict shape visible m0).
Qed.

Lemma AppCollision_read_failure_isolated files visible m f x msg :
  NoDup (FileItem.id <$> visible) -> f ∈ visible ->
  entry (FileItem.id f) files = Some x ->
  getFile_result caps (FileItem.handle f) = inl msg ->
  entry (FileItem.id f)
    (updatedFiles
       (after (AppCollision.executeBatch caps globalConfig (Some d) files visible) m))
  = Some (FileItem.with_status_message error msg x).
Proof.
  intros Hnd Hf Hx Hread.
  destruct (AppCollision_batch_entry files visible m f x) as (dir & ->); [done..|].
  unfold collisionVerdict. by rewrite Hread.
Qed.

(** One run without overwriting. *)
Lemma AppCollision_run files visible m :
  GlobalConfig.overwrite globalConfig = false ->
  NoDup (FileItem.id <$> visible) ->
  FileItem.id <$> visible ⊆ FileItem.id <$> files ->
  exists m',
    AppCollision.executeBatch caps globalConfig (Some d) files visible m = (inr tt, m') /\
    directory m ⊆ directory m' /\
    core <$> updatedFiles m' = core <$> files /\
    (forall f, f ∈ visible ->
       is_Some (directory m !! AppCollision.getFinalName globalConfig f) ->
       (exists data, getFile_result caps (FileItem.handle f) = inr data) ->
       exists y,
         entry (FileItem.id f) (updatedFiles m') = Some y /\
         FileItem.status y = skipped /\
         FileItem.errorMessage y = Some "Ya existe") /\
    (forall f y, f ∈ visible ->
       entry (FileItem.id f) (updatedFiles m') = Some y ->
       FileItem.status y = success ->
       is_Some (directory m' !! AppCollision.getFinalName globalConfig f)).
Proof.
  intros Hov Hnd Hsub. rewrite AppCollision_executeBatch_unfold. cbv zeta.
  set (m0 := Build_Machine files _ _).
  eexists. split; [reflexivity|]. cbn [updatedFiles directory].
  pose proof (loop_ids step verdict shape visible m0) as Hids.
  assert (forall f, f ∈ visible ->
            exists i x, indexById (FileItem.id f) files = Some i /\ files !! i = Some x)
    as Hidx.
  { intros f Hf. destruct (indexById (FileItem.id f) files) as [i|] eqn:E.
    - destruct (indexById_lookup _ _ _ E) as (x & Hx & _). eauto.
    - apply indexById_None in E. destruct E. apply Hsub.
      by apply list_elem_of_fmap_2. }
  split_and!.
  - by apply (AppCollision_loop_keeps_bytes visible m0).
  - apply (loop_key step verdict shape core visible m0), settle_core.
  - intros f Hf Hname [data Hread].
    destruct (Hidx f Hf) as (i & x & Hi & Hx).
    exists (settle (Skipped "Ya existe") x). split; [|done].
    rewrite (entry_ids _ files _ i); [|done..].
    by apply (AppCollision_loop_skips visible m0 f i x data).
  - intros f y Hf Hy Hs.
    destruct (Hidx f Hf) as (i & x & Hi & Hx).
    rewrite (entry_ids _ files _ i) in Hy; [|done..].
    by apply (AppCollision_loop_success_written visible m0 f i x y).
Qed.
End AppCollisionBatch.

Lemma AppCollision_getFinalName_core globalConfig f f' :
  core f = core f' ->
  AppCollision.getFinalName globalConfig f = AppCollision.getFinalName globalConfig f'.
Proof.
  unfold core, AppCollision.getFinalName.
  intros [= _ _ Hname _ _ _ Hbase Hpre Hsuf Hext].
  by rewrite Hname, Hbase, Hpre, Hsuf, Hext.
Qed.

Lemma id_core_fmap (l : list FileItem.t) : FileItem.id <$> (core <$> l) = FileItem.id <$> l.
Proof. by rewrite <- list_fmap_compose. Qed.

(** C2, amended.  In the revision with the collision check, with
    overwriting disabled and a visible set of distinct identifiers, all of
    the collection: a run comes to its end and leaves every entry of the
    destination with the bytes it had; an item whose source can be read
    and whose final name is already in the destination ends as [skipped]
    with the message ['Ya existe'].  In a second run over the same
    visible set, every item that the first run left as [success] and whose
    source can still be read ends as [skipped] with that message, and
    again every entry of the destination keeps its bytes. *)
Theorem collision_skipped_and_rerun
  (caps caps2 : Capabilities) (globalConfig : GlobalConfig.t)
  (d : FileSystemDirectoryHandle) (files visible visible2 : list FileItem.t)
  (m : Machine) :
  GlobalConfig.overwrite globalConfig = false ->
  NoDup (FileItem.id <$> visible) ->
  FileItem.id <$> visible ⊆ FileItem.id <$> files ->
  core <$> visible2 = core <$> visible ->
  exists m1 m2,
    AppCollision.executeBatch caps globalConfig (Some d) files visible m = (inr tt, m1) /\
    AppCollision.executeBatch caps2 globalConfig (Some d) (updatedFiles m1) visible2 m1
    = (inr tt, m2) /\
    directory m ⊆ directory m1 /\
    directory m1 ⊆ directory m2 /\
    (forall f, f ∈ visible ->
       is_Some (directory m !! AppCollision.getFinalName globalConfig f) ->
       (exists data, getFile_result caps (FileItem.handle f) = inr data) ->
       exists y,
         entry (FileItem.id f) (updatedFiles m1) = Some y /\
         FileItem.status y = skipped /\
         FileItem.errorMessage y = Some "Ya existe") /\
    (forall f y, f ∈ visible ->
       entry (FileItem.id f) (updatedFiles m1) = Some y ->
       FileItem.status y = success ->
       (exists data, getFile_result caps2 (FileItem.handle f) = inr data) ->
       exists z,
         entry (FileItem.id f) (updatedFiles m2) = Some z /\
         FileItem.status z = skipped /\
         FileItem.errorMessage z = Some "Ya existe").
Proof.
  intros Hov Hnd Hsub Hcore.
  destruct (AppCollision_run caps globalConfig d files visible m Hov Hnd Hsub)
    as (m1 & Hrun1 & Hbytes1 & Hcore1 & Hskip1 & Hwritten1).
  assert (FileItem.id <$> updatedFiles m1 = FileItem.id <$> files) as Hids1.
  { by rewrite <- (id_core_fmap (updatedFiles m1)), Hcore1, id_core_fmap. }
  assert (FileItem.id <$> visible2 = FileItem.id <$> visible) as Hids2.
  { by rewrite <- (id_core_fmap visible2), Hcore, id_core_fmap. }
  destruct (AppCollision_run caps2 globalConfig d (updatedFiles m1) visible2 m1)
    as (m2 & Hrun2 & Hbytes2 & _ & Hskip2 & _); [done|by rewrite Hids2|..].
  { by rewrite Hids2, Hids1. }
  exists m1, m2. split_and!; [done..|].
  intros f y Hf Hy Hs [data Hread].
  assert (core f ∈ core <$> visible2) as (f2 & Hcf & Hf2)%list_elem_of_fmap.
  { rewrite Hcore. by apply list_elem_of_fmap_2. }
  assert (FileItem.id f2 = FileItem.id f) as Hid by (by injection Hcf).
  assert (FileItem.handle f2 = FileItem.handle f) as Hh by (by injection Hcf).
  rewrite <- Hid. apply Hskip2; [done| |].
  - rewrite <- (AppCollision_getFinalName_core globalConfig f f2 Hcf). eauto.
  - rewrite Hh. eauto.
Qed.

(** ** Pasted names *)

Section PastedNames.
Implicit Types (visible prev : list FileItem.t) (f : FileItem.t).

Lemma ReplacedAll_same sep s out : ReplacedAll sep sep s out -> out = s.
Proof. induction 1; by subst. Qed.

(** Joining the pieces with the separator gives the text back. *)
Lemma split_join s sep : sep <> EmptyString -> JS.join (JS.split s sep) sep = s.
Proof.
  intros Hne. destruct sep as [|c sep]; [done|]. cbn [JS.split].
  by apply (ReplacedAll_same (String c sep)), split_join_replaced.
Qed.

(** No piece of a text split at line feeds holds a line feed. *)
Lemma split_lines_clean s :
  Forall (fun line => JS.includes line (String "010" EmptyString) = false)
    (JS.split s (String "010" EmptyString)).
Proof.
  cbn [JS.split]. induction s as [|c s IH]; [by repeat constructor|].
  cbn [JS.split_aux String.length Nat.sub].
  change (String.prefix (String "010" EmptyString) (String c s))
    with (if ascii_dec "010" c then String.prefix EmptyString s else false).
  destruct (ascii_dec "010" c) as [<-|Hc].
  - replace (String.prefix EmptyString s) with true by (by destruct s).
    by constructor.
  - pose proof (split_aux_nonempty (String "010" EmptyString) s 0) as Hnil.
    destruct (JS.split_aux _ s 0) as [|h t]; [done|].
    apply Forall_cons in IH as [Hh Ht]. constructor; [|done].
    cbn [JS.includes]. rewrite Hh, orb_false_r.
    change (String.prefix (String "010" EmptyString) (String c h))
      with (if ascii_dec "010" c then String.prefix EmptyString h else false).
    by destruct (ascii_dec "010" c).
Qed.

Lemma trim_empty : JS.trim EmptyString = EmptyString.
Proof. reflexivity. Qed.

Lemma pastedLines_truthy pastedNames n :
  n ∈ pastedLines pastedNames -> JS.truthy n = true.
Proof.
  unfold pastedLines. rewrite list_elem_of_filter. intros [Hn _].
  destruct n; [by destruct Hn | done].
Qed.

Lemma positionOf_unique k visible p q :
  positionOf k visible p -> positionOf k visible q -> p = q.
Proof. rewrite <- !indexById_positionOf. congruence. Qed.

(** C5. The names are the lines of the pasted text (the pieces between
  line feeds) that are not empty after trimming, in order.  Applying
  them keeps the length of the collection, gives the item at each
  position the trimmed name [names[p]] as custom base name when [p] is
  the first position of the visible set with the identifier of the item
  and [names[p]] exists, and leaves the item unchanged when there is no
  such position or no such name.  Names beyond the length of the
  visible set play no part. *)
Theorem applyPastedNames_positional pastedNames visible prev :
  let names := pastedLines pastedNames in
  let result := applyPastedNames pastedNames visible prev in
  (exists lines,
     JS.join lines (String "010" EmptyString) = pastedNames /\
     Forall (fun line => JS.includes line (String "010" EmptyString) = false) lines /\
     names = filter (fun n => JS.trim n <> EmptyString) lines) /\
  length result = length prev /\
  (forall i f, prev !! i = Some f ->
     (forall p n,
        positionOf (FileItem.id f) visible p -> names !! p = Some n ->
        result !! i = Some (FileItem.with_customBaseName (JS.trim n) f)) /\
     ((forall p, positionOf (FileItem.id f) visible p -> names !! p = None) ->
      result !! i = Some f)) /\
  (forall other,
     take (length visible) (pastedLines other) = take (length visible) names ->
     applyPastedNames other visible prev = result).
Proof.
  intros names result. split_and!.
  - exists (JS.split pastedNames (String "010" EmptyString)). split_and!.
    + by apply split_join.
    + apply split_lines_clean.
    + done.
  - subst result. unfold applyPastedNames. by rewrite length_fmap.
  - intros i f Hf. subst result. unfold applyPastedNames.
    rewrite list_lookup_fmap, Hf. cbn [fmap option_fmap option_map].
    fold names.
    destruct (indexById (FileItem.id f) visible) as [p|] eqn:Hp.
    + apply indexById_positionOf in Hp. split.
      * intros q n Hq Hn. rewrite (positionOf_unique _ _ _ _ Hp Hq), Hn.
        rewrite (pastedLines_truthy pastedNames n); [done|].
        by eapply list_elem_of_lookup_2.
      * intros Hnone. by rewrite (Hnone p Hp).
    + split; [|done]. intros q n Hq%indexById_positionOf. congruence.
  - intros other Htake. subst result. unfold applyPastedNames.
    apply list_fmap_ext. intros i f Hf.
    destruct (indexById (FileItem.id f) visible) as [p|] eqn:Hp; [|done].
    apply indexById_lookup in Hp as (v & Hv & _). apply lookup_lt_Some in Hv.
    fold names.
    by rewrite <- (lookup_take_lt (pastedLines other) (length visible) p),
               <- (lookup_take_lt names (length visible) p), Htake.
Qed.
End PastedNames.

(** ** The scan and the extension of an item *)

Lemma elem_of_scanEntries item entries :
  item ∈ scanEntries entries ->
  FileItem.extension item = getExtension (FileItem.originalName item) /\
  FileItem.status item = pending.
Proof.
  induction entries as [|[h file uuid|] rest IH]; simpl.
  - intros H. by apply elem_of_nil in H.
  - intros [->|H]%elem_of_cons; [done | by apply IH].
  - apply IH.
Qed.

Lemma or_nonempty a b : a <> EmptyString -> JS.or a b = a.
Proof. by destruct a. Qed.

(** C10. An item made by the scan has the extension of its original name
    as its own extension.  When that extension is not empty, the final
    name of the item is the same for every global extension; once the
    extension of the item is cleared, a non-empty global extension yields
    the name the item would have with that extension as its own. *)
Theorem scanned_extension_shadows_global
  (files : list FileItem.t) (entries : list Entry) (item : FileItem.t)
  (globalConfig : GlobalConfig.t) :
  item ∈ scanFiles files (Some entries) ->
  FileItem.extension item = getExtension (FileItem.originalName item) /\
  (getExtension (FileItem.originalName item) <> EmptyString ->
   forall e1 e2,
     App.getFinalName (GlobalConfig.with_extension e1 globalConfig) item
     = App.getFinalName (GlobalConfig.with_extension e2 globalConfig) item) /\
  (forall e, e <> EmptyString ->
     App.getFinalName (GlobalConfig.with_extension e globalConfig)
       (setField FExtension EmptyString item)
     = App.getFinalName globalConfig (setField FExtension e item)).
Proof.
  cbn [scanFiles]. intros [Hext _]%elem_of_scanEntries. split_and!; [done|..].
  - intros Hne e1 e2. unfold App.getFinalName. cbn [GlobalConfig.with_extension
      GlobalConfig.prefix GlobalConfig.suffix GlobalConfig.extension
      GlobalConfig.find GlobalConfig.replace].
    rewrite <- Hext in Hne. by rewrite !(or_nonempty (FileItem.extension item)).
  - intros e He. destruct item. unfold App.getFinalName. cbn.
    by rewrite !(or_nonempty e).
Qed.

Lemma scanned_extension_shadows_global_witness :
  FileItem.extension Sample.c = getExtension (FileItem.originalName Sample.c) /\
  (getExtension (FileItem.originalName Sample.c) <> EmptyString ->
   forall e1 e2,
     App.getFinalName (GlobalConfig.with_extension e1 Sample.globalConfig) Sample.c
     = App.getFinalName (GlobalConfig.with_extension e2 Sample.globalConfig) Sample.c) /\
  (forall e, e <> EmptyString ->
     App.getFinalName (GlobalConfig.with_extension e Sample.globalConfig)
       (setField FExtension EmptyString Sample.c)
     = App.getFinalName Sample.globalConfig (setField FExtension e Sample.c)).
Proof.
  apply (scanned_extension_shadows_global [] Sample.entries Sample.c Sample.globalConfig).
  compute_done.
Defined.

Example scanned_item_ignores_global_extension :
  App.getFinalName (GlobalConfig.with_extension "jpg" Sample.globalConfig) Sample.c = "c.png" /\
  App.getFinalName (GlobalConfig.with_extension "jpg" Sample.globalConfig)
    (setField FExtension EmptyString Sample.c) = "c.jpg".
Proof. split; reflexivity. Qed.

(** ** What changes a status *)

Lemma applyPastedNames_status pastedNames (visible prev : list FileItem.t) :
  FileItem.status <$> applyPastedNames pastedNames visible prev = FileItem.status <$> prev.
Proof.
  unfold applyPastedNames. rewrite <- list_fmap_compose.
  apply list_fmap_ext. intros i f _. cbn.
  destruct (indexById _ _) as [p|]; [|done].
  destruct (_ !! p) as [n|]; [|done]. by destruct (JS.truthy n).
Qed.

Lemma editField_status fld target v (prev : list FileItem.t) :
  FileItem.status <$> editField fld target v prev = FileItem.status <$> prev.
Proof.
  unfold editField. rewrite <- list_fmap_compose.
  apply list_fmap_ext. intros i f _. cbn.
  destruct (String.eqb _ _); [|done]. by destruct f, fld.
Qed.

(** C6, amended.  Pasting names and editing a field keep the status of
    every item.  A batch run keeps every item whose identifier is not in
    its visible set as it was; an item that is in its visible set (with
    distinct identifiers) ends in the terminal state of this run's own
    outcome, [error] or [success], whatever its status was before.  A
    scan makes every item [pending]. *)
Theorem status_changed_by_batch_or_scan_only :
  (forall pastedNames visible prev,
     FileItem.status <$> applyPastedNames pastedNames visible prev
     = FileItem.status <$> prev) /\
  (forall fld target v prev,
     FileItem.status <$> editField fld target v prev = FileItem.status <$> prev) /\
  (forall caps globalConfig d files visible m,
     exists m',
       App.executeBatch caps globalConfig (Some d) files visible m = (inr tt, m') /\
       (forall i x,
          files !! i = Some x ->
          FileItem.id x ∉ FileItem.id <$> visible ->
          updatedFiles m' !! i = Some x) /\
       (NoDup (FileItem.id <$> visible) ->
        forall f x, f ∈ visible ->
          entry (FileItem.id f) files = Some x ->
          exists y,
            entry (FileItem.id f) (updatedFiles m') = Some y /\
            terminal (FileItem.status y) = true /\
            FileItem.status y =
              match failure caps (FileItem.handle f) (App.getFinalName globalConfig f) with
              | Some _ => error
              | None => success
              end)) /\
  (forall files entries,
     Forall (fun f => FileItem.status f = pending) (scanFiles files (Some entries))).
Proof.
  split_and!.
  - apply applyPastedNames_status.
  - apply editField_status.
  - intros caps globalConfig d files visible m.
    eexists. split_and!; [apply App_executeBatch_ok | apply App_batch_frame |].
    intros Hnd f x Hf Hx. eexists. split_and!; [by apply App_batch_entry|..].
    + apply settle_terminal.
    + by destruct (failure caps _ _).
  - intros files entries. apply Forall_forall. intros f Hf.
    by apply elem_of_scanEntries in Hf as [_ ?].
Qed.

(** A second run over the same visible set changes a status that was
    terminal: [b] goes from [error] to [success], and [a], a success of the
    first run, is published as [processing] again. *)
Lemma rerun_changes_terminal_status :
  FileItem.status <$> updatedFiles Sample.first_run = [success; error; success] /\
  FileItem.status <$> updatedFiles Sample.second_run = [success; success; success] /\
  [processing; error; success]
    ∈ (fun s : list FileItem.t => FileItem.status <$> s)
        <$> published (journal Sample.second_run).
Proof. split_and!; compute_done. Qed.

(** ** Collisions *)

(** With [a.txt] and [b.txt] in the destination and overwriting disabled:
    the message of a skipped item is ['Ya existe']; an item whose source
    cannot be read ends as an error; and [App] writes over the entry. *)
Lemma collision_outcomes_on_sample :
  GlobalConfig.overwrite Sample.globalConfig = false /\
  (FileItem.status <$> entry "id-a" (updatedFiles Sample.checked_run) = Some skipped /\
   FileItem.errorMessage <$> entry "id-a" (updatedFiles Sample.checked_run)
   = Some (Some "Ya existe") /\
   FileItem.errorMessage <$> entry "id-a" (updatedFiles Sample.checked_run)
   <> Some (Some "already exists")) /\
  (directory Sample.taken !! AppCollision.getFinalName Sample.globalConfig Sample.b
   = Some [Byte.x00] /\
   FileItem.status <$> entry "id-b" (updatedFiles Sample.checked_run) = Some error) /\
  (directory Sample.taken !! App.getFinalName Sample.globalConfig Sample.a
   = Some [Byte.x00] /\
   FileItem.status <$> entry "id-a" (updatedFiles Sample.unchecked_run) = Some success /\
   directory Sample.unchecked_run !! App.getFinalName Sample.globalConfig Sample.a
   = Some [Byte.x2a; Byte.x01]).
Proof. split_and!; compute_done. Qed.

(** ** The visible set does not depend on status and message *)

Section CoreStability.
Context `{JS.Runtime}.
Implicit Types (files l : list FileItem.t) (filters : FilterState.t).

Lemma matchesSearch_core filters f f' :
  core f = core f' -> matchesSearch filters f = matchesSearch filters f'.
Proof. unfold core, matchesSearch. intros [= _ _ Hname _ _ _ _ _ _ _]. by rewrite Hname. Qed.

Lemma matchesSize_core filters f f' :
  core f = core f' -> matchesSize filters f = matchesSize filters f'.
Proof. unfold core, matchesSize. intros [= _ _ _ Hsize _ _ _ _ _ _]. by rewrite Hsize. Qed.

Lemma matchesDate_core filters f f' :
  core f = core f' -> matchesDate filters f = matchesDate filters f'.
Proof. unfold core, matchesDate. intros [= _ _ _ _ Hdate _ _ _ _ _]. by rewrite Hdate. Qed.

Lemma compareBy_core sort a a' b b' :
  core a = core a' -> core b = core b' -> compareBy sort a b = compareBy sort a' b'.
Proof.
  unfold core. intros [= _ _ Ha1 Ha2 Ha3 _ _ _ _ _] [= _ _ Hb1 Hb2 Hb3 _ _ _ _ _].
  destruct sort; simpl; congruence.
Qed.

Lemma fmap_cons_eq {A B} (g : A -> B) x y (k k' : list A) :
  g <$> x :: k = g <$> y :: k' -> g x = g y /\ g <$> k = g <$> k'.
Proof. rewrite !fmap_cons. by intros [= ? ?]. Qed.

Lemma filter_core (P : FileItem.t -> Prop) `{!forall x, Decision (P x)} l l' :
  (forall x y, core x = core y -> P x <-> P y) ->
  core <$> l = core <$> l' ->
  core <$> filter P l = core <$> filter P l'.
Proof.
  intros HP. revert l'. induction l as [|x l IH]; intros [|y l'] Heq;
    try done.
  apply fmap_cons_eq in Heq as [Hxy Hl].
  rewrite !filter_cons.
  destruct (decide (P x)) as [Hx|Hx], (decide (P y)) as [Hy|Hy].
  - rewrite !fmap_cons. f_equal; [done | by apply IH].
  - destruct Hy. by eapply HP.
  - destruct Hx. by eapply HP.
  - by apply IH.
Qed.

Lemma insert_sorted_core (cmp : FileItem.t -> FileItem.t -> Z) x x' l l' :
  (forall a a' b b', core a = core a' -> core b = core b' -> cmp a b = cmp a' b') ->
  core x = core x' -> core <$> l = core <$> l' ->
  core <$> JS.insert_sorted cmp x l = core <$> JS.insert_sorted cmp x' l'.
Proof.
  intros Hcmp Hx. revert l'. induction l as [|y l IH]; intros [|y' l'] Heq;
    try done; simpl.
  - by rewrite Hx.
  - apply fmap_cons_eq in Heq as [Hy Hl].
    rewrite (Hcmp x x' y y') by done.
    destruct (0 <? cmp x' y'); rewrite !fmap_cons; f_equal; try done.
    + by apply IH.
    + by f_equal.
Qed.

Lemma sort_core (cmp : FileItem.t -> FileItem.t -> Z) l l' :
  (forall a a' b b', core a = core a' -> core b = core b' -> cmp a b = cmp a' b') ->
  core <$> l = core <$> l' ->
  core <$> JS.sort cmp l = core <$> JS.sort cmp l'.
Proof.
  intros Hcmp. revert l'. induction l as [|x l IH]; intros [|x' l'] Heq;
    try done; simpl.
  apply fmap_cons_eq in Heq as [Hx Hl].
  apply insert_sorted_core; [done..|]. by apply IH.
Qed.

(** After a batch run the visible set holds the same items as before,
    in the same order. *)
Lemma AppCollision_filteredFiles_core files files' filters :
  core <$> files = core <$> files' ->
  core <$> AppCollision.filteredFiles files filters
  = core <$> AppCollision.filteredFiles files' filters.
Proof.
  intros Hcore. unfold AppCollision.filteredFiles.
  apply sort_core; [apply compareBy_core|].
  apply filter_core; [|done]. intros x y Hxy.
  by rewrite (matchesSearch_core _ x y), (matchesSize_core _ x y),
             (matchesDate_core _ x y).
Qed.

Lemma App_filteredFiles_core files files' filters :
  core <$> files = core <$> files' ->
  core <$> App.filteredFiles files filters = core <$> App.filteredFiles files' filters.
Proof.
  intros Hcore. unfold App.filteredFiles.
  assert (core <$> JS.sort (compareBy (FilterState.sort filters))
            (filter (fun f => matchesSearch filters f && matchesDate filters f) files)
          = core <$> JS.sort (compareBy (FilterState.sort filters))
            (filter (fun f => matchesSearch filters f && matchesDate filters f) files'))
    as Hs.
  { apply sort_core; [apply compareBy_core|].
    apply filter_core; [|done]. intros x y Hxy.
    by rewrite (matchesSearch_core _ x y), (matchesDate_core _ x y). }
  destruct (FilterState.limit filters) as [n|]; [|done].
  destruct (0 <? n); [|done]. by rewrite !fmap_take, Hs.
Qed.

(** The visible set of a collection with distinct identifiers has
    distinct identifiers, all of the collection. *)
Lemma AppCollision_filteredFiles_ids files filters :
  NoDup (FileItem.id <$> files) ->
  NoDup (FileItem.id <$> AppCollision.filteredFiles files filters) /\
  FileItem.id <$> AppCollision.filteredFiles files filters ⊆ FileItem.id <$> files.
Proof.
  intros Hnd. unfold AppCollision.filteredFiles.
  rewrite sort_perm. split.
  - eapply sublist_NoDup; [done|]. apply fmap_sublist, sublist_filter.
  - apply sublist_subseteq, fmap_sublist, sublist_filter.
Qed.

(** In [App] the size clause is absent and the limit comes last; with
    no limit the visible set holds the items that pass the other clauses. *)
Lemma App_filteredFiles_membership files filters f :
  FilterState.limit filters = None ->
  f ∈ App.filteredFiles files filters <->
  f ∈ files /\ matchesSearch filters f /\ matchesDate filters f.
Proof.
  intros Hl. unfold App.filteredFiles. rewrite Hl.
  rewrite elem_of_sort, list_elem_of_filter, andb_True. tauto.
Qed.
End CoreStability.

(** Without a find text both revisions derive the same name. *)
Lemma getFinalName_agree globalConfig f :
  GlobalConfig.find globalConfig = EmptyString ->
  App.getFinalName globalConfig f = AppCollision.getFinalName globalConfig f.
Proof. unfold App.getFinalName, AppCollision.getFinalName. by intros ->. Qed.

(** ** The properties on the sample data *)

Lemma executeBatch_failure_isolated_witness :
  exists m',
    App.executeBatch Sample.unreadable_b Sample.globalConfig (Some Sample.destination)
      Sample.files Sample.files Sample.fresh = (inr tt, m') /\
    forall f, f ∈ Sample.files ->
      exists x y,
        entry (FileItem.id f) Sample.files = Some x /\
        entry (FileItem.id f) (updatedFiles m') = Some y /\
        core y = core x /\
        match failure Sample.unreadable_b (FileItem.handle f)
                (App.getFinalName Sample.globalConfig f) with
        | Some msg => FileItem.status y = error /\ FileItem.errorMessage y = Some msg
        | None =>
            FileItem.status y = success /\
            FileItem.errorMessage y = FileItem.errorMessage x
        end.
Proof.
  apply (executeBatch_failure_isolated Sample.unreadable_b Sample.globalConfig
           Sample.destination Sample.files Sample.files Sample.fresh);
    compute_done.
Defined.

Example failure_of_b_leaves_a_and_c :
  (fun f => (FileItem.status f, FileItem.errorMessage f))
    <$> updatedFiles Sample.first_run
  = [(success, None); (error, Some "NotReadableError"); (success, None)] /\
  reads (journal Sample.first_run) = [FileHandle 1; FileHandle 2; FileHandle 3] /\
  map_to_list (directory Sample.first_run)
  = [("c.png", [Byte.x2a; Byte.x03]); ("a.txt", [Byte.x2a; Byte.x01])].
Proof. split_and!; compute_done. Qed.

Lemma filteredFiles_sort_stable_witness :
  before Sample.a Sample.b (App.filteredFiles Sample.files Sample.filters)
  <-> before Sample.a Sample.b Sample.files.
Proof.
  apply (filteredFiles_sort_stable Sample.files Sample.filters Sample.a Sample.b);
    compute_done.
Defined.

Example ties_keep_collection_order :
  FileItem.id <$> App.filteredFiles Sample.files
                    (FilterState.mk EmptyString EmptyString EmptyString 0 date_asc None) = ["id-a"; "id-b"; "id-c"] /\
  FileItem.id <$> App.filteredFiles Sample.files
                    (FilterState.mk EmptyString EmptyString EmptyString 0 date_desc None) = ["id-c"; "id-a"; "id-b"].
Proof. split; compute_done. Qed.

Lemma collision_skipped_and_rerun_witness :
  exists m1 m2,
    AppCollision.executeBatch Sample.sound Sample.globalConfig (Some Sample.destination)
      Sample.files Sample.visible Sample.taken = (inr tt, m1) /\
    AppCollision.executeBatch Sample.sound Sample.globalConfig (Some Sample.destination)
      (updatedFiles m1) Sample.visible_again m1 = (inr tt, m2) /\
    directory Sample.taken ⊆ directory m1 /\
    directory m1 ⊆ directory m2 /\
    (forall f, f ∈ Sample.visible ->
       is_Some (directory Sample.taken
                !! AppCollision.getFinalName Sample.globalConfig f) ->
       (exists data, getFile_result Sample.sound (FileItem.handle f) = inr data) ->
       exists y,
         entry (FileItem.id f) (updatedFiles m1) = Some y /\
         FileItem.status y = skipped /\
         FileItem.errorMessage y = Some "Ya existe") /\
    (forall f y, f ∈ Sample.visible ->
       entry (FileItem.id f) (updatedFiles m1) = Some y ->
       FileItem.status y = success ->
       (exists data, getFile_result Sample.sound (FileItem.handle f) = inr data) ->
       exists z,
         entry (FileItem.id f) (updatedFiles m2) = Some z /\
         FileItem.status z = skipped /\
         FileItem.errorMessage z = Some "Ya existe").
Proof.
  apply (collision_skipped_and_rerun Sample.sound Sample.sound Sample.globalConfig
           Sample.destination Sample.files Sample.visible Sample.visible_again
           Sample.taken);
    compute_done.
Defined.

Example second_run_skips_everything :
  FileItem.status <$> updatedFiles Sample.collision_first = [skipped; skipped; success] /\
  FileItem.status <$> updatedFiles Sample.collision_second = [skipped; skipped; skipped] /\
  map_to_list (directory Sample.collision_first)
  = [("c.png", [Byte.x2a; Byte.x03]); ("a.txt", [Byte.x00]); ("b.txt", [Byte.x00])] /\
  map_to_list (directory Sample.collision_second)
  = map_to_list (directory Sample.collision_first).
Proof. split_and!; compute_done. Qed.

(** Five files, three of which match the search text, and a limit of two:
    the batch copies the two smallest matches and leaves the rest pending. *)
Example five_files_limit_two :
  FileItem.id <$> App.filteredFiles Sample.five Sample.two_holidays = ["3"; "5"] /\
  FileItem.status <$> updatedFiles Sample.five_run
  = [pending; pending; success; pending; success] /\
  reads (journal Sample.five_run) = [FileHandle 3; FileHandle 5].
Proof. split_and!; compute_done. Qed.

Example applyPastedNames_three_lines :
  FileItem.customBaseName
    <$> applyPastedNames ("x" +:+ String "010" "y" +:+ String "010" "z")
          [Sample.c; Sample.a] Sample.files
  = ["y"; "b"; "x"].
Proof. reflexivity. Qed.

(** The window of one day holds a time stamp of 23:59:59.000 and no later one. *)
Example date_window_of_one_day :
  let day := FilterState.mk EmptyString "1970-01-02" "1970-01-02" 0 name_asc None in
  let at_ (t : Z) :=
    FileItem.mk "1" (FileHandle 1) "a.txt" 10 t EmptyString "a" EmptyString EmptyString "txt" pending None in
  matchesDate day (at_ 86399999) = false /\
  matchesDate day (at_ 86400000) = true /\
  matchesDate day (at_ 172799000) = true /\
  matchesDate day (at_ 172799001) = false.
Proof. cbv zeta. split_and!; compute_done. Qed.

(** One kilobyte is 1024 bytes. *)
Example size_floor_in_kilobytes :
  let floor := FilterState.mk EmptyString EmptyString EmptyString 1 name_asc None in
  let of_size (n : N) :=
    FileItem.mk "1" (FileHandle 1) "a.txt" n 0 EmptyString "a" EmptyString EmptyString "txt" pending None in
  FileItem.size <$> AppCollision.filteredFiles [of_size 1023%N; of_size 1024%N; of_size 4096%N] floor
  = [1024; 4096]%N.
Proof. cbv zeta. compute_done. Qed.

(** * Further properties *)

(** ** Base names and extensions *)

Section FileNames.
Implicit Types (s pre post name : string).

Lemma length_append s1 s2 :
  String.length (s1 +:+ s2) = (String.length s1 + String.length s2)%nat.
Proof.
  induction s1 as [|c s1 IH]; [done|]. rewrite append_cons. simpl. by rewrite IH.
Qed.

Lemma drop_all s : JS.drop (String.length s) s = EmptyString.
Proof. induction s as [|c s IH]; [done | exact IH]. Qed.

Lemma drop_ge n s : (String.length s <= n)%nat -> JS.drop n s = EmptyString.
Proof.
  revert n. induction s as [|c s IH]; intros [|n]; simpl; try done; try lia.
  intros Hn. apply IH. lia.
Qed.

Lemma drop_app_dot pre post :
  JS.drop (S (String.length pre)) (pre +:+ "." +:+ post) = post.
Proof. induction pre as [|c pre IH]; [done|]. rewrite append_cons. exact IH. Qed.

Lemma substring_prefix pre rest :
  String.substring 0 (String.length pre) (pre +:+ rest) = pre.
Proof.
  induction pre as [|c pre IH]; [by destruct rest|].
  rewrite append_cons. simpl. by rewrite IH.
Qed.

Lemma prefix_dot_cons c s :
  String.prefix "." (String c s) = if decide (c = "."%char) then true else false.
Proof. apply (startsWith_dot c s). Qed.

Lemma dotless_cons c s : dotless (String c s) <-> c <> "."%char /\ dotless s.
Proof.
  unfold dotless. cbn [JS.includes]. rewrite prefix_dot_cons.
  case_decide; simpl; [|tauto]. split; [done | tauto].
Qed.

Lemma dotless_nil : dotless EmptyString.
Proof. reflexivity. Qed.

(** [lastIndexOf] finds no dot exactly in a text without one. *)
Lemma lastIndexOf_from_dotless s i :
  0 <= i -> JS.lastIndexOf_from s "." i < 0 <-> dotless s.
Proof.
  revert i. induction s as [|c s IH]; intros i Hi.
  - simpl. split; [done | lia].
  - cbn [JS.lastIndexOf_from]. rewrite dotless_cons, prefix_dot_cons.
    specialize (IH (i + 1) ltac:(lia)).
    destruct (0 <=? JS.lastIndexOf_from s "." (i + 1)) eqn:E.
    + apply Z.leb_le in E. split; [lia|]. intros [_ Hd]. apply IH in Hd. lia.
    + apply Z.leb_gt in E. case_decide.
      * split; [lia | tauto].
      * split; [by intros _; split; [|apply IH] | lia].
Qed.

(** Where [lastIndexOf] finds a dot, no dot follows. *)
Lemma lastIndexOf_from_split s i r :
  0 <= i -> JS.lastIndexOf_from s "." i = r -> 0 <= r ->
  exists pre post,
    s = pre +:+ "." +:+ post /\ Z.of_nat (String.length pre) = r - i /\ dotless post.
Proof.
  revert i. induction s as [|c s IH]; intros i Hi.
  - simpl. lia.
  - cbn [JS.lastIndexOf_from]. rewrite prefix_dot_cons.
    destruct (0 <=? JS.lastIndexOf_from s "." (i + 1)) eqn:E.
    + apply Z.leb_le in E. intros Hr _.
      destruct (IH (i + 1) ltac:(lia) Hr ltac:(lia)) as (pre & post & -> & Hlen & Hd).
      exists (String c pre), post. split_and!; [done| |done].
      cbn [String.length]. lia.
    + apply Z.leb_gt in E. case_decide as Hc; [|lia].
      intros <- _. exists EmptyString, s. subst c. split_and!; [done | simpl; lia |].
      by apply (lastIndexOf_from_dotless s (i + 1)); [lia|].
Qed.

Lemma lastIndexOf_from_range s i :
  0 <= i -> JS.lastIndexOf_from s "." i = -1 \/ i <= JS.lastIndexOf_from s "." i.
Proof.
  revert i. induction s as [|c s IH]; intros i Hi; [by left|].
  cbn [JS.lastIndexOf_from].
  destruct (IH (i + 1) ltac:(lia)) as [->|Hr].
  - destruct (String.prefix "." (String c s)); [right; cbn; lia | left; reflexivity].
  - rewrite (proj2 (Z.leb_le 0 _)) by lia. right. lia.
Qed.

(** The three shapes of a file name, and what the two functions make of
    each: no dot; a dot in front and no other; a last dot further on. *)
Lemma file_name_shapes name :
  Z.of_nat (String.length name) < 2 ^ 32 ->
  (dotless name /\ getBaseName name = name /\ getExtension name = EmptyString) \/
  (exists post,
     name = "." +:+ post /\ dotless post /\
     getBaseName name = EmptyString /\ getExtension name = EmptyString) \/
  (exists pre post,
     pre <> EmptyString /\ name = pre +:+ "." +:+ post /\ dotless post /\
     getBaseName name = pre /\ getExtension name = post).
Proof.
  intros Hlen. unfold getBaseName, getExtension, JS.lastIndexOf, JS.slice, JS.toUint32.
  change (2 ^ 32) with 4294967296 in *.
  destruct (lastIndexOf_from_range name 0 ltac:(lia)) as [Hr|Hr].
  - left. rewrite Hr. split_and!.
    + apply (lastIndexOf_from_dotless name 0); lia.
    + done.
    + change ((-1 - 1) mod 4294967296 + 2) with 4294967296.
      rewrite (proj2 (Z.ltb_ge _ _)) by lia.
      rewrite Z.min_r by lia. rewrite Nat2Z.id. apply drop_all.
  - destruct (lastIndexOf_from_split name 0 _ ltac:(lia) eq_refl Hr)
      as (pre & post & Hname & Hpre & Hd).
    rewrite Z.sub_0_r in Hpre. rewrite <- Hpre.
    assert (String.length name = S (String.length pre + String.length post)) as Hl.
    { rewrite Hname at 1. rewrite !length_append. simpl. lia. }
    destruct pre as [|c pre].
    + right; left. exists post. cbn [String.length Z.of_nat].
      split_and!; [done..| |].
      * cbn. unfold JS.substring. cbn. by destruct name.
      * change ((Z.of_nat 0 - 1) mod 4294967296 + 2) with 4294967297.
        rewrite (proj2 (Z.ltb_ge _ _)) by lia.
        rewrite Z.min_r by lia. rewrite Nat2Z.id. apply drop_all.
    + right; right. exists (String c pre), post.
      split_and!; [done..| |].
      * rewrite (proj2 (Z.eqb_neq _ _)) by lia.
        unfold JS.substring. rewrite Z.max_l, !Z.min_l, Z.max_r, Z.sub_0_r by lia.
        rewrite Z.max_l by lia. rewrite Nat2Z.id. cbn [Z.to_nat]. rewrite Hname at 1.
        apply substring_prefix.
      * cbn [String.length] in *. rewrite Z.mod_small by lia.
        rewrite (proj2 (Z.ltb_ge _ _)) by lia.
        rewrite Z.min_l by lia.
        replace (Z.to_nat (Z.of_nat (S (String.length pre)) - 1 + 2))
          with (S (String.length (String c pre))) by (cbn [String.length]; lia).
        rewrite Hname at 1. apply drop_app_dot.
Qed.

Lemma dotless_app s1 s2 : dotless (s1 +:+ s2) -> dotless s1 /\ dotless s2.
Proof.
  induction s1 as [|c s1 IH]; [by split|].
  rewrite append_cons, !dotless_cons. tauto.
Qed.

Lemma dotless_dot post : ~ dotless ("." +:+ post).
Proof. change ("." +:+ post) with (String "." post). rewrite dotless_cons. tauto. Qed.

(** The last dot of a text is where it is. *)
Lemma last_dot_unique pre pre' post post' :
  dotless post -> dotless post' ->
  pre +:+ "." +:+ post = pre' +:+ "." +:+ post' -> pre = pre' /\ post = post'.
Proof.
  intros Hd Hd'. revert pre'.
  induction pre as [|c pre IH]; intros [|c' pre']; rewrite ?append_cons, ?append_nil_l.
  - by intros [= ->].
  - intros [= <- ->]. by apply dotless_app, proj2, dotless_dot in Hd.
  - intros [= -> <-]. by apply dotless_app, proj2, dotless_dot in Hd'.
  - intros [= -> Heq]. destruct (IH _ Heq) as [-> ->]. done.
Qed.

Lemma file_name_plain name :
  Z.of_nat (String.length name) < 2 ^ 32 -> dotless name ->
  getBaseName name = name /\ getExtension name = EmptyString.
Proof.
  intros Hlen Hd.
  destruct (file_name_shapes name Hlen)
    as [(_ & ? & ?)|[(post & -> & _)|(pre & post & _ & -> & _)]]; [done|..].
  - by apply dotless_dot in Hd.
  - by apply dotless_app, proj2, dotless_dot in Hd.
Qed.

Lemma file_name_hidden post :
  Z.of_nat (String.length ("." +:+ post)) < 2 ^ 32 -> dotless post ->
  getBaseName ("." +:+ post) = EmptyString /\ getExtension ("." +:+ post) = EmptyString.
Proof.
  intros Hlen Hd.
  destruct (file_name_shapes _ Hlen)
    as [(Hn & _)|[(post' & _ & _ & ? & ?)|(pre & post' & Hpre & Heq & Hd' & _)]].
  - by apply dotless_dot in Hn.
  - done.
  - destruct (last_dot_unique EmptyString pre post post' Hd Hd' Heq) as [<- _]. done.
Qed.

Lemma file_name_dotted pre post :
  Z.of_nat (String.length (pre +:+ "." +:+ post)) < 2 ^ 32 ->
  pre <> EmptyString -> dotless post ->
  getBaseName (pre +:+ "." +:+ post) = pre /\
  getExtension (pre +:+ "." +:+ post) = post.
Proof.
  intros Hlen Hpre Hd.
  destruct (file_name_shapes _ Hlen)
    as [(Hn & _)|[(post' & Heq & Hd' & _)|(pre' & post' & _ & Heq & Hd' & Hb & He)]].
  - by apply dotless_app, proj2, dotless_dot in Hn.
  - by destruct (last_dot_unique pre EmptyString post post' Hd Hd' Heq) as [-> _].
  - destruct (last_dot_unique pre pre' post post' Hd Hd' Heq) as [-> ->].
    by split.
Qed.

Lemma file_name_joined name :
  Z.of_nat (String.length name) < 2 ^ 32 -> getExtension name <> EmptyString ->
  name = getBaseName name +:+ "." +:+ getExtension name /\
  getBaseName name <> EmptyString /\ dotless (getExtension name).
Proof.
  intros Hlen Hext.
  destruct (file_name_shapes name Hlen)
    as [(_ & _ & ?)|[(post & _ & _ & _ & ?)|(pre & post & ? & ? & ? & Hb & He)]];
    [done..|].
  by rewrite Hb, He.
Qed.

(** X1. A name made of a non-empty part, a dot and a part without a dot
  (shorter than 2^32 code units in all) is taken apart where it was put
  together: [getBaseName] gives the part in front of the last dot and
  [getExtension] the part behind it. *)
Theorem getBaseName_getExtension_split pre post :
  Z.of_nat (String.length (pre +:+ "." +:+ post)) < 2 ^ 32 ->
  pre <> EmptyString -> dotless post ->
  getBaseName (pre +:+ "." +:+ post) = pre /\
  getExtension (pre +:+ "." +:+ post) = post.
Proof. apply file_name_dotted. Qed.

(** X2. Whenever [getExtension] of a name (shorter than 2^32 code units)
  is not empty, the name is its base name, a dot and its extension; the
  base name is then not empty and the extension holds no dot. *)
Theorem getBaseName_getExtension_join name :
  Z.of_nat (String.length name) < 2 ^ 32 -> getExtension name <> EmptyString ->
  name = getBaseName name +:+ "." +:+ getExtension name /\
  getBaseName name <> EmptyString /\ dotless (getExtension name).
Proof. apply file_name_joined. Qed.

(** X3. [getExtension] gives the empty text exactly for the names without
  a dot, for the names whose only dot is the first code unit (hidden
  files) and for the names that end in a dot. *)
Theorem getExtension_empty name :
  Z.of_nat (String.length name) < 2 ^ 32 ->
  getExtension name = EmptyString <->
  dotless name \/ (exists post, name = "." +:+ post /\ dotless post) \/
  (exists pre, name = pre +:+ ".").
Proof.
  intros Hlen. split.
  - intros Hext.
    destruct (file_name_shapes name Hlen)
      as [(? & _)|[(post & ? & ? & _)|(pre & post & _ & Heq & _ & _ & He)]].
    + by left.
    + right; left. by exists post.
    + right; right. exists pre. by rewrite Heq, <- He, Hext.
  - intros [Hd|[(post & -> & Hd)|(pre & ->)]].
    + by apply file_name_plain.
    + by apply file_name_hidden.
    + destruct pre as [|c pre].
      * by apply (file_name_hidden EmptyString).
      * by apply (file_name_dotted (String c pre) EmptyString).
Qed.
End FileNames.

(** ** Final names *)

Section FinalNames.
Implicit Types (f item : FileItem.t) (globalConfig : GlobalConfig.t) (e : string).

(** The extension that [getFinalName] settles on. *)
Local Abbreviation ext_of globalConfig f :=
  (JS.or (JS.or (FileItem.extension f) (GlobalConfig.extension globalConfig))
     (getExtension (FileItem.originalName f))).

Lemma elem_of_scanEntries_fields item entries :
  item ∈ scanEntries entries ->
  FileItem.customBaseName item = getBaseName (FileItem.originalName item) /\
  FileItem.prefix item = EmptyString /\ FileItem.suffix item = EmptyString /\
  FileItem.extension item = getExtension (FileItem.originalName item) /\
  FileItem.status item = pending /\ FileItem.errorMessage item = None.
Proof.
  induction entries as [|[h file uuid|] rest IH]; simpl.
  - intros H. by apply elem_of_nil in H.
  - intros [->|H]%elem_of_cons; [done | by apply IH].
  - apply IH.
Qed.

Lemma append_inj_l p s t : p +:+ s = p +:+ t -> s = t.
Proof.
  induction p as [|c p IH]; [done|]. rewrite !append_cons. intros [= Heq]. by apply IH.
Qed.

Lemma AppPlain_getFinalName_dot globalConfig f :
  JS.startsWith (ext_of globalConfig f) "." = false ->
  AppPlain.getFinalName globalConfig f = AppCollision.getFinalName globalConfig f.
Proof.
  unfold AppPlain.getFinalName, AppCollision.getFinalName.
  destruct (ext_of globalConfig f) as [|c e]; [done|].
  intros ->. reflexivity.
Qed.

Lemma AppPlain_getFinalName_two_dots globalConfig f :
  JS.startsWith (ext_of globalConfig f) "." = true ->
  AppPlain.getFinalName globalConfig f
  = JS.or (FileItem.prefix f) (GlobalConfig.prefix globalConfig)
    +:+ FileItem.customBaseName f
    +:+ JS.or (FileItem.suffix f) (GlobalConfig.suffix globalConfig)
    +:+ "." +:+ ext_of globalConfig f /\
  AppCollision.getFinalName globalConfig f
  = JS.or (FileItem.prefix f) (GlobalConfig.prefix globalConfig)
    +:+ FileItem.customBaseName f
    +:+ JS.or (FileItem.suffix f) (GlobalConfig.suffix globalConfig)
    +:+ ext_of globalConfig f.
Proof.
  unfold AppPlain.getFinalName, AppCollision.getFinalName.
  destruct (ext_of globalConfig f) as [|c e]; [done|].
  intros ->. split; reflexivity.
Qed.

(** X4. The three revisions of [getFinalName] against each other: with an
  empty find text the revision with find/replace derives the name of
  the revision with the collision check; the revision without sorting
  derives that name too if and only if the extension the name is given
  does not start with a dot (it would write a second dot in front). *)
Theorem getFinalName_revisions_agree globalConfig f :
  (GlobalConfig.find globalConfig = EmptyString ->
   App.getFinalName globalConfig f = AppCollision.getFinalName globalConfig f) /\
  (AppPlain.getFinalName globalConfig f = AppCollision.getFinalName globalConfig f
   <-> JS.startsWith (ext_of globalConfig f) "." = false).
Proof.
  split; [apply getFinalName_agree|]. split; [|apply AppPlain_getFinalName_dot].
  intros Heq. destruct (JS.startsWith _ ".") eqn:Hs; [|done].
  destruct (AppPlain_getFinalName_two_dots globalConfig f Hs) as [H1 H2].
  rewrite H1, H2 in Heq.
  do 3 apply append_inj_l in Heq.
  apply (f_equal String.length) in Heq. rewrite length_append in Heq.
  simpl in Heq. lia.
Qed.

(** The name of an item as the scan made it, under a configuration
    that adds nothing. *)
Lemma scanned_getFinalName item entries globalConfig :
  item ∈ scanEntries entries -> neutral globalConfig ->
  let name := FileItem.originalName item in
  Z.of_nat (String.length name) < 2 ^ 32 ->
  AppCollision.getFinalName globalConfig item
  = getBaseName name
    +:+ (if decide (getExtension name = EmptyString) then EmptyString else "." +:+ getExtension name) /\
  AppPlain.getFinalName globalConfig item = AppCollision.getFinalName globalConfig item.
Proof.
  intros (Hb & Hp & Hs & He & _)%elem_of_scanEntries_fields (Hgp & Hgs & Hge) name Hlen.
  assert (JS.startsWith (ext_of globalConfig item) "." = false) as Hdot.
  { rewrite He, Hge. fold name.
    destruct (decide (getExtension name = EmptyString)) as [->|Hne]; [done|].
    destruct (file_name_joined name Hlen Hne) as (_ & _ & Hd).
    destruct (getExtension name) as [|c e]; [done|].
    apply dotless_cons in Hd as [Hc _]. cbn [JS.or]. rewrite startsWith_dot.
    by case_decide. }
  split; [|by apply AppPlain_getFinalName_dot].
  unfold AppCollision.getFinalName. rewrite Hdot.
  rewrite Hb, Hp, Hs, He, Hgp, Hgs, Hge. fold name.
  cbn [JS.or]. rewrite !append_nil_l.
  destruct (getExtension name) as [|c e] eqn:E; [done|].
  cbn [JS.or JS.truthy andb negb]. rewrite decide_False by done. reflexivity.
Qed.

Lemma scanned_names_kept item entries globalConfig :
  item ∈ scanEntries entries -> neutral globalConfig ->
  GlobalConfig.find globalConfig = EmptyString ->
  Z.of_nat (String.length (FileItem.originalName item)) < 2 ^ 32 ->
  dotless (FileItem.originalName item)
  \/ getExtension (FileItem.originalName item) <> EmptyString ->
  App.getFinalName globalConfig item = FileItem.originalName item /\
  AppCollision.getFinalName globalConfig item = FileItem.originalName item /\
  AppPlain.getFinalName globalConfig item = FileItem.originalName item.
Proof.
  intros Hitem Hn Hfind Hlen Hshape.
  destruct (scanned_getFinalName item entries globalConfig Hitem Hn Hlen) as [Hc Hp].
  rewrite (getFinalName_agree _ _ Hfind), Hp.
  assert (AppCollision.getFinalName globalConfig item = FileItem.originalName item)
    as ->; [|done].
  rewrite Hc. destruct Hshape as [Hd|Hext].
  - destruct (file_name_plain _ Hlen Hd) as [-> ->].
    rewrite decide_True by done. apply append_nil_r.
  - rewrite decide_False by done.
    by destruct (file_name_joined _ Hlen Hext) as (<- & _).
Qed.

(** X5. An item as the scan made it keeps its name: under a configuration
  with empty prefix, suffix, extension and find text, every revision of
  [getFinalName] gives its original name back, provided the name holds
  no dot or has a non-empty extension. *)
Theorem scanned_item_keeps_its_name item entries globalConfig :
  item ∈ scanEntries entries -> neutral globalConfig ->
  GlobalConfig.find globalConfig = EmptyString ->
  Z.of_nat (String.length (FileItem.originalName item)) < 2 ^ 32 ->
  dotless (FileItem.originalName item)
  \/ getExtension (FileItem.originalName item) <> EmptyString ->
  App.getFinalName globalConfig item = FileItem.originalName item /\
  AppCollision.getFinalName globalConfig item = FileItem.originalName item /\
  AppPlain.getFinalName globalConfig item = FileItem.originalName item.
Proof. apply scanned_names_kept. Qed.

(** X6. The items of a scan that do not keep their name: under a
  configuration with empty prefix, suffix and extension the final name
  of a hidden file (a dot followed by a text without a dot) is the empty
  text, and the final name of a file whose name ends in a dot is that
  name without the dot. *)
Theorem scanned_item_loses_its_dot item entries globalConfig :
  item ∈ scanEntries entries -> neutral globalConfig ->
  Z.of_nat (String.length (FileItem.originalName item)) < 2 ^ 32 ->
  (forall post,
     FileItem.originalName item = "." +:+ post -> dotless post ->
     AppCollision.getFinalName globalConfig item = EmptyString /\
     AppPlain.getFinalName globalConfig item = EmptyString) /\
  (forall pre,
     FileItem.originalName item = pre +:+ "." -> pre <> EmptyString ->
     AppCollision.getFinalName globalConfig item = pre /\
     AppPlain.getFinalName globalConfig item = pre).
Proof.
  intros Hitem Hn Hlen.
  destruct (scanned_getFinalName item entries globalConfig Hitem Hn Hlen) as [Hc ->].
  rewrite Hc. split.
  - intros post Hname Hd. rewrite Hname in Hlen |- *.
    destruct (file_name_hidden post Hlen Hd) as [-> ->]. by rewrite decide_True.
  - intros pre Hname Hpre. rewrite Hname in Hlen |- *.
    change (pre +:+ ".") with (pre +:+ "." +:+ EmptyString) in Hlen |- *.
    destruct (file_name_dotted pre EmptyString Hlen Hpre dotless_nil) as [-> ->].
    rewrite decide_True by done. by rewrite append_nil_r.
Qed.

(** What [split] and [join] make of a text that does not hold [find]. *)
Lemma ReplacedAll_absent find rep s out :
  JS.includes s find = false -> ReplacedAll find rep s out -> out = s.
Proof.
  intros Hin Hr. induction Hr as [|rest out Hne _ _|c s out Hp _ IH]; [done| |].
  - destruct find as [|d find']; [done|].
    rewrite append_cons in Hin. cbn [JS.includes] in Hin.
    rewrite <- append_cons, prefix_append in Hin. done.
  - cbn [JS.includes] in Hin. apply orb_false_iff in Hin as [_ Hin].
    f_equal. by apply IH.
Qed.

(** X7. Find and replace is without effect when the replacement is the find
  text itself, and when the find text does not occur in the custom base
  name: the name is the one derived without find and replace. *)
Theorem find_replace_without_effect globalConfig f :
  GlobalConfig.find globalConfig = GlobalConfig.replace globalConfig
  \/ JS.includes (FileItem.customBaseName f) (GlobalConfig.find globalConfig) = false ->
  App.getFinalName globalConfig f = AppCollision.getFinalName globalConfig f.
Proof.
  intros Hcase. unfold App.getFinalName, AppCollision.getFinalName.
  destruct (GlobalConfig.find globalConfig) as [|c find'] eqn:Hfind; [done|].
  cbn [String.eqb negb].
  assert (JS.join (JS.split (FileItem.customBaseName f) (String c find'))
            (GlobalConfig.replace globalConfig) = FileItem.customBaseName f) as ->; [|done].
  destruct Hcase as [<-|Hin].
  - by apply split_join.
  - eapply ReplacedAll_absent; [done|]. by apply split_join_replaced.
Qed.
End FinalNames.

(** ** The field of the global extension *)

Section GlobalExtension.
Implicit Types (value pre post : string) (prev : GlobalConfig.t).

Lemma replaceFirst_dotless value : dotless value -> replaceFirst value "." EmptyString = value.
Proof.
  induction value as [|c s IH]; [done|].
  intros [Hc Hd]%dotless_cons. cbn [replaceFirst]. rewrite prefix_dot_cons.
  rewrite decide_False by done. by rewrite IH.
Qed.

Lemma replaceFirst_first_dot pre post :
  dotless pre -> replaceFirst (pre +:+ "." +:+ post) "." EmptyString = pre +:+ post.
Proof.
  induction pre as [|c pre IH].
  { intros _. rewrite !append_nil_l. change ("." +:+ post) with (String "." post).
    cbn [replaceFirst]. rewrite prefix_dot_cons, decide_True by done.
    apply append_nil_l. }
  intros [Hc Hd]%dotless_cons. rewrite !(append_cons c pre). cbn [replaceFirst].
  rewrite prefix_dot_cons, decide_False by done. by rewrite IH.
Qed.

Lemma dotless_append s1 s2 : dotless s1 -> dotless s2 -> dotless (s1 +:+ s2).
Proof.
  induction s1 as [|c s1 IH]; [done|].
  rewrite append_cons, !dotless_cons. tauto.
Qed.

(** X8. The field of the global extension stores what is typed without
  its first dot and leaves the rest of the configuration alone: a text
  without a dot is stored as it is, and for a text with a dot the part
  in front of the first dot is joined to the part behind it, so that
  the stored extension holds no dot exactly when the part behind the
  first dot held none. *)
Theorem setGlobalExtension_first_dot prev :
  (forall value,
     dotless value ->
     setGlobalExtension value prev = GlobalConfig.with_extension value prev) /\
  (forall pre post,
     dotless pre ->
     setGlobalExtension (pre +:+ "." +:+ post) prev
     = GlobalConfig.with_extension (pre +:+ post) prev /\
     (dotless (GlobalConfig.extension (setGlobalExtension (pre +:+ "." +:+ post) prev))
      <-> dotless post)).
Proof.
  unfold setGlobalExtension. split.
  - intros value Hd. by rewrite replaceFirst_dotless.
  - intros pre post Hd. rewrite replaceFirst_first_dot by done. split; [done|].
    destruct prev. cbn. split.
    + by intros [_ ?]%dotless_app.
    + by apply dotless_append.
Qed.
End GlobalExtension.

(** ** The visible set under renaming *)

Section KeyStability.
Context `{JS.Runtime} {B : Type} (key : FileItem.t -> B).
Implicit Types (l : list FileItem.t).

Lemma filter_key (P : FileItem.t -> Prop) `{!forall x, Decision (P x)} l l' :
  (forall x y, key x = key y -> P x <-> P y) ->
  key <$> l = key <$> l' ->
  key <$> filter P l = key <$> filter P l'.
Proof.
  intros HP. revert l'. induction l as [|x l IH]; intros [|y l'] Heq;
    try done.
  apply fmap_cons_eq in Heq as [Hxy Hl].
  rewrite !filter_cons.
  destruct (decide (P x)) as [Hx|Hx], (decide (P y)) as [Hy|Hy].
  - rewrite !fmap_cons. f_equal; [done | by apply IH].
  - destruct Hy. by eapply HP.
  - destruct Hx. by eapply HP.
  - by apply IH.
Qed.

Lemma insert_sorted_key (cmp : FileItem.t -> FileItem.t -> Z) x x' l l' :
  (forall a a' b b', key a = key a' -> key b = key b' -> cmp a b = cmp a' b') ->
  key x = key x' -> key <$> l = key <$> l' ->
  key <$> JS.insert_sorted cmp x l = key <$> JS.insert_sorted cmp x' l'.
Proof.
  intros Hcmp Hx. revert l'. induction l as [|y l IH]; intros [|y' l'] Heq;
    try done; simpl.
  - by rewrite Hx.
  - apply fmap_cons_eq in Heq as [Hy Hl].
    rewrite (Hcmp x x' y y') by done.
    destruct (0 <? cmp x' y'); rewrite !fmap_cons; f_equal; try done.
    + by apply IH.
    + by f_equal.
Qed.

Lemma sort_key (cmp : FileItem.t -> FileItem.t -> Z) l l' :
  (forall a a' b b', key a = key a' -> key b = key b' -> cmp a b = cmp a' b') ->
  key <$> l = key <$> l' ->
  key <$> JS.sort cmp l = key <$> JS.sort cmp l'.
Proof.
  intros Hcmp. revert l'. induction l as [|x l IH]; intros [|x' l'] Heq;
    try done; simpl.
  apply fmap_cons_eq in Heq as [Hx Hl].
  apply insert_sorted_key; [done..|]. by apply IH.
Qed.
End KeyStability.

Section Renaming.
Context `{JS.Runtime}.
Implicit Types (files visible l : list FileItem.t) (filters : FilterState.t)
  (f x y : FileItem.t).

Lemma stamp_inv x y :
  stamp x = stamp y ->
  FileItem.id x = FileItem.id y /\ FileItem.originalName x = FileItem.originalName y /\
  FileItem.size x = FileItem.size y /\ FileItem.lastModified x = FileItem.lastModified y.
Proof. unfold stamp. by intros [= ? _ ? ? ? _]. Qed.

Lemma clauses_stamp filters x y :
  stamp x = stamp y ->
  matchesSearch filters x = matchesSearch filters y /\
  matchesSize filters x = matchesSize filters y /\
  matchesDate filters x = matchesDate filters y.
Proof.
  intros (_ & Hn & Hs & Hd)%stamp_inv.
  unfold matchesSearch, matchesSize, matchesDate. by rewrite Hn, Hs, Hd.
Qed.

Lemma compareBy_stamp sort a a' b b' :
  stamp a = stamp a' -> stamp b = stamp b' -> compareBy sort a b = compareBy sort a' b'.
Proof.
  intros (_ & Ha1 & Ha2 & Ha3)%stamp_inv (_ & Hb1 & Hb2 & Hb3)%stamp_inv.
  destruct sort; simpl; congruence.
Qed.

(** The visible set is made from what the stamp holds. *)
Lemma views_stamp view files files' filters :
  view ∈ views -> stamp <$> files = stamp <$> files' ->
  stamp <$> view files filters = stamp <$> view files' filters.
Proof.
  intros Hview Hst.
  assert (stamp <$> filter (fun f => matchesSearch filters f && matchesSize filters f
                                     && matchesDate filters f) files
          = stamp <$> filter (fun f => matchesSearch filters f && matchesSize filters f
                                       && matchesDate filters f) files') as Hfull.
  { apply filter_key; [|done]. intros x y (-> & -> & ->)%(clauses_stamp filters). done. }
  assert (stamp <$> filter (fun f => matchesSearch filters f && matchesDate filters f) files
          = stamp <$> filter (fun f => matchesSearch filters f && matchesDate filters f)
                        files') as Hpart.
  { apply filter_key; [|done]. intros x y (-> & _ & ->)%(clauses_stamp filters). done. }
  unfold views in Hview. rewrite !elem_of_cons in Hview.
  destruct Hview as [->|[->|[->|Hview]]]; [..|by apply elem_of_nil in Hview].
  - unfold App.filteredFiles.
    assert (stamp <$> JS.sort (compareBy (FilterState.sort filters))
              (filter (fun f => matchesSearch filters f && matchesDate filters f) files)
            = stamp <$> JS.sort (compareBy (FilterState.sort filters))
              (filter (fun f => matchesSearch filters f && matchesDate filters f) files'))
      as Hs by (apply sort_key; [apply compareBy_stamp | done]).
    destruct (FilterState.limit filters) as [n|]; [|done].
    destruct (0 <? n); [|done]. by rewrite !fmap_take, Hs.
  - unfold AppCollision.filteredFiles. apply sort_key; [apply compareBy_stamp | done].
  - done.
Qed.

Lemma setField_stamp fld v x : stamp (setField fld v x) = stamp x.
Proof. by destruct x, fld. Qed.

Lemma editField_stamp fld target v files :
  stamp <$> editField fld target v files = stamp <$> files.
Proof.
  unfold editField. rewrite <- list_fmap_compose. apply list_fmap_ext.
  intros i x _. unfold compose. cbv beta zeta. destruct (String.eqb _ _); [apply setField_stamp | done].
Qed.

Lemma with_customBaseName_stamp n x : stamp (FileItem.with_customBaseName n x) = stamp x.
Proof. by destruct x. Qed.

Lemma applyPastedNames_stamp text visible files :
  stamp <$> applyPastedNames text visible files = stamp <$> files.
Proof.
  unfold applyPastedNames. rewrite <- list_fmap_compose. apply list_fmap_ext.
  intros i x _. unfold compose. cbv beta zeta.
  destruct (indexById _ _) as [p|]; [|done].
  destruct (pastedLines text !! p) as [n|]; [|done].
  destruct (JS.truthy n); [apply with_customBaseName_stamp | done].
Qed.

Lemma stamp_ids l l' : stamp <$> l = stamp <$> l' -> FileItem.id <$> l = FileItem.id <$> l'.
Proof.
  intros Hst. apply (f_equal (fmap (fun s => s.1.1.1.1.1))) in Hst.
  by rewrite <- !list_fmap_compose in Hst.
Qed.

(** X9. Renaming never moves a row: in every revision, the visible set
  after an inline edit of a cell and after pasting names holds the same
  items (identifier, handle, original name, size, time stamp and type)
  in the same order as before. *)
Theorem renaming_keeps_the_visible_rows view files filters :
  view ∈ views ->
  (forall fld target v,
     stamp <$> view (editField fld target v files) filters
     = stamp <$> view files filters) /\
  (forall text visible,
     stamp <$> view (applyPastedNames text visible files) filters
     = stamp <$> view files filters).
Proof.
  intros Hview. split.
  - intros fld target v. apply views_stamp; [done | apply editField_stamp].
  - intros text visible. apply views_stamp; [done | apply applyPastedNames_stamp].
Qed.

Lemma with_customBaseName_twice n x :
  FileItem.with_customBaseName n (FileItem.with_customBaseName n x)
  = FileItem.with_customBaseName n x.
Proof. by destruct x. Qed.

Lemma with_customBaseName_id n x : FileItem.id (FileItem.with_customBaseName n x) = FileItem.id x.
Proof. by destruct x. Qed.

Lemma applyPastedNames_again text visible visible' files :
  FileItem.id <$> visible' = FileItem.id <$> visible ->
  applyPastedNames text visible' (applyPastedNames text visible files)
  = applyPastedNames text visible files.
Proof.
  intros Hids. unfold applyPastedNames at 1 2.
  rewrite <- list_fmap_compose. apply list_fmap_ext. intros i x _. unfold compose. cbv beta zeta.
  assert (forall k, indexById k visible' = indexById k visible) as Hidx
    by (intros k; by apply indexById_ids).
  destruct (indexById (FileItem.id x) visible) as [p|] eqn:Hp; [|by rewrite Hidx, Hp].
  destruct (pastedLines text !! p) as [n|] eqn:Hn; [|by rewrite Hidx, Hp, Hn].
  destruct (JS.truthy n) eqn:Ht; [|by rewrite Hidx, Hp, Hn, Ht].
  rewrite with_customBaseName_id, Hidx, Hp, Hn, Ht.
  apply with_customBaseName_twice.
Qed.

(** X10. Pasting the same names a second time, against the visible set of
  the collection that the first paste left, changes nothing. *)
Theorem applyPastedNames_idempotent view text files filters :
  view ∈ views ->
  applyPastedNames text
    (view (applyPastedNames text (view files filters) files) filters)
    (applyPastedNames text (view files filters) files)
  = applyPastedNames text (view files filters) files.
Proof.
  intros Hview. apply applyPastedNames_again, stamp_ids, views_stamp; [done|].
  apply applyPastedNames_stamp.
Qed.
End Renaming.

(** ** Pasted names and inline edits *)

Section Trim.
Implicit Types (s t : string).

Lemma trimStart_suffix s : exists a, s = a +:+ JS.trimStart s.
Proof.
  induction s as [|c s [a IH]]; [by exists EmptyString|].
  cbn [JS.trimStart]. destruct (JS.isWhiteSpace c).
  - exists (String c a). rewrite append_cons. by f_equal.
  - by exists EmptyString.
Qed.

Lemma trimEnd_prefix s : exists b, s = JS.trimEnd s +:+ b.
Proof.
  induction s as [|c s [b IH]]; [by exists EmptyString|].
  cbn [JS.trimEnd]. destruct (JS.trimEnd s) as [|d t].
  - rewrite append_nil_l in IH. destruct (JS.isWhiteSpace c).
    + by exists (String c s).
    + exists s. by rewrite append_cons, append_nil_l.
  - exists b. rewrite append_cons. by f_equal.
Qed.

Lemma trim_inside s : exists a b, s = a +:+ JS.trim s +:+ b.
Proof.
  destruct (trimStart_suffix s) as [a Ha]. unfold JS.trim.
  destruct (trimEnd_prefix (JS.trimStart s)) as [b Hb].
  exists a, b. by rewrite <- Hb.
Qed.

Lemma trimEnd_trimEnd s : JS.trimEnd (JS.trimEnd s) = JS.trimEnd s.
Proof.
  induction s as [|c s IH]; [done|].
  cbn [JS.trimEnd]. destruct (JS.trimEnd s) as [|d t] eqn:E.
  - destruct (JS.isWhiteSpace c) eqn:Hc; [done|]. cbn [JS.trimEnd]. by rewrite Hc.
  - change (JS.trimEnd (String c (String d t)))
      with (match JS.trimEnd (String d t) with
            | EmptyString => if JS.isWhiteSpace c then EmptyString else String c EmptyString
            | String _ _ as u => String c u
            end).
    by rewrite IH.
Qed.

Lemma trimStart_head s :
  match JS.trimStart s with
  | EmptyString => True
  | String c _ => JS.isWhiteSpace c = false
  end.
Proof.
  induction s as [|c s IH]; [done|].
  cbn [JS.trimStart]. by destruct (JS.isWhiteSpace c) eqn:Hc.
Qed.

Lemma trimEnd_head c s :
  JS.isWhiteSpace c = false -> exists t, JS.trimEnd (String c s) = String c t.
Proof.
  intros Hc. cbn [JS.trimEnd]. destruct (JS.trimEnd s) as [|d t]; [|by eexists].
  rewrite Hc. by eexists.
Qed.

(** A trimmed text has nothing left to trim. *)
Lemma trim_trim s : JS.trim (JS.trim s) = JS.trim s.
Proof.
  unfold JS.trim. pose proof (trimStart_head s) as Hh.
  destruct (JS.trimStart s) as [|c u]; [done|].
  destruct (trimEnd_head c u Hh) as [t Ht]. rewrite Ht.
  cbn [JS.trimStart]. rewrite Hh, <- Ht. apply trimEnd_trimEnd.
Qed.

Lemma includes_inside a s b t :
  JS.includes (a +:+ s +:+ b) t = false -> JS.includes s t = false.
Proof.
  intros Hin. destruct (JS.includes s t) eqn:E; [|done].
  apply includes_spec in E as (pre & post & ->).
  assert (JS.includes (a +:+ (pre +:+ t +:+ post) +:+ b) t = true) as Ht; [|congruence].
  apply includes_spec. exists (a +:+ pre), (post +:+ b).
  by rewrite !append_assoc.
Qed.
End Trim.

Section PasteAndEdits.
Implicit Types (visible prev : list FileItem.t) (f : FileItem.t).

(** X11. A base name that pasting changes is never empty, has no white
  space at either end and holds no line feed; nothing else of the item
  changes. *)
Theorem applyPastedNames_assigns_trimmed_names text visible prev i f f' :
  prev !! i = Some f ->
  applyPastedNames text visible prev !! i = Some f' ->
  f' <> f ->
  f' = FileItem.with_customBaseName (FileItem.customBaseName f') f /\
  FileItem.customBaseName f' <> EmptyString /\
  JS.trim (FileItem.customBaseName f') = FileItem.customBaseName f' /\
  JS.includes (FileItem.customBaseName f') (String "010" EmptyString) = false.
Proof.
  intros Hf. unfold applyPastedNames. rewrite list_lookup_fmap, Hf.
  cbn [fmap option_fmap option_map]. intros [= <-].
  destruct (indexById (FileItem.id f) visible) as [p|]; [|done].
  destruct (pastedLines text !! p) as [n|] eqn:Hn; [|done].
  destruct (JS.truthy n); [|done]. intros _.
  apply list_elem_of_lookup_2 in Hn. unfold pastedLines in Hn.
  apply list_elem_of_filter in Hn as [Hne Hline].
  destruct f; cbn. split_and!; [done..|apply trim_trim|].
  pose proof (split_lines_clean text) as Hclean.
  rewrite Forall_forall in Hclean. specialize (Hclean n Hline).
  destruct (trim_inside n) as (a & b & Heq). rewrite Heq in Hclean.
  by apply includes_inside in Hclean.
Qed.

Lemma setField_id fld v f : FileItem.id (setField fld v f) = FileItem.id f.
Proof. by destruct f, fld. Qed.

Lemma setField_commute fld1 fld2 v1 v2 f :
  fld1 <> fld2 ->
  setField fld1 v1 (setField fld2 v2 f) = setField fld2 v2 (setField fld1 v1 f).
Proof. by destruct f, fld1, fld2. Qed.

Lemma setField_twice fld v1 v2 f :
  setField fld v1 (setField fld v2 f) = setField fld v1 f.
Proof. by destruct f, fld. Qed.

(** X12. Inline edits of different cells (another field, or another item)
  can be made in either order; of two edits of one cell the later one
  stays; an edit for an identifier that is not in the collection
  changes nothing. *)
Theorem editField_cells fld1 fld2 t1 t2 v1 v2 prev :
  (fld1 <> fld2 \/ t1 <> t2 ->
   editField fld1 t1 v1 (editField fld2 t2 v2 prev)
   = editField fld2 t2 v2 (editField fld1 t1 v1 prev)) /\
  editField fld1 t1 v1 (editField fld1 t1 v2 prev) = editField fld1 t1 v1 prev /\
  (t1 ∉ FileItem.id <$> prev -> editField fld1 t1 v1 prev = prev).
Proof.
  unfold editField. rewrite <- !list_fmap_compose. split_and!.
  - intros Hcell. apply list_fmap_ext. intros i x _. unfold compose. cbv beta.
    destruct (String.eqb (FileItem.id x) t1) eqn:E1,
             (String.eqb (FileItem.id x) t2) eqn:E2;
      rewrite ?setField_id, ?E1, ?E2; try done.
    apply String.eqb_eq in E1, E2. destruct Hcell as [Hf|Ht]; [|congruence].
    by apply setField_commute.
  - apply list_fmap_ext. intros i x _. unfold compose. cbv beta.
    destruct (String.eqb (FileItem.id x) t1) eqn:E1; rewrite ?setField_id, E1; [|done].
    apply setField_twice.
  - intros Hout. rewrite <- (list_fmap_id prev) at 2. apply list_fmap_ext.
    intros i x Hx. destruct (String.eqb (FileItem.id x) t1) eqn:E1; [|done].
    apply String.eqb_eq in E1. destruct Hout. rewrite <- E1.
    apply list_elem_of_fmap_2. by eapply list_elem_of_lookup_2.
Qed.
End PasteAndEdits.

(** ** The order of the visible set *)

Section Ordered.
Context {A : Type} (cmp : A -> A -> Z).
Implicit Types (l : list A) (x y : A).

Local Abbreviation R := (fun x y => cmp x y <= 0).

Lemma ordered_cons x l : ordered R (x :: l) <-> Forall (R x) l /\ ordered R l.
Proof.
  unfold ordered. split.
  - intros Hord. split.
    + apply Forall_lookup. intros j y Hy. apply (Hord 0%nat (S j) x y); [lia|done..].
    + intros i j a b Hij Ha Hb. apply (Hord (S i) (S j) a b); [lia|done..].
  - intros [Hx Hord] [|i] [|j] a b Hij Ha Hb; try lia.
    + injection Ha as <-. cbn in Hb. by eapply (proj1 (Forall_lookup _ _) Hx).
    + apply (Hord i j a b); [lia|done..].
Qed.

Lemma ordered_nil : ordered R [].
Proof. intros i j x y _ Hx. by rewrite lookup_nil in Hx. Qed.

Lemma ordered_take n l : ordered R l -> ordered R (take n l).
Proof.
  intros Hord i j x y Hij Hx Hy. rewrite lookup_take in Hx, Hy.
  repeat case_decide; try done. by apply (Hord i j).
Qed.

Lemma consistent_spec l :
  consistent cmp l <->
  (forall a b, a ∈ l -> b ∈ l -> 0 < cmp a b -> cmp b a <= 0) /\
  (forall a b c, a ∈ l -> b ∈ l -> c ∈ l -> cmp a b <= 0 -> cmp b c <= 0 -> cmp a c <= 0).
Proof.
  unfold consistent. split.
  - intros Hc. split.
    + intros a b Ha Hb. rewrite Forall_forall in Hc. specialize (Hc a Ha).
      rewrite Forall_forall in Hc. by destruct (Hc b Hb).
    + intros a b c Ha Hb Hc'. rewrite Forall_forall in Hc. specialize (Hc a Ha).
      rewrite Forall_forall in Hc. destruct (Hc b Hb) as [_ Ht].
      rewrite Forall_forall in Ht. by apply Ht.
  - intros [Htot Htr]. apply Forall_forall. intros a Ha.
    apply Forall_forall. intros b Hb. split; [by apply Htot|].
    apply Forall_forall. intros c Hc. by apply Htr.
Qed.

Lemma consistent_sublist l k : k ⊆ l -> consistent cmp l -> consistent cmp k.
Proof.
  rewrite !consistent_spec. intros Hsub [Htot Htr]. split.
  - intros a b Ha Hb. apply Htot; by apply Hsub.
  - intros a b c Ha Hb Hc. apply Htr; by apply Hsub.
Qed.

Lemma elem_of_skip x y l a : a ∈ x :: l -> a ∈ x :: y :: l.
Proof. rewrite !elem_of_cons. tauto. Qed.

Lemma insert_sorted_ordered x l :
  consistent cmp (x :: l) -> ordered R l -> ordered R (JS.insert_sorted cmp x l).
Proof.
  rewrite consistent_spec. intros [Htot Htr].
  induction l as [|y l IH]; intros Hord.
  - simpl. apply ordered_cons. split; [constructor | apply ordered_nil].
  - simpl. apply ordered_cons in Hord as [Hy Hord].
    destruct (0 <? cmp x y) eqn:E.
    + apply Z.ltb_lt in E. apply ordered_cons. split.
      * rewrite (insert_sorted_perm cmp x l). constructor; [|done].
        apply Htot; [by left | by right; left | done].
      * apply IH; [| |done].
        -- intros a b Ha Hb. apply Htot; by apply elem_of_skip.
        -- intros a b c Ha Hb Hc. apply Htr; by apply elem_of_skip.
    + apply Z.ltb_ge in E. apply ordered_cons. split.
      * constructor; [done|]. rewrite Forall_forall in Hy |- *.
        intros z Hz. apply (Htr x y z); [by left | by right; left | |done|by apply Hy].
        by right; right.
      * apply ordered_cons. by split.
Qed.

Lemma sort_ordered l : consistent cmp l -> ordered R (JS.sort cmp l).
Proof.
  induction l as [|x l IH]; [intros _; apply ordered_nil|].
  intros Hc. simpl. apply insert_sorted_ordered.
  - apply (consistent_sublist (x :: l)); [|done].
    intros z. rewrite !elem_of_cons, elem_of_sort. tauto.
  - apply IH. apply (consistent_sublist (x :: l)); [|done]. intros z Hz. by right.
Qed.
End Ordered.

Section VisibleOrder.
Context `{JS.Runtime}.
Implicit Types (files : list FileItem.t) (filters : FilterState.t).

Lemma compareBy_numeric_consistent sort files :
  sort ∉ [name_asc; name_desc] -> consistent (compareBy sort) files.
Proof.
  intros Hs. apply consistent_spec.
  rewrite !not_elem_of_cons in Hs. destruct Hs as (? & ? & _).
  destruct sort; try done; simpl; split; intros; lia.
Qed.

Lemma filteredFiles_ordered_if files filters :
  consistent (compareBy (FilterState.sort filters)) files ->
  ordered (fun a b => compareBy (FilterState.sort filters) a b <= 0)
    (App.filteredFiles files filters) /\
  ordered (fun a b => compareBy (FilterState.sort filters) a b <= 0)
    (AppCollision.filteredFiles files filters).
Proof.
  intros Hc. split.
  - destruct (App_filteredFiles_take files filters) as [n ->].
    apply ordered_take. unfold App.filteredFiles. cbn.
    apply sort_ordered. eapply consistent_sublist; [|done].
    intros z Hz. by apply list_elem_of_filter in Hz as [_ ?].
  - unfold AppCollision.filteredFiles.
    apply sort_ordered. eapply consistent_sublist; [|done].
    intros z Hz. by apply list_elem_of_filter in Hz as [_ ?].
Qed.

(** X13. When the comparator of the chosen sort key arranges the items of
  the collection consistently (of two items one sorts before the other,
  transitively), the visible set of the revisions that sort is in that
  order: no item sorts strictly after a later one. *)
Theorem filteredFiles_ordered files filters :
  consistent (compareBy (FilterState.sort filters)) files ->
  ordered (fun a b => compareBy (FilterState.sort filters) a b <= 0)
    (App.filteredFiles files filters) /\
  ordered (fun a b => compareBy (FilterState.sort filters) a b <= 0)
    (AppCollision.filteredFiles files filters).
Proof. apply filteredFiles_ordered_if. Qed.

Lemma filteredFiles_ordered_numeric files filters view :
  view ∈ [App.filteredFiles; AppCollision.filteredFiles] ->
  FilterState.sort filters <> name_asc -> FilterState.sort filters <> name_desc ->
  forall i j x y,
    (i < j)%nat -> view files filters !! i = Some x -> view files filters !! j = Some y ->
    compareBy (FilterState.sort filters) x y <= 0.
Proof.
  intros Hview Hs1 Hs2.
  assert (FilterState.sort filters ∉ [name_asc; name_desc]) as Hs.
  { rewrite !not_elem_of_cons. split_and!; [done..|apply not_elem_of_nil]. }
  destruct (filteredFiles_ordered_if files filters
              (compareBy_numeric_consistent _ files Hs)) as [H1 H2].
  rewrite !elem_of_cons in Hview.
  destruct Hview as [->|[->|Hview]]; [done..|by apply elem_of_nil in Hview].
Qed.

(** X14. For the sort keys on numbers the visible set of the revisions
  that sort is always in order: by time stamp or by size, rising or
  falling as chosen. *)
Theorem filteredFiles_ordered_by_number files filters view :
  view ∈ [App.filteredFiles; AppCollision.filteredFiles] ->
  match FilterState.sort filters with
  | date_asc =>
      ordered (fun a b => FileItem.lastModified a <= FileItem.lastModified b)
  | date_desc =>
      ordered (fun a b => FileItem.lastModified b <= FileItem.lastModified a)
  | size_asc => ordered (fun a b => (FileItem.size a <= FileItem.size b)%N)
  | size_desc => ordered (fun a b => (FileItem.size b <= FileItem.size a)%N)
  | name_asc | name_desc => fun _ => True
  end (view files filters).
Proof.
  intros Hview.
  pose proof (filteredFiles_ordered_numeric files filters view Hview) as Hord.
  destruct (FilterState.sort filters); [done|done|..].
  all: intros i j x y Hij Hx Hy.
  all: specialize (Hord ltac:(done) ltac:(done) i j x y Hij Hx Hy).
  all: cbn in Hord; lia.
Qed.

(** X15. The visible sets of the revisions: the revision without sorting
  keeps the order of the collection; the revision with the collision
  check shows the same items rearranged; and while the least size is
  zero or less the revision with find/replace, its limit cleared, shows
  the visible set of the revision with the collision check. *)
Theorem filteredFiles_revisions files filters :
  AppPlain.filteredFiles files filters `sublist_of` files /\
  AppCollision.filteredFiles files filters ≡ₚ AppPlain.filteredFiles files filters /\
  (FilterState.minSize filters <= 0 ->
   App.filteredFiles files (FilterState.with_limit None filters)
   = AppCollision.filteredFiles files filters).
Proof.
  split_and!.
  - apply sublist_filter.
  - apply sort_perm.
  - intros Hmin. unfold App.filteredFiles, AppCollision.filteredFiles. cbn.
    f_equal. apply list_filter_iff. intros f. unfold matchesSize.
    rewrite (proj2 (Z.leb_le _ _)) by lia. by rewrite andb_true_r.
Qed.
(** C9. The limit comes after filtering and sorting.  The items of the
  collection that pass the search and the date clause, as the sort
  arranges them (a rearrangement of these items, in the order of the
  comparator whenever that is consistent on the collection), are the
  visible set without a limit.  For a limit [n > 0] the visible set is
  the first [n] items of that sequence, so it has at most [n] items: as
  many as [n] and the number of passing items allow.  Without a limit,
  or with a limit that is zero or negative, it is the whole sequence. *)
Theorem filteredFiles_limit files filters :
  let passing :=
    filter (fun f => matchesSearch filters f && matchesDate filters f) files in
  let sorted := JS.sort (compareBy (FilterState.sort filters)) passing in
  ((forall f, f ∈ sorted <-> f ∈ files /\ searchClause filters f /\ dateClause filters f) /\
   sorted ≡ₚ passing /\
   (consistent (compareBy (FilterState.sort filters)) files ->
    ordered (fun a b => compareBy (FilterState.sort filters) a b <= 0) sorted)) /\
  App.filteredFiles files (FilterState.with_limit None filters) = sorted /\
  (forall n, FilterState.limit filters = Some n -> 0 < n ->
     App.filteredFiles files filters = take (Z.to_nat n) sorted /\
     Z.of_nat (length (App.filteredFiles files filters)) <= n /\
     length (App.filteredFiles files filters)
     = Nat.min (Z.to_nat n) (length passing)) /\
  (FilterState.limit filters = None \/
   (exists n, FilterState.limit filters = Some n /\ n <= 0) ->
   App.filteredFiles files filters = sorted /\
   length (App.filteredFiles files filters) = length passing).
Proof.
  intros passing sorted.
  assert (length sorted = length passing) as Hlen
    by (apply Permutation_length, sort_perm).
  split_and!.
  - intros f. apply App_passing.
  - apply sort_perm.
  - intros Hc. apply sort_ordered. eapply consistent_sublist; [|done].
    intros z Hz. by apply list_elem_of_filter in Hz as [_ ?].
  - by rewrite (App_unbounded files (FilterState.with_limit None filters)) by (by left).
  - intros n Hl Hn. rewrite (App_bounded files filters n Hl Hn). fold passing sorted.
    split_and!; [done| |]; rewrite length_take, Hlen; lia.
  - intros Hl. rewrite (App_unbounded files filters Hl). by fold passing sorted.
Qed.
End VisibleOrder.

(** ** The destination directory after a batch *)

Section Destination.
Variables (caps : Capabilities) (globalConfig : GlobalConfig.t).
Implicit Types (f g : FileItem.t) (m : Machine) (l visible files : list FileItem.t)
  (dir : gmap string Blob) (name : string).

Local Ltac run_body :=
  unfold mbind, M_bind, mret, M_ret, try_catch, findIndexById, assign, publish,
    emit, getFile, getFileHandle, writeClose, message_of, after;
  cbn [updatedFiles directory journal fst snd].

Lemma written_lookup_ne name name' data dir :
  name' <> name -> written caps name data dir !! name' = dir !! name'.
Proof.
  intros Hne. unfold written.
  destruct (create_fault caps name); [done|].
  destruct (write_fault caps name), (dir !! name);
    by rewrite ?lookup_insert_ne.
Qed.

Lemma written_lookup name data dir :
  create_fault caps name = None -> write_fault caps name = None ->
  written caps name data dir !! name = Some data.
Proof. intros Hc Hw. unfold written. rewrite Hc, Hw. apply lookup_insert_eq. Qed.

(** What one turn of [App] does to the destination. *)
Lemma App_copyItem_directory f m :
  directory (after (App.copyItem caps globalConfig f) m)
  = match getFile_result caps (FileItem.handle f) with
    | inl _ => directory m
    | inr data => written caps (App.getFinalName globalConfig f) data (directory m)
    end.
Proof.
  unfold App.copyItem, written. run_body.
  destruct (getFile_result caps (FileItem.handle f)) as [msg|data];
    cbn [updatedFiles directory journal fst snd]; [done|].
  destruct (create_fault caps _) as [msg|];
    cbn [updatedFiles directory journal fst snd]; [done|].
  destruct (write_fault caps _) as [msg|];
    cbn [updatedFiles directory journal fst snd]; done.
Qed.

(** What one turn of [AppCollision] does to the destination. *)
Lemma AppCollision_copyItem_directory f m :
  directory (after (AppCollision.copyItem caps globalConfig f) m)
  = match getFile_result caps (FileItem.handle f) with
    | inl _ => directory m
    | inr data =>
        match directory m !! AppCollision.getFinalName globalConfig f with
        | Some _ =>
            if GlobalConfig.overwrite globalConfig
            then written caps (AppCollision.getFinalName globalConfig f) data (directory m)
            else directory m
        | None =>
            written caps (AppCollision.getFinalName globalConfig f) data (directory m)
        end
    end.
Proof.
  unfold AppCollision.copyItem, AppCollision.collisionCheck, written. run_body.
  destruct (getFile_result caps (FileItem.handle f)) as [msg|data];
    cbn [updatedFiles directory journal fst snd]; [done|].
  destruct (directory m !! _) as [old|] eqn:Hdir;
    cbn [updatedFiles directory journal fst snd negb];
    [destruct (GlobalConfig.overwrite globalConfig);
     cbn [updatedFiles directory journal fst snd negb]|].
  all: try done.
  all: destruct (create_fault caps _) as [msg|];
    cbn [updatedFiles directory journal fst snd]; [done|].
  all: rewrite ?Hdir.
  all: destruct (write_fault caps _) as [msg|];
    cbn [updatedFiles directory journal fst snd]; done.
Qed.

Local Abbreviation stepA := (App.copyItem caps globalConfig).
Local Abbreviation verdictA :=
  (fun (f : FileItem.t) (_ : Machine) =>
     verdict_of_failure
       (failure caps (FileItem.handle f) (App.getFinalName globalConfig f))).
Local Abbreviation shapeA := (App_copyItem_shape caps globalConfig).

Local Abbreviation stepC := (AppCollision.copyItem caps globalConfig).
Local Abbreviation verdictC :=
  (fun (f : FileItem.t) (m : Machine) =>
     collisionVerdict caps (GlobalConfig.overwrite globalConfig) (directory m)
       (FileItem.handle f) (AppCollision.getFinalName globalConfig f)).
Local Abbreviation shapeC := (AppCollision_copyItem_loop_shape caps globalConfig).

Lemma App_copyItem_other_name f m name :
  App.getFinalName globalConfig f <> name ->
  directory (after (stepA f) m) !! name = directory m !! name.
Proof.
  intros Hne. rewrite App_copyItem_directory.
  destruct (getFile_result caps _); [done|]. by apply written_lookup_ne.
Qed.

Lemma AppCollision_copyItem_other_name f m name :
  AppCollision.getFinalName globalConfig f <> name ->
  directory (after (stepC f) m) !! name = directory m !! name.
Proof.
  intros Hne. rewrite AppCollision_copyItem_directory.
  destruct (getFile_result caps _); [done|].
  destruct (directory m !! _); [destruct (GlobalConfig.overwrite _)|];
    try done; by apply written_lookup_ne.
Qed.

Lemma App_loop_other_name l m name :
  (forall f, f ∈ l -> App.getFinalName globalConfig f <> name) ->
  directory (after (forEach l stepA) m) !! name = directory m !! name.
Proof.
  intros Hl.
  apply (forEach_invariant stepA verdictA shapeA
           (fun m' => directory m' !! name = directory m !! name)); [|done].
  intros f m' Hf <-. by apply App_copyItem_other_name, Hl.
Qed.

Lemma AppCollision_loop_other_name l m name :
  (forall f, f ∈ l -> AppCollision.getFinalName globalConfig f <> name) ->
  directory (after (forEach l stepC) m) !! name = directory m !! name.
Proof.
  intros Hl.
  apply (forEach_invariant stepC verdictC shapeC
           (fun m' => directory m' !! name = directory m !! name)); [|done].
  intros f m' Hf <-. by apply AppCollision_copyItem_other_name, Hl.
Qed.

Lemma App_executeBatch_directory d files visible m :
  directory (after (App.executeBatch caps globalConfig (Some d) files visible) m)
  = directory (after (forEach visible stepA)
                 (Build_Machine files (directory m)
                    ((journal m ++ [SetIsProcessing true]) ++ [SetShowConfirm false]))).
Proof. unfold after at 1. by rewrite App_executeBatch_unfold. Qed.

Lemma AppCollision_executeBatch_directory d files visible m :
  directory (after (AppCollision.executeBatch caps globalConfig (Some d) files visible) m)
  = directory (after (forEach visible stepC)
                 (Build_Machine files (directory m)
                    ((journal m ++ [SetIsProcessing true]) ++ [SetShowConfirm false]))).
Proof. unfold after at 1. by rewrite AppCollision_executeBatch_unfold. Qed.

(** X16. A batch leaves alone every entry of the destination whose name is
  not the final name of a visible item, in the executor without and in
  the one with the collision check, with or without a destination. *)
Theorem executeBatch_leaves_other_names destHandle files visible m name :
  ((forall f, f ∈ visible -> App.getFinalName globalConfig f <> name) ->
   directory (after (App.executeBatch caps globalConfig destHandle files visible) m)
   !! name = directory m !! name) /\
  ((forall f, f ∈ visible -> AppCollision.getFinalName globalConfig f <> name) ->
   directory (after (AppCollision.executeBatch caps globalConfig destHandle files visible) m)
   !! name = directory m !! name).
Proof.
  destruct destHandle as [d|]; [|done]. split; intros Hl.
  - rewrite App_executeBatch_directory. by rewrite App_loop_other_name.
  - rewrite AppCollision_executeBatch_directory. by rewrite AppCollision_loop_other_name.
Qed.

Lemma App_loop_last_writer l1 f l2 m data :
  getFile_result caps (FileItem.handle f) = inr data ->
  failure caps (FileItem.handle f) (App.getFinalName globalConfig f) = None ->
  (forall g, g ∈ l2 -> App.getFinalName globalConfig g <> App.getFinalName globalConfig f) ->
  directory (after (forEach (l1 ++ f :: l2) stepA) m) !! App.getFinalName globalConfig f
  = Some data.
Proof.
  intros Hread Hfail Hl2.
  rewrite (after_forEach_app stepA verdictA shapeA),
          (after_forEach_cons stepA verdictA shapeA).
  rewrite App_loop_other_name by done.
  rewrite App_copyItem_directory, Hread.
  unfold failure in Hfail. rewrite Hread in Hfail.
  destruct (create_fault caps _) eqn:Hc; [done|].
  by apply written_lookup.
Qed.

(** X17. In the executor without the collision check the last visible item
  that derives a final name decides the bytes under it: if its source
  is read and its writes go through, and no later item of the visible
  set derives the same name, the destination holds its bytes under
  that name at the end, whatever was written there before. *)
Theorem executeBatch_last_writer_wins d files l1 f l2 m data :
  getFile_result caps (FileItem.handle f) = inr data ->
  failure caps (FileItem.handle f) (App.getFinalName globalConfig f) = None ->
  (forall g, g ∈ l2 -> App.getFinalName globalConfig g <> App.getFinalName globalConfig f) ->
  directory (after (App.executeBatch caps globalConfig (Some d) files (l1 ++ f :: l2)) m)
  !! App.getFinalName globalConfig f = Some data.
Proof.
  intros Hread Hfail Hl2. rewrite App_executeBatch_directory.
  by apply App_loop_last_writer.
Qed.
End Destination.

(** ** The turn of an item, wherever it stands *)

Section LoopTurn.
Variable step : FileItem.t -> M unit.
Variable verdict : FileItem.t -> Machine -> Verdict.
Implicit Types (l : list FileItem.t) (x f : FileItem.t) (m : Machine).

Hypothesis step_shape : forall f m,
  exists dir' evs,
    step f m =
      (inr tt,
       Build_Machine
         (assignAt (indexById (FileItem.id f) (updatedFiles m))
            (settle (verdict f m)) (updatedFiles m))
         dir' (journal m ++ evs)) /\
    reads evs = [FileItem.handle f] /\
    published evs =
      [assignAt (indexById (FileItem.id f) (updatedFiles m))
         (FileItem.with_status processing) (updatedFiles m);
       assignAt (indexById (FileItem.id f) (updatedFiles m))
         (settle (verdict f m)) (updatedFiles m)].

Lemma NoDup_ids_split l1 f l2 :
  NoDup (FileItem.id <$> (l1 ++ f :: l2)) ->
  (FileItem.id f ∉ FileItem.id <$> l1) /\ (FileItem.id f ∉ FileItem.id <$> l2).
Proof.
  rewrite fmap_app, fmap_cons. intros (_ & Hdisj & Hnd)%NoDup_app.
  apply NoDup_cons in Hnd as [Hf _]. split; [|done].
  intros Hin. apply (Hdisj _ Hin). by left.
Qed.

Lemma loop_turn_at l1 f l2 m i x :
  NoDup (FileItem.id <$> (l1 ++ f :: l2)) ->
  indexById (FileItem.id f) (updatedFiles m) = Some i ->
  updatedFiles m !! i = Some x ->
  updatedFiles (after (forEach (l1 ++ f :: l2) step) m) !! i
  = Some (settle (verdict f (after (forEach l1 step) m)) x).
Proof.
  intros [H1 H2]%NoDup_ids_split Hi Hx.
  assert (FileItem.id x = FileItem.id f) as Hid.
  { apply indexById_lookup in Hi as (y & Hy & Hid). congruence. }
  rewrite (after_forEach_app step verdict step_shape),
          (after_forEach_cons step verdict step_shape).
  set (m1 := after (forEach l1 step) m).
  assert (updatedFiles m1 !! i = Some x) as Hx1.
  { apply (loop_frame step verdict step_shape); [done | by rewrite Hid]. }
  assert (indexById (FileItem.id f) (updatedFiles m1) = Some i) as Hi1.
  { by rewrite (indexById_ids _ _ _ (loop_ids step verdict step_shape l1 m)). }
  apply (loop_frame step verdict step_shape).
  - by rewrite (step_updated step verdict step_shape), Hi1, assignAt_lookup_eq, Hx1.
  - by rewrite settle_id, Hid.
Qed.

(** Every item of the collection is, at the end, what it was or what
    the turn of a visible item with its identifier made of it. *)
Lemma loop_outcome l m i x :
  NoDup (FileItem.id <$> l) -> NoDup (FileItem.id <$> updatedFiles m) ->
  updatedFiles m !! i = Some x ->
  ((FileItem.id x ∉ FileItem.id <$> l) /\
   updatedFiles (after (forEach l step) m) !! i = Some x) \/
  (exists l1 f l2,
     l = l1 ++ f :: l2 /\ FileItem.id f = FileItem.id x /\
     updatedFiles (after (forEach l step) m) !! i
     = Some (settle (verdict f (after (forEach l1 step) m)) x)).
Proof.
  intros Hnd Hndm Hx.
  destruct (decide (FileItem.id x ∈ FileItem.id <$> l)) as [Hin|Hout].
  - right. apply list_elem_of_fmap in Hin as (f & Hid & Hf).
    apply list_elem_of_split in Hf as (l1 & l2 & ->).
    exists l1, f, l2. split_and!; [done..|].
    apply loop_turn_at; [done| |done].
    destruct (indexById (FileItem.id f) (updatedFiles m)) as [j|] eqn:Hj.
    + f_equal. apply indexById_lookup in Hj as (y & Hy & Hidy).
      eapply (NoDup_lookup (FileItem.id <$> updatedFiles m)); [done| |].
      * by rewrite list_lookup_fmap, Hy.
      * rewrite list_lookup_fmap, Hx. cbn. congruence.
    + apply indexById_None in Hj. destruct Hj. rewrite <- Hid.
      apply list_elem_of_fmap_2. by eapply list_elem_of_lookup_2.
  - left. split; [done|]. by apply (loop_frame step verdict step_shape).
Qed.
End LoopTurn.

(** ** Successes of [AppCollision] when nothing is overwritten *)

Section Successes.
Variables (caps : Capabilities) (globalConfig : GlobalConfig.t)
          (d : FileSystemDirectoryHandle).
Implicit Types (files visible l : list FileItem.t) (f g x y : FileItem.t) (m : Machine).

Hypothesis no_overwrite : GlobalConfig.overwrite globalConfig = false.

Local Abbreviation step := (AppCollision.copyItem caps globalConfig).
Local Abbreviation verdict :=
  (fun (f : FileItem.t) (m : Machine) =>
     collisionVerdict caps (GlobalConfig.overwrite globalConfig) (directory m)
       (FileItem.handle f) (AppCollision.getFinalName globalConfig f)).
Local Abbreviation shape := (AppCollision_copyItem_loop_shape caps globalConfig).
Local Abbreviation name_of f := (AppCollision.getFinalName globalConfig f).

Lemma collisionVerdict_Succeeded dir f :
  collisionVerdict caps false dir (FileItem.handle f) (name_of f) = Succeeded ->
  dir !! name_of f = None /\
  exists data,
    getFile_result caps (FileItem.handle f) = inr data /\
    create_fault caps (name_of f) = None /\ write_fault caps (name_of f) = None.
Proof.
  unfold collisionVerdict, failure.
  destruct (getFile_result caps _) as [msg|data]; [done|].
  destruct (dir !! _); [done|].
  destruct (create_fault caps _); [done|].
  destruct (write_fault caps _); [done|]. eauto.
Qed.

Lemma settle_success v x : FileItem.status (settle v x) = success -> v = Succeeded.
Proof. by destruct v. Qed.

(** The turn of an item that ends as a success leaves its bytes
    under its final name, and they stay. *)
Lemma AppCollision_loop_success_copied l1 f l2 m i x :
  NoDup (FileItem.id <$> (l1 ++ f :: l2)) ->
  indexById (FileItem.id f) (updatedFiles m) = Some i ->
  updatedFiles m !! i = Some x ->
  FileItem.status (settle (verdict f (after (forEach l1 step) m)) x) = success ->
  directory (after (forEach l1 step) m) !! name_of f = None /\
  exists data,
    getFile_result caps (FileItem.handle f) = inr data /\
    directory (after (forEach (l1 ++ [f]) step) m) !! name_of f = Some data /\
    directory (after (forEach (l1 ++ f :: l2) step) m) !! name_of f = Some data.
Proof.
  intros Hnd Hi Hx Hs%settle_success. cbv beta in Hs. rewrite no_overwrite in Hs.
  apply collisionVerdict_Succeeded in Hs as (Hfree & data & Hread & Hc & Hw).
  split; [done|]. exists data. split; [done|].
  assert (directory (after (step f) (after (forEach l1 step) m)) !! name_of f
          = Some data) as Hdone.
  { rewrite AppCollision_copyItem_directory, Hread, Hfree. by apply written_lookup. }
  split.
  - by rewrite (after_forEach_app step verdict shape),
               (after_forEach_cons step verdict shape).
  - rewrite (after_forEach_app step verdict shape),
            (after_forEach_cons step verdict shape).
    eapply lookup_weaken; [exact Hdone|].
    by apply AppCollision_loop_keeps_bytes.
Qed.

(** The collection in which the loop of a run starts. *)
Local Abbreviation start files m :=
  (Build_Machine files (directory m)
     ((journal m ++ [SetIsProcessing true]) ++ [SetShowConfirm false])).

Lemma AppCollision_executeBatch_after files visible m :
  updatedFiles (after (AppCollision.executeBatch caps globalConfig (Some d) files visible) m)
  = updatedFiles (after (forEach visible step) (start files m)) /\
  directory (after (AppCollision.executeBatch caps globalConfig (Some d) files visible) m)
  = directory (after (forEach visible step) (start files m)).
Proof. unfold after at 1 3. by rewrite AppCollision_executeBatch_unfold. Qed.

Lemma visible_index files visible f :
  FileItem.id <$> visible ⊆ FileItem.id <$> files -> f ∈ visible ->
  exists i x, indexById (FileItem.id f) files = Some i /\ files !! i = Some x.
Proof.
  intros Hsub Hf. destruct (indexById (FileItem.id f) files) as [i|] eqn:E.
  - destruct (indexById_lookup _ _ _ E) as (x & Hx & _). eauto.
  - apply indexById_None in E. destruct E. apply Hsub.
    by apply list_elem_of_fmap_2.
Qed.

(** X18. Without overwriting, a success is a faithful copy: an item of the
  visible set that the executor with the collision check leaves as a
  success had a free final name when the run began, its source was
  read, and at the end of the run the destination holds the bytes read
  under its final name. *)
Theorem success_means_copied files visible m f y :
  NoDup (FileItem.id <$> visible) ->
  FileItem.id <$> visible ⊆ FileItem.id <$> files ->
  f ∈ visible ->
  entry (FileItem.id f)
    (updatedFiles
       (after (AppCollision.executeBatch caps globalConfig (Some d) files visible) m))
  = Some y ->
  FileItem.status y = success ->
  directory m !! AppCollision.getFinalName globalConfig f = None /\
  exists data,
    getFile_result caps (FileItem.handle f) = inr data /\
    directory
      (after (AppCollision.executeBatch caps globalConfig (Some d) files visible) m)
    !! AppCollision.getFinalName globalConfig f = Some data.
Proof.
  intros Hnd Hsub Hf Hy Hs.
  destruct (AppCollision_executeBatch_after files visible m) as [Hu Hd].
  rewrite Hu in Hy. rewrite Hd. clear Hu Hd.
  destruct (visible_index files visible f Hsub Hf) as (i & x & Hi & Hx).
  rewrite (entry_ids _ files _ i) in Hy;
    [|symmetry; apply (loop_ids step verdict shape visible (start files m))|done].
  apply list_elem_of_split in Hf as (l1 & l2 & ->).
  rewrite (loop_turn_at step verdict shape l1 f l2 (start files m) i x) in Hy by done.
  injection Hy as <-.
  destruct (AppCollision_loop_success_copied l1 f l2 (start files m) i x)
    as (Hfree & data & Hread & _ & Hdata); [done..|].
  split; [|by exists data].
  destruct (directory m !! name_of f) as [old|] eqn:Hold; [|done].
  assert (is_Some (directory (after (forEach l1 step) (start files m)) !! name_of f))
    as [? Hsome].
  { apply AppCollision_loop_keeps_entries. cbn [directory]. by rewrite Hold. }
  congruence.
Qed.

(** An item that succeeded earlier in the run bars a later one with
    the same final name from succeeding. *)
Lemma AppCollision_loop_first_success l1 g l2 f m i j x z :
  NoDup (FileItem.id <$> (l1 ++ g :: l2)) ->
  f ∈ l1 ->
  name_of f = name_of g ->
  indexById (FileItem.id f) (updatedFiles m) = Some i -> updatedFiles m !! i = Some x ->
  indexById (FileItem.id g) (updatedFiles m) = Some j -> updatedFiles m !! j = Some z ->
  forall y y',
    updatedFiles (after (forEach (l1 ++ g :: l2) step) m) !! i = Some y ->
    updatedFiles (after (forEach (l1 ++ g :: l2) step) m) !! j = Some y' ->
    FileItem.status y = success -> FileItem.status y' <> success.
Proof.
  intros Hnd Hf Hname Hi Hx Hj Hz y y' Hy Hy' Hs Hs'.
  rewrite (loop_turn_at step verdict shape l1 g l2 m j z) in Hy' by done.
  injection Hy' as <-.
  destruct (AppCollision_loop_success_copied l1 g l2 m j z) as (Hfree & _); [done..|].
  apply list_elem_of_split in Hf as (a & b & ->).
  rewrite <- app_assoc, <- app_comm_cons in Hnd, Hy.
  rewrite (loop_turn_at step verdict shape a f (b ++ g :: l2) m i x) in Hy by done.
  injection Hy as <-.
  assert (NoDup (FileItem.id <$> (a ++ f :: b))) as Hnd'.
  { rewrite app_comm_cons, app_assoc in Hnd. rewrite fmap_app in Hnd.
    by apply NoDup_app in Hnd as (? & _). }
  destruct (AppCollision_loop_success_copied a f b m i x)
    as (_ & data & _ & _ & Hdata); [done..|].
  rewrite Hname in Hdata. congruence.
Qed.

(** X19. Without overwriting, the executor with the collision check never
  reports two successes for one final name: of two different items of
  the visible set that derive the same name, when one ends as a success
  the other does not. *)
Theorem one_success_per_final_name files visible m f g y z :
  NoDup (FileItem.id <$> visible) ->
  FileItem.id <$> visible ⊆ FileItem.id <$> files ->
  f ∈ visible -> g ∈ visible -> f <> g ->
  AppCollision.getFinalName globalConfig f = AppCollision.getFinalName globalConfig g ->
  entry (FileItem.id f)
    (updatedFiles
       (after (AppCollision.executeBatch caps globalConfig (Some d) files visible) m))
  = Some y ->
  entry (FileItem.id g)
    (updatedFiles
       (after (AppCollision.executeBatch caps globalConfig (Some d) files visible) m))
  = Some z ->
  FileItem.status y = success ->
  FileItem.status z <> success.
Proof.
  intros Hnd Hsub Hf Hg Hne Hname Hy Hz Hsy Hsz.
  destruct (AppCollision_executeBatch_after files visible m) as [Hu _].
  rewrite Hu in Hy, Hz. clear Hu.
  destruct (visible_index files visible f Hsub Hf) as (i & x & Hi & Hx).
  destruct (visible_index files visible g Hsub Hg) as (j & x' & Hj & Hx').
  pose proof (loop_ids step verdict shape visible (start files m)) as Hids.
  rewrite (entry_ids _ files _ i) in Hy; [|done..].
  rewrite (entry_ids _ files _ j) in Hz; [|done..].
  apply list_elem_of_split in Hg as (l1 & l2 & ->).
  apply elem_of_app in Hf as [Hf|Hf].
  - by eapply (AppCollision_loop_first_success l1 g l2 f (start files m) i j x x').
  - apply elem_of_cons in Hf as [?|Hf]; [done|].
    apply list_elem_of_split in Hf as (k1 & k2 & ->).
    rewrite app_comm_cons, app_assoc in Hnd, Hy, Hz.
    eapply (AppCollision_loop_first_success (l1 ++ g :: k1) f k2 g (start files m) j i x' x);
      try done.
    apply elem_of_app. right. by left.
Qed.
End Successes.

(** ** Overwriting, the journal and the progress of a run *)

Section Overwriting.
Variables (caps : Capabilities) (globalConfig : GlobalConfig.t)
          (d : FileSystemDirectoryHandle).
Implicit Types (files visible l : list FileItem.t) (f : FileItem.t) (m : Machine).

Local Abbreviation stepA := (App.copyItem caps globalConfig).
Local Abbreviation verdictA :=
  (fun (f : FileItem.t) (_ : Machine) =>
     verdict_of_failure
       (failure caps (FileItem.handle f) (App.getFinalName globalConfig f))).
Local Abbreviation shapeA := (App_copyItem_shape caps globalConfig).

Local Abbreviation stepC := (AppCollision.copyItem caps globalConfig).
Local Abbreviation verdictC :=
  (fun (f : FileItem.t) (m : Machine) =>
     collisionVerdict caps (GlobalConfig.overwrite globalConfig) (directory m)
       (FileItem.handle f) (AppCollision.getFinalName globalConfig f)).
Local Abbreviation shapeC := (AppCollision_copyItem_loop_shape caps globalConfig).

Lemma collisionVerdict_overwrite dir h name :
  collisionVerdict caps true dir h name = verdict_of_failure (failure caps h name).
Proof.
  unfold collisionVerdict, failure.
  destruct (getFile_result caps h); [done|]. by destruct (dir !! name).
Qed.

Lemma overwrite_loop l mA mC :
  GlobalConfig.overwrite globalConfig = true ->
  (forall f, f ∈ l ->
     App.getFinalName globalConfig f = AppCollision.getFinalName globalConfig f) ->
  updatedFiles mA = updatedFiles mC -> directory mA = directory mC ->
  updatedFiles (after (forEach l stepA) mA) = updatedFiles (after (forEach l stepC) mC) /\
  directory (after (forEach l stepA) mA) = directory (after (forEach l stepC) mC).
Proof.
  intros Hov. revert mA mC. induction l as [|f l IH]; intros mA mC Hnames Hu Hd; [done|].
  rewrite (after_forEach_cons stepA verdictA shapeA),
          (after_forEach_cons stepC verdictC shapeC).
  assert (App.getFinalName globalConfig f = AppCollision.getFinalName globalConfig f)
    as Hname by (apply Hnames; by left).
  apply IH.
  - intros g Hg. apply Hnames. by right.
  - rewrite (step_updated stepA verdictA shapeA), (step_updated stepC verdictC shapeC).
    cbv beta. by rewrite Hov, collisionVerdict_overwrite, Hu, Hname.
  - rewrite App_copyItem_directory, AppCollision_copyItem_directory, Hov, Hd, Hname.
    destruct (getFile_result caps _); [done|]. by destruct (directory mC !! _).
Qed.

(** X20. With overwriting switched on the collision check has no effect:
  where the two revisions derive the same final names for the visible
  items, the executor with the check leaves the collection and the
  destination that the executor without it leaves. *)
Theorem overwrite_is_the_unchecked_copy files visible m :
  GlobalConfig.overwrite globalConfig = true ->
  (forall f, f ∈ visible ->
     App.getFinalName globalConfig f = AppCollision.getFinalName globalConfig f) ->
  updatedFiles (after (AppCollision.executeBatch caps globalConfig (Some d) files visible) m)
  = updatedFiles (after (App.executeBatch caps globalConfig (Some d) files visible) m) /\
  directory (after (AppCollision.executeBatch caps globalConfig (Some d) files visible) m)
  = directory (after (App.executeBatch caps globalConfig (Some d) files visible) m).
Proof.
  intros Hov Hnames. unfold after at 1 2 3 4.
  rewrite App_executeBatch_unfold, AppCollision_executeBatch_unfold.
  cbn [snd updatedFiles directory].
  by destruct (overwrite_loop visible
                 (Build_Machine files (directory m)
                    ((journal m ++ [SetIsProcessing true]) ++ [SetShowConfirm false]))
                 (Build_Machine files (directory m)
                    ((journal m ++ [SetIsProcessing true]) ++ [SetShowConfirm false]))
                 Hov Hnames eq_refl eq_refl) as [-> ->].
Qed.
End Overwriting.

Section LoopJournal.
Variable step : FileItem.t -> M unit.
Variable verdict : FileItem.t -> Machine -> Verdict.
Implicit Types (l : list FileItem.t) (x f : FileItem.t) (m : Machine).

Hypothesis step_shape : forall f m,
  exists dir' evs,
    step f m =
      (inr tt,
       Build_Machine
         (assignAt (indexById (FileItem.id f) (updatedFiles m))
            (settle (verdict f m)) (updatedFiles m))
         dir' (journal m ++ evs)) /\
    reads evs = [FileItem.handle f] /\
    published evs =
      [assignAt (indexById (FileItem.id f) (updatedFiles m))
         (FileItem.with_status processing) (updatedFiles m);
       assignAt (indexById (FileItem.id f) (updatedFiles m))
         (settle (verdict f m)) (updatedFiles m)].

(** Two collections are published in every turn, and the last one of
    the loop is the collection it ends with. *)
Lemma loop_published l m :
  exists evs,
    journal (after (forEach l step) m) = journal m ++ evs /\
    reads evs = FileItem.handle <$> l /\
    length (published evs) = (2 * length l)%nat /\
    (l <> [] -> last (published evs) = Some (updatedFiles (after (forEach l step) m))).
Proof.
  revert m. induction l as [|f l IH]; intros m.
  - exists []. split_and!; [by rewrite app_nil_r|done..].
  - rewrite (after_forEach_cons step verdict step_shape).
    destruct (IH (after (step f) m)) as (evs2 & Hj & Hr & Hlen & Hlast).
    destruct (step_journal step verdict step_shape f m) as (evs1 & Hj1 & Hr1 & Hp1).
    exists (evs1 ++ evs2). split_and!.
    + by rewrite Hj, Hj1, app_assoc.
    + unfold reads in *. by rewrite omap_app, Hr1, Hr.
    + unfold published in *. rewrite omap_app, Hp1, length_app, Hlen. simpl. lia.
    + intros _. unfold published in *. rewrite omap_app, Hp1, last_app.
      destruct l as [|g l].
      * destruct (omap _ evs2); [|done]. cbn.
        by rewrite (step_updated step verdict step_shape).
      * by rewrite Hlast.
Qed.

Section Counting.
Context (P : FileItem.t -> Prop) `{!forall x, Decision (P x)}.
Hypothesis settled : forall f m x, P (settle (verdict f m) x).

Lemma length_filter_ids (ids : list string) (F : list FileItem.t) :
  length (filter (fun x => FileItem.id x ∈ ids) F)
  = length (filter (fun k => k ∈ ids) (FileItem.id <$> F)).
Proof.
  induction F as [|x F IH]; [done|].
  rewrite fmap_cons, !filter_cons. case_decide; simpl; by rewrite IH.
Qed.

Lemma length_filter_members (ids all : list string) :
  NoDup ids -> NoDup all -> ids ⊆ all ->
  length (filter (fun k => k ∈ ids) all) = length ids.
Proof.
  intros Hi Ha Hsub. apply Permutation_length, NoDup_Permutation.
  - by apply NoDup_filter.
  - done.
  - intros k. rewrite list_elem_of_filter. split; [tauto|]. intros Hk. split; [done|].
    by apply Hsub.
Qed.

Lemma count_outcomes (ids : list string) (F L : list FileItem.t) :
  Forall2 (fun x y => ((FileItem.id x ∉ ids) /\ y = x) \/ (FileItem.id x ∈ ids /\ P y)) F L ->
  length (filter P L)
  = (length (filter (fun x => FileItem.id x ∈ ids) F)
     + length (filter (fun x => P x /\ FileItem.id x ∉ ids) F))%nat.
Proof.
  induction 1 as [|x y F L Hxy _ IH]; [done|].
  rewrite !filter_cons.
  destruct Hxy as [[Hout ->]|[Hin Hy]].
  - rewrite (decide_False (P := FileItem.id x ∈ ids)) by done.
    destruct (decide (P x)).
    + rewrite decide_True by done. simpl. lia.
    + rewrite decide_False by tauto. done.
  - rewrite (decide_True (P := P y)), (decide_True (P := FileItem.id x ∈ ids)) by done.
    rewrite decide_False by tauto. simpl. lia.
Qed.

(** The items that count at the end of the loop: the iterated ones,
    and those of the others that counted before. *)
Lemma loop_count l m :
  NoDup (FileItem.id <$> l) -> NoDup (FileItem.id <$> updatedFiles m) ->
  FileItem.id <$> l ⊆ FileItem.id <$> updatedFiles m ->
  length (filter P (updatedFiles (after (forEach l step) m)))
  = (length l
     + length (filter (fun x => P x /\ FileItem.id x ∉ FileItem.id <$> l)
                 (updatedFiles m)))%nat.
Proof.
  intros Hnd Hndm Hsub.
  rewrite (count_outcomes (FileItem.id <$> l) (updatedFiles m)).
  - by rewrite length_filter_ids, length_filter_members, length_fmap.
  - apply Forall2_same_length_lookup_2.
    + rewrite <- (length_fmap FileItem.id (updatedFiles m)),
              <- (length_fmap FileItem.id (updatedFiles (after _ m))).
      by rewrite (loop_ids step verdict step_shape).
    + intros i x y Hx Hy.
      destruct (loop_outcome step verdict step_shape l m i x Hnd Hndm Hx)
        as [[Hout Hsame]|(l1 & f & l2 & -> & Hid & Hturn)].
      * left. split; [done | congruence].
      * right. split.
        -- rewrite <- Hid. apply list_elem_of_fmap_2, elem_of_app. right. by left.
        -- rewrite Hturn in Hy. injection Hy as <-. apply settled.
Qed.
End Counting.
End LoopJournal.

Section RunReports.
Variables (caps : Capabilities) (globalConfig : GlobalConfig.t)
          (d : FileSystemDirectoryHandle).
Implicit Types (files visible l : list FileItem.t) (f x : FileItem.t) (m : Machine).

Local Abbreviation stepA := (App.copyItem caps globalConfig).
Local Abbreviation verdictA :=
  (fun (f : FileItem.t) (_ : Machine) =>
     verdict_of_failure
       (failure caps (FileItem.handle f) (App.getFinalName globalConfig f))).
Local Abbreviation shapeA := (App_copyItem_shape caps globalConfig).

Local Abbreviation stepC := (AppCollision.copyItem caps globalConfig).
Local Abbreviation verdictC :=
  (fun (f : FileItem.t) (m : Machine) =>
     collisionVerdict caps (GlobalConfig.overwrite globalConfig) (directory m)
       (FileItem.handle f) (AppCollision.getFinalName globalConfig f)).
Local Abbreviation shapeC := (AppCollision_copyItem_loop_shape caps globalConfig).

Local Abbreviation start files m :=
  (Build_Machine files (directory m)
     ((journal m ++ [SetIsProcessing true]) ++ [SetShowConfirm false])).

Lemma App_executeBatch_after files visible m :
  after (App.executeBatch caps globalConfig (Some d) files visible) m
  = Build_Machine
      (updatedFiles (after (forEach visible stepA) (start files m)))
      (directory (after (forEach visible stepA) (start files m)))
      (journal (after (forEach visible stepA) (start files m)) ++ [SetIsProcessing false]).
Proof. unfold after at 1. by rewrite App_executeBatch_unfold. Qed.

Lemma AppCollision_executeBatch_machine files visible m :
  after (AppCollision.executeBatch caps globalConfig (Some d) files visible) m
  = Build_Machine
      (updatedFiles (after (forEach visible stepC) (start files m)))
      (directory (after (forEach visible stepC) (start files m)))
      (journal (after (forEach visible stepC) (start files m)) ++ [SetIsProcessing false]).
Proof. unfold after at 1. by rewrite AppCollision_executeBatch_unfold. Qed.

(** X21. The journal of a run with a destination, in both executors: the
  processing flag is raised, the confirmation closed, then the loop
  reads the sources of the visible items in order and publishes two
  collections per item, and the flag is lowered last; unless the
  visible set is empty, the last collection published is the one the
  run ends with. *)
Theorem executeBatch_journal run files visible m :
  run ∈ [App.executeBatch; AppCollision.executeBatch] ->
  exists evs,
    journal (after (run caps globalConfig (Some d) files visible) m)
    = journal m ++ [SetIsProcessing true; SetShowConfirm false] ++ evs
      ++ [SetIsProcessing false] /\
    reads evs = FileItem.handle <$> visible /\
    length (published evs) = (2 * length visible)%nat /\
    (visible <> [] ->
     last (published evs)
     = Some (updatedFiles (after (run caps globalConfig (Some d) files visible) m))).
Proof.
  rewrite !elem_of_cons.
  intros [->|[->|Hrun]]; [..|by apply elem_of_nil in Hrun].
  - rewrite App_executeBatch_after. cbn [journal updatedFiles].
    destruct (loop_published stepA verdictA shapeA visible (start files m))
      as (evs & Hj & Hr & Hlen & Hlast).
    exists evs. split_and!; [|done..].
    rewrite Hj. cbn [journal]. by rewrite <- !app_assoc.
  - rewrite AppCollision_executeBatch_machine. cbn [journal updatedFiles].
    destruct (loop_published stepC verdictC shapeC visible (start files m))
      as (evs & Hj & Hr & Hlen & Hlast).
    exists evs. split_and!; [|done..].
    rewrite Hj. cbn [journal]. by rewrite <- !app_assoc.
Qed.

Lemma progressDone_settled f m x :
  FileItem.status (settle (verdictA f m) x) = success
  \/ FileItem.status (settle (verdictA f m) x) = error.
Proof. cbv beta. destruct (failure caps _ _); cbn; tauto. Qed.

Lemma progressSettled_settled f m x :
  FileItem.status (settle (verdictC f m) x) <> pending
  /\ FileItem.status (settle (verdictC f m) x) <> processing.
Proof. cbv beta. by destruct (collisionVerdict _ _ _ _ _). Qed.

(** X22. The numerator of the progress after a run over a visible set with
  distinct identifiers, all of a collection with distinct identifiers:
  the size of the visible set plus the items outside it that counted
  before, for the count of the executor without the collision check
  (success or error) and for the count of the one with it (neither
  pending nor processing). *)
Theorem progress_after_batch files visible m :
  NoDup (FileItem.id <$> visible) -> NoDup (FileItem.id <$> files) ->
  FileItem.id <$> visible ⊆ FileItem.id <$> files ->
  progressDone
    (updatedFiles (after (App.executeBatch caps globalConfig (Some d) files visible) m))
  = (length visible
     + progressDone (filter (fun x => FileItem.id x ∉ FileItem.id <$> visible) files))%nat
  /\
  progressSettled
    (updatedFiles
       (after (AppCollision.executeBatch caps globalConfig (Some d) files visible) m))
  = (length visible
     + progressSettled (filter (fun x => FileItem.id x ∉ FileItem.id <$> visible) files))%nat.
Proof.
  intros Hnd Hndf Hsub. split.
  - rewrite App_executeBatch_after. cbn [updatedFiles]. unfold progressDone.
    rewrite (loop_count stepA verdictA shapeA _ progressDone_settled visible
               (start files m)) by done.
    cbn [updatedFiles]. by rewrite list_filter_filter.
  - rewrite AppCollision_executeBatch_machine. cbn [updatedFiles]. unfold progressSettled.
    rewrite (loop_count stepC verdictC shapeC _ progressSettled_settled visible
               (start files m)) by done.
    cbn [updatedFiles]. by rewrite list_filter_filter.
Qed.
End RunReports.

(** ** The counters of the page *)

Section Counters.
Implicit Types (files : list FileItem.t).

(** X23. The counters of the page: every item is counted under exactly one
  status; the numerator of the progress of the revision with
  find/replace is the sum of the counters OK and ERR, and the numerator
  of the revision with the collision check is that plus the skipped
  items. *)
Theorem counters_add_up files :
  (countStatus pending files + countStatus processing files + countStatus success files
   + countStatus error files + countStatus skipped files)%nat = length files /\
  progressDone files = (countStatus success files + countStatus error files)%nat /\
  progressSettled files = (progressDone files + countStatus skipped files)%nat.
Proof.
  unfold countStatus, progressDone, progressSettled.
  induction files as [|x files (IH1 & IH2 & IH3)]; [done|].
  rewrite !filter_cons.
  destruct (FileItem.status x) eqn:E;
    repeat (case_decide; try (intuition congruence));
    cbn [length]; lia.
Qed.
End Counters.

(** ** From the scan to the destination *)

Section FreshScan.
Context `{JS.Runtime}.
Variables (caps : Capabilities) (globalConfig : GlobalConfig.t)
          (d : FileSystemDirectoryHandle).
Implicit Types (files visible l : list FileItem.t) (f g x : FileItem.t) (m : Machine)
  (filters : FilterState.t) (entries : list Entry).

Local Abbreviation stepA := (App.copyItem caps globalConfig).
Local Abbreviation verdictA :=
  (fun (f : FileItem.t) (_ : Machine) =>
     verdict_of_failure
       (failure caps (FileItem.handle f) (App.getFinalName globalConfig f))).
Local Abbreviation shapeA := (App_copyItem_shape caps globalConfig).
Local Abbreviation start files m :=
  (Build_Machine files (directory m)
     ((journal m ++ [SetIsProcessing true]) ++ [SetShowConfirm false])).

Lemma App_filteredFiles_key {B} (key : FileItem.t -> B) files filters :
  NoDup (key <$> files) ->
  NoDup (key <$> App.filteredFiles files filters) /\
  App.filteredFiles files filters ⊆ files.
Proof.
  intros Hnd. destruct (App_filteredFiles_take files filters) as [n ->].
  unfold App.filteredFiles. cbn. split.
  - eapply sublist_NoDup; [|apply fmap_sublist, sublist_take].
    rewrite sort_perm. eapply sublist_NoDup; [done|]. apply fmap_sublist, sublist_filter.
  - intros x Hx%subseteq_take. rewrite elem_of_sort in Hx.
    by apply list_elem_of_filter in Hx as [_ ?].
Qed.

Lemma NoDup_key_eq {B} (key : FileItem.t -> B) l x y :
  NoDup (key <$> l) -> x ∈ l -> y ∈ l -> key x = key y -> x = y.
Proof.
  intros Hnd (i & Hi)%list_elem_of_lookup_1 (j & Hj)%list_elem_of_lookup_1 Hk.
  assert (i = j) as ->; [|congruence].
  eapply (NoDup_lookup (key <$> l)); [done| |].
  - by rewrite list_lookup_fmap, Hi.
  - rewrite list_lookup_fmap, Hj. cbn. by rewrite Hk.
Qed.

Lemma filter_none {A} (P : A -> Prop) `{!forall a : A, Decision (P a)} (k : list A) :
  (forall a, a ∈ k -> ~ P a) -> filter P k = [].
Proof.
  induction k as [|a k IH]; [done|]. intros Hk. rewrite filter_cons.
  rewrite decide_False by (apply Hk; by left). apply IH. intros b Hb. apply Hk. by right.
Qed.

Lemma scanEntries_pending entries x :
  x ∈ scanEntries entries -> FileItem.status x = pending.
Proof. by intros (_ & _ & _ & _ & ? & _)%elem_of_scanEntries_fields. Qed.

(** X24. From the scan to the end of a run: when the identifiers drawn for
  the entries are distinct, a run over the visible set of a fresh scan
  settles every visible item with the verdict of its own reads and
  writes and leaves every other item as the scan made it, and the
  numerator of the progress is the size of the visible set. *)
Theorem fresh_scan_run_settles_the_visible_rows entries filters m :
  NoDup (FileItem.id <$> scanEntries entries) ->
  updatedFiles
    (after (App.executeBatch caps globalConfig (Some d) (scanFiles [] (Some entries))
              (App.filteredFiles (scanFiles [] (Some entries)) filters)) m)
  = (fun x =>
       if decide (x ∈ App.filteredFiles (scanFiles [] (Some entries)) filters)
       then settle (verdict_of_failure
                      (failure caps (FileItem.handle x) (App.getFinalName globalConfig x)))
              x
       else x) <$> scanFiles [] (Some entries) /\
  progressDone
    (updatedFiles
       (after (App.executeBatch caps globalConfig (Some d) (scanFiles [] (Some entries))
                 (App.filteredFiles (scanFiles [] (Some entries)) filters)) m))
  = length (App.filteredFiles (scanFiles [] (Some entries)) filters).
Proof.
  cbn [scanFiles]. set (files := scanEntries entries).
  set (visible := App.filteredFiles files filters). intros Hndf.
  destruct (App_filteredFiles_key FileItem.id files filters Hndf) as [Hnd Hsub].
  fold visible in Hnd, Hsub.
  assert (FileItem.id <$> visible ⊆ FileItem.id <$> files) as Hids.
  { intros k (x & -> & Hx)%list_elem_of_fmap. by apply list_elem_of_fmap_2, Hsub. }
  rewrite (App_executeBatch_after caps globalConfig d). cbn [updatedFiles]. split.
  - apply list_eq. intros i. rewrite list_lookup_fmap.
    destruct (files !! i) as [x|] eqn:Hx.
    + cbn [fmap option_fmap option_map].
      destruct (loop_outcome stepA verdictA shapeA visible (start files m) i x Hnd Hndf Hx)
        as [[Hout ->]|(l1 & f & l2 & Heq & Hid & ->)].
      * rewrite decide_False; [done|]. intros Hin. apply Hout.
        by apply list_elem_of_fmap_2.
      * assert (f ∈ visible) as Hf by (rewrite Heq, elem_of_app; right; by left).
        assert (f = x) as ->.
        { apply (NoDup_key_eq FileItem.id files); [done|by apply Hsub| |done].
          by eapply list_elem_of_lookup_2. }
        by rewrite decide_True.
    + cbn [fmap option_fmap option_map]. apply lookup_ge_None.
      apply lookup_ge_None in Hx.
      rewrite <- (length_fmap FileItem.id), (loop_ids stepA verdictA shapeA), length_fmap.
      done.
  - unfold progressDone.
    rewrite (loop_count stepA verdictA shapeA _ (progressDone_settled caps globalConfig)
               visible (start files m)) by done.
    cbn [updatedFiles].
    match goal with
    | |- context [filter ?P files] => assert (filter P files = []) as ->
    end; [|simpl; lia].
    apply filter_none. intros x Hx [[Hs|Hs] _];
      apply scanEntries_pending in Hx; congruence.
Qed.

(** X25. From the scan to the destination: under a configuration with
  empty prefix, suffix, extension and find text, when the names of the
  scanned files are distinct and every visible one holds no dot or has
  a non-empty extension, a visible file whose source is read and whose
  writes go through is found in the destination under its original
  name, with the bytes read. *)
Theorem fresh_scan_copies_under_the_same_names entries filters m f data :
  neutral globalConfig -> GlobalConfig.find globalConfig = EmptyString ->
  NoDup (FileItem.originalName <$> scanEntries entries) ->
  (forall g, g ∈ App.filteredFiles (scanFiles [] (Some entries)) filters ->
     Z.of_nat (String.length (FileItem.originalName g)) < 2 ^ 32 /\
     (dotless (FileItem.originalName g) \/ getExtension (FileItem.originalName g) <> EmptyString)) ->
  f ∈ App.filteredFiles (scanFiles [] (Some entries)) filters ->
  getFile_result caps (FileItem.handle f) = inr data ->
  create_fault caps (FileItem.originalName f) = None ->
  write_fault caps (FileItem.originalName f) = None ->
  directory
    (after (App.executeBatch caps globalConfig (Some d) (scanFiles [] (Some entries))
              (App.filteredFiles (scanFiles [] (Some entries)) filters)) m)
  !! FileItem.originalName f = Some data.
Proof.
  cbn [scanFiles]. set (files := scanEntries entries).
  set (visible := App.filteredFiles files filters).
  intros Hn Hfind Hndf Hshape Hf Hread Hc Hw.
  destruct (App_filteredFiles_key FileItem.originalName files filters Hndf) as [Hnd Hsub].
  fold visible in Hnd, Hsub.
  assert (forall g, g ∈ visible ->
            App.getFinalName globalConfig g = FileItem.originalName g) as Hnames.
  { intros g Hg. destruct (Hshape g Hg) as [Hlen Hs].
    by destruct (scanned_names_kept g entries globalConfig
                   (Hsub g Hg) Hn Hfind Hlen Hs) as [-> _]. }
  rewrite <- (Hnames f Hf).
  apply list_elem_of_split in Hf as (l1 & l2 & Heq).
  assert (f ∈ visible) as Hf by (rewrite Heq, elem_of_app; right; by left).
  assert (forall g, g ∈ l2 -> g ∈ visible) as Hl2.
  { intros g Hg. rewrite Heq, elem_of_app. right. by right. }
  rewrite Heq. rewrite App_executeBatch_directory. apply App_loop_last_writer; [done| |].
  - unfold failure. by rewrite Hread, (Hnames f Hf), Hc, Hw.
  - intros g Hg. rewrite (Hnames f Hf), (Hnames g (Hl2 g Hg)).
    rewrite Heq, fmap_app, fmap_cons in Hnd.
    apply NoDup_app in Hnd as (_ & _ & Hnd). apply NoDup_cons in Hnd as [Hnot _].
    intros Hsame. apply Hnot. rewrite <- Hsame. by apply list_elem_of_fmap_2.
Qed.
End FreshScan.

(** ** The executor of the revision without sorting *)

Section PlainExecutor.
Variables (caps : Capabilities) (globalConfig : GlobalConfig.t).
Implicit Types (files visible l : list FileItem.t) (f : FileItem.t) (m : Machine).

Lemma AppPlain_copyItem_as_AppCollision f m :
  AppPlain.getFinalName globalConfig f = AppCollision.getFinalName globalConfig f ->
  AppPlain.copyItem caps globalConfig f m = AppCollision.copyItem caps globalConfig f m.
Proof.
  intros Hname. unfold AppPlain.copyItem, AppCollision.copyItem. by rewrite Hname.
Qed.

Lemma forEach_ext {A} (l : list A) (body body' : A -> M unit) m :
  (forall x m', x ∈ l -> body x m' = body' x m') ->
  forEach l body m = forEach l body' m.
Proof.
  revert m. induction l as [|x l IH]; intros m Hb; [done|].
  cbn [forEach]. unfold mbind, M_bind. rewrite (Hb x m) by (by left).
  destruct (body' x m) as [[e|[]] m']; [done|]. apply IH.
  intros y m'' Hy. apply Hb. by right.
Qed.

(** X26. The executor of the revision without sorting runs as the one of
  the revision with the collision check, event for event, whenever no
  visible item is given an extension that starts with a dot. *)
Theorem AppPlain_executeBatch_as_AppCollision destHandle files visible m :
  (forall f, f ∈ visible ->
     JS.startsWith
       (JS.or (JS.or (FileItem.extension f) (GlobalConfig.extension globalConfig))
          (getExtension (FileItem.originalName f))) "." = false) ->
  AppPlain.executeBatch caps globalConfig destHandle files visible m
  = AppCollision.executeBatch caps globalConfig destHandle files visible m.
Proof.
  intros Hdots. destruct destHandle as [d|]; [|done].
  unfold AppPlain.executeBatch, AppCollision.executeBatch, mbind, M_bind, emit,
    declare_updatedFiles.
  cbn [updatedFiles directory journal].
  rewrite (forEach_ext visible (AppPlain.copyItem caps globalConfig)
             (AppCollision.copyItem caps globalConfig)); [done|].
  intros f m' Hf. apply AppPlain_copyItem_as_AppCollision.
  by apply AppPlain_getFinalName_dot, Hdots.
Qed.
End PlainExecutor.

(** ** The further properties on the sample data *)

Lemma getBaseName_getExtension_split_witness :
  getBaseName ("archive.tar" +:+ "." +:+ "gz") = "archive.tar" /\
  getExtension ("archive.tar" +:+ "." +:+ "gz") = "gz".
Proof.
  apply (getBaseName_getExtension_split "archive.tar" "gz"); [reflexivity|done|reflexivity].
Defined.

Lemma getBaseName_getExtension_join_witness :
  "archive.tar.gz" = getBaseName "archive.tar.gz" +:+ "." +:+ getExtension "archive.tar.gz" /\
  getBaseName "archive.tar.gz" <> EmptyString /\ dotless (getExtension "archive.tar.gz").
Proof.
  apply (getBaseName_getExtension_join "archive.tar.gz"); [reflexivity|].
  vm_compute. discriminate.
Defined.

Lemma getExtension_empty_witness :
  getExtension ".gitignore" = EmptyString <->
  dotless ".gitignore" \/ (exists post, ".gitignore" = "." +:+ post /\ dotless post) \/
  (exists pre, ".gitignore" = pre +:+ ".").
Proof. apply (getExtension_empty ".gitignore"). reflexivity. Defined.

Example names_at_the_last_dot :
  (getBaseName "archive.tar.gz", getExtension "archive.tar.gz") = ("archive.tar", "gz") /\
  (getBaseName "Makefile", getExtension "Makefile") = ("Makefile", EmptyString) /\
  (getBaseName ".gitignore", getExtension ".gitignore") = (EmptyString, EmptyString) /\
  (getBaseName "notes.", getExtension "notes.") = ("notes", EmptyString).
Proof. split_and!; reflexivity. Qed.

Lemma scanned_item_keeps_its_name_witness :
  App.getFinalName Sample.globalConfig Cases.archive = FileItem.originalName Cases.archive /\
  AppCollision.getFinalName Sample.globalConfig Cases.archive
  = FileItem.originalName Cases.archive /\
  AppPlain.getFinalName Sample.globalConfig Cases.archive
  = FileItem.originalName Cases.archive.
Proof.
  apply (scanned_item_keeps_its_name Cases.archive Cases.entries Sample.globalConfig).
  - compute_done.
  - repeat split.
  - reflexivity.
  - reflexivity.
  - right. vm_compute. discriminate.
Defined.

Lemma scanned_item_loses_its_dot_witness :
  (forall post,
     FileItem.originalName Cases.hidden = "." +:+ post -> dotless post ->
     AppCollision.getFinalName Sample.globalConfig Cases.hidden = EmptyString /\
     AppPlain.getFinalName Sample.globalConfig Cases.hidden = EmptyString) /\
  (forall pre,
     FileItem.originalName Cases.hidden = pre +:+ "." -> pre <> EmptyString ->
     AppCollision.getFinalName Sample.globalConfig Cases.hidden = pre /\
     AppPlain.getFinalName Sample.globalConfig Cases.hidden = pre).
Proof.
  apply (scanned_item_loses_its_dot Cases.hidden Cases.entries Sample.globalConfig).
  - compute_done.
  - repeat split.
  - reflexivity.
Defined.

Example hidden_and_dotted_names :
  AppCollision.getFinalName Sample.globalConfig <$> Cases.files
  = [EmptyString; "Makefile"; "archive.tar.gz"; "notes"] /\
  AppCollision.getFinalName Sample.globalConfig <$> Cases.twins = ["a"; "a"].
Proof. split; reflexivity. Qed.

Lemma find_replace_without_effect_witness :
  App.getFinalName Cases.finding Sample.a = AppCollision.getFinalName Cases.finding Sample.a.
Proof.
  apply (find_replace_without_effect Cases.finding Sample.a). right. reflexivity.
Defined.

Lemma renaming_keeps_the_visible_rows_witness :
  (forall fld target v,
     stamp <$> AppCollision.filteredFiles (editField fld target v Sample.five)
                 Sample.two_holidays
     = stamp <$> AppCollision.filteredFiles Sample.five Sample.two_holidays) /\
  (forall text visible,
     stamp <$> AppCollision.filteredFiles (applyPastedNames text visible Sample.five)
                 Sample.two_holidays
     = stamp <$> AppCollision.filteredFiles Sample.five Sample.two_holidays).
Proof.
  apply (renaming_keeps_the_visible_rows AppCollision.filteredFiles Sample.five
           Sample.two_holidays).
  apply list_elem_of_further, list_elem_of_here.
Defined.

Lemma applyPastedNames_idempotent_witness :
  applyPastedNames Cases.pasted
    (App.filteredFiles
       (applyPastedNames Cases.pasted (App.filteredFiles Sample.five Sample.two_holidays)
          Sample.five)
       Sample.two_holidays)
    (applyPastedNames Cases.pasted (App.filteredFiles Sample.five Sample.two_holidays)
       Sample.five)
  = applyPastedNames Cases.pasted (App.filteredFiles Sample.five Sample.two_holidays)
      Sample.five.
Proof.
  apply (applyPastedNames_idempotent App.filteredFiles Cases.pasted Sample.five
           Sample.two_holidays).
  apply list_elem_of_here.
Defined.

Example pasted_names_on_the_sample :
  (fun f => (FileItem.id f, FileItem.customBaseName f))
    <$> applyPastedNames Cases.pasted (App.filteredFiles Sample.five Sample.two_holidays)
          Sample.five
  = [("1", "holiday-3"); ("2", "notes"); ("3", "x"); ("4", "todo"); ("5", "y")].
Proof. reflexivity. Qed.

Lemma applyPastedNames_assigns_trimmed_names_witness :
  FileItem.with_customBaseName "x" Sample.a
  = FileItem.with_customBaseName
      (FileItem.customBaseName (FileItem.with_customBaseName "x" Sample.a)) Sample.a /\
  FileItem.customBaseName (FileItem.with_customBaseName "x" Sample.a) <> EmptyString /\
  JS.trim (FileItem.customBaseName (FileItem.with_customBaseName "x" Sample.a))
  = FileItem.customBaseName (FileItem.with_customBaseName "x" Sample.a) /\
  JS.includes (FileItem.customBaseName (FileItem.with_customBaseName "x" Sample.a))
    (String "010" EmptyString) = false.
Proof.
  apply (applyPastedNames_assigns_trimmed_names Cases.pasted Sample.files Sample.files 0
           Sample.a (FileItem.with_customBaseName "x" Sample.a)).
  - reflexivity.
  - reflexivity.
  - vm_compute. discriminate.
Defined.

Lemma filteredFiles_ordered_witness :
  ordered (fun a b => compareBy (FilterState.sort Cases.by_name) a b <= 0)
    (App.filteredFiles Sample.five Cases.by_name) /\
  ordered (fun a b => compareBy (FilterState.sort Cases.by_name) a b <= 0)
    (AppCollision.filteredFiles Sample.five Cases.by_name).
Proof.
  apply (filteredFiles_ordered Sample.five Cases.by_name). compute_done.
Defined.

Lemma filteredFiles_ordered_by_number_witness :
  ordered (fun a b => (FileItem.size b <= FileItem.size a)%N)
    (AppCollision.filteredFiles Sample.five Cases.by_size).
Proof.
  apply (filteredFiles_ordered_by_number Sample.five Cases.by_size
           AppCollision.filteredFiles).
  apply list_elem_of_further, list_elem_of_here.
Defined.

Example orders_on_the_sample :
  FileItem.originalName <$> AppCollision.filteredFiles Sample.five Cases.by_name
  = ["Holiday-1.jpg"; "holiday-2.jpg"; "holiday-3.jpg"; "notes.txt"; "todo.md"] /\
  FileItem.size <$> AppCollision.filteredFiles Sample.five Cases.by_size
  = [300; 200; 100; 7; 5]%N.
Proof. split; reflexivity. Qed.

Lemma executeBatch_last_writer_wins_witness :
  directory
    (after (App.executeBatch Sample.sound Sample.globalConfig (Some Sample.destination)
              Cases.twins ([Cases.first_twin] ++ Cases.second_twin :: [])) Cases.occupied)
  !! App.getFinalName Sample.globalConfig Cases.second_twin
  = Some (Sample.content (FileHandle 2)).
Proof.
  apply (executeBatch_last_writer_wins Sample.sound Sample.globalConfig Sample.destination
           Cases.twins [Cases.first_twin] Cases.second_twin [] Cases.occupied
           (Sample.content (FileHandle 2))).
  - reflexivity.
  - reflexivity.
  - apply Forall_forall. compute_done.
Defined.

(** The entry that the destination held under the name and the bytes of
    the first twin are both gone. *)
Example last_writer_on_the_twins :
  directory Cases.occupied !! "a" = Some [Byte.x00] /\
  App.getFinalName Sample.globalConfig <$> Cases.twins = ["a"; "a"] /\
  map_to_list
    (directory
       (after (App.executeBatch Sample.sound Sample.globalConfig (Some Sample.destination)
                 Cases.twins [Cases.first_twin]) Cases.occupied))
  = [("a", Sample.content (FileHandle 1))] /\
  map_to_list
    (directory
       (after (App.executeBatch Sample.sound Sample.globalConfig (Some Sample.destination)
                 Cases.twins Cases.twins) Cases.occupied))
  = [("a", Sample.content (FileHandle 2))].
Proof. split_and!; compute_done. Qed.

(** Two visible items with one final name: the executor without the
    check reports two successes and keeps the bytes of the second. *)
Example twins_overwrite_each_other :
  FileItem.status
    <$> updatedFiles
          (after (App.executeBatch Sample.sound Sample.globalConfig
                    (Some Sample.destination) Cases.twins Cases.twins) Sample.fresh)
  = [success; success] /\
  map_to_list
    (directory
       (after (App.executeBatch Sample.sound Sample.globalConfig
                 (Some Sample.destination) Cases.twins Cases.twins) Sample.fresh))
  = [("a", Sample.content (FileHandle 2))] /\
  (fun f => (FileItem.status f, FileItem.errorMessage f))
    <$> updatedFiles
          (after (AppCollision.executeBatch Sample.sound Sample.globalConfig
                    (Some Sample.destination) Cases.twins Cases.twins) Sample.fresh)
  = [(success, None); (skipped, Some "Ya existe")] /\
  map_to_list
    (directory
       (after (AppCollision.executeBatch Sample.sound Sample.globalConfig
                 (Some Sample.destination) Cases.twins Cases.twins) Sample.fresh))
  = [("a", Sample.content (FileHandle 1))].
Proof. split_and!; compute_done. Qed.

Lemma success_means_copied_witness :
  directory Sample.fresh !! AppCollision.getFinalName Sample.globalConfig Sample.a = None /\
  exists data,
    getFile_result Sample.sound (FileItem.handle Sample.a) = inr data /\
    directory
      (after (AppCollision.executeBatch Sample.sound Sample.globalConfig
                (Some Sample.destination) Sample.files Sample.files) Sample.fresh)
    !! AppCollision.getFinalName Sample.globalConfig Sample.a = Some data.
Proof.
  apply (success_means_copied Sample.sound Sample.globalConfig Sample.destination eq_refl
           Sample.files Sample.files Sample.fresh Sample.a
           (FileItem.with_status success Sample.a)); compute_done.
Defined.

Lemma one_success_per_final_name_witness :
  FileItem.status (FileItem.with_status_message skipped "Ya existe" Cases.second_twin)
  <> success.
Proof.
  apply (one_success_per_final_name Sample.sound Sample.globalConfig Sample.destination
           eq_refl Cases.twins Cases.twins Sample.fresh Cases.first_twin Cases.second_twin
           (FileItem.with_status success Cases.first_twin)
           (FileItem.with_status_message skipped "Ya existe" Cases.second_twin));
    compute_done.
Defined.

Lemma overwrite_is_the_unchecked_copy_witness :
  updatedFiles
    (after (AppCollision.executeBatch Sample.sound Cases.overwriting
              (Some Sample.destination) Sample.files Sample.files) Sample.taken)
  = updatedFiles
      (after (App.executeBatch Sample.sound Cases.overwriting
                (Some Sample.destination) Sample.files Sample.files) Sample.taken) /\
  directory
    (after (AppCollision.executeBatch Sample.sound Cases.overwriting
              (Some Sample.destination) Sample.files Sample.files) Sample.taken)
  = directory
      (after (App.executeBatch Sample.sound Cases.overwriting
                (Some Sample.destination) Sample.files Sample.files) Sample.taken).
Proof.
  apply (overwrite_is_the_unchecked_copy Sample.sound Cases.overwriting Sample.destination
           Sample.files Sample.files Sample.taken).
  - reflexivity.
  - apply Forall_forall. compute_done.
Defined.

Lemma executeBatch_journal_witness :
  exists evs,
    journal
      (after (AppCollision.executeBatch Sample.unreadable_b Sample.globalConfig
                (Some Sample.destination) Sample.files Sample.files) Sample.fresh)
    = journal Sample.fresh ++ [SetIsProcessing true; SetShowConfirm false] ++ evs
      ++ [SetIsProcessing false] /\
    reads evs = FileItem.handle <$> Sample.files /\
    length (published evs) = (2 * length Sample.files)%nat /\
    (Sample.files <> [] ->
     last (published evs)
     = Some (updatedFiles
               (after (AppCollision.executeBatch Sample.unreadable_b Sample.globalConfig
                         (Some Sample.destination) Sample.files Sample.files)
                  Sample.fresh))).
Proof.
  apply (executeBatch_journal Sample.unreadable_b Sample.globalConfig Sample.destination
           AppCollision.executeBatch Sample.files Sample.files Sample.fresh).
  apply list_elem_of_further, list_elem_of_here.
Defined.

Lemma progress_after_batch_witness :
  progressDone
    (updatedFiles
       (after (App.executeBatch Sample.sound Sample.globalConfig (Some Sample.destination)
                 (updatedFiles Sample.first_run) [Sample.b]) Sample.first_run))
  = (length [Sample.b]
     + progressDone
         (filter (fun x => FileItem.id x ∉ FileItem.id <$> [Sample.b])
            (updatedFiles Sample.first_run)))%nat
  /\
  progressSettled
    (updatedFiles
       (after (AppCollision.executeBatch Sample.sound Sample.globalConfig
                 (Some Sample.destination) (updatedFiles Sample.first_run) [Sample.b])
          Sample.first_run))
  = (length [Sample.b]
     + progressSettled
         (filter (fun x => FileItem.id x ∉ FileItem.id <$> [Sample.b])
            (updatedFiles Sample.first_run)))%nat.
Proof.
  apply (progress_after_batch Sample.sound Sample.globalConfig Sample.destination
           (updatedFiles Sample.first_run) [Sample.b] Sample.first_run); compute_done.
Defined.

(** A second run over one row of three that are already settled: the
    numerator of the progress is three, the denominator one. *)
Example progress_beyond_the_visible_rows :
  progressDone
    (updatedFiles
       (after (App.executeBatch Sample.sound Sample.globalConfig (Some Sample.destination)
                 (updatedFiles Sample.first_run) [Sample.b]) Sample.first_run)) = 3%nat /\
  length [Sample.b] = 1%nat.
Proof. split; compute_done. Qed.

Lemma fresh_scan_run_settles_the_visible_rows_witness :
  updatedFiles
    (after (App.executeBatch Sample.unreadable_b Sample.globalConfig
              (Some Sample.destination) (scanFiles [] (Some Sample.entries))
              (App.filteredFiles (scanFiles [] (Some Sample.entries)) Sample.filters))
       Sample.fresh)
  = (fun x =>
       if decide (x ∈ App.filteredFiles (scanFiles [] (Some Sample.entries)) Sample.filters)
       then settle (verdict_of_failure
                      (failure Sample.unreadable_b (FileItem.handle x)
                         (App.getFinalName Sample.globalConfig x)))
              x
       else x) <$> scanFiles [] (Some Sample.entries) /\
  progressDone
    (updatedFiles
       (after (App.executeBatch Sample.unreadable_b Sample.globalConfig
                 (Some Sample.destination) (scanFiles [] (Some Sample.entries))
                 (App.filteredFiles (scanFiles [] (Some Sample.entries)) Sample.filters))
          Sample.fresh))
  = length (App.filteredFiles (scanFiles [] (Some Sample.entries)) Sample.filters).
Proof.
  apply (fresh_scan_run_settles_the_visible_rows Sample.unreadable_b Sample.globalConfig
           Sample.destination Sample.entries Sample.filters Sample.fresh).
  compute_done.
Defined.

Lemma fresh_scan_copies_under_the_same_names_witness :
  directory
    (after (App.executeBatch Sample.sound Sample.globalConfig (Some Sample.destination)
              (scanFiles [] (Some Sample.entries))
              (App.filteredFiles (scanFiles [] (Some Sample.entries)) Sample.filters))
       Sample.fresh)
  !! FileItem.originalName Sample.c = Some (Sample.content (FileHandle 3)).
Proof.
  apply (fresh_scan_copies_under_the_same_names Sample.sound Sample.globalConfig
           Sample.destination Sample.entries Sample.filters Sample.fresh Sample.c
           (Sample.content (FileHandle 3))).
  - repeat split.
  - reflexivity.
  - compute_done.
  - apply Forall_forall. compute_done.
  - compute_done.
  - reflexivity.
  - reflexivity.
  - reflexivity.
Defined.

Lemma AppPlain_executeBatch_as_AppCollision_witness :
  AppPlain.executeBatch Sample.sound Sample.globalConfig (Some Sample.destination)
    Sample.files Sample.files Sample.taken
  = AppCollision.executeBatch Sample.sound Sample.globalConfig (Some Sample.destination)
      Sample.files Sample.files Sample.taken.
Proof.
  apply (AppPlain_executeBatch_as_AppCollision Sample.sound Sample.globalConfig
           (Some Sample.destination) Sample.files Sample.files Sample.taken).
  apply Forall_forall. compute_done.
Defined.

(** An extension typed with its dot: one dot in the revisions that look
    for it, two in the one that does not. *)
Example extension_typed_with_its_dot :
  App.getFinalName Sample.globalConfig (setField FExtension ".md" Sample.a) = "a.md" /\
  AppCollision.getFinalName Sample.globalConfig (setField FExtension ".md" Sample.a) = "a.md" /\
  AppPlain.getFinalName Sample.globalConfig (setField FExtension ".md" Sample.a) = "a..md" /\
  GlobalConfig.extension (setGlobalExtension ".md" Sample.globalConfig) = "md" /\
  GlobalConfig.extension (setGlobalExtension ".tar.gz" Sample.globalConfig) = "tar.gz".
Proof. split_and!; reflexivity. Qed.
